(** * Audio fingerprint matching engine of [backend/server.js]

    A shallow embedding of the [AudioFingerprint] class: signal
    conditioning ([normalizeAudio], [highPassFilter]), the band-energy and
    spectral-contrast features, and the matcher ([compareFingerprints],
    [compareFingerprintsAligned], [matchAudio]).

    Numbers.  JavaScript numbers are modelled as real numbers: every
    arithmetic operation is the exact one; rounding (of doubles, and of the
    [Float32Array] buffers) and overflow are not modelled.  Arrays are
    lists, array lengths and loop counters are [nat] or [Z].  Where the
    source can leave the finite numbers (a division by zero), the operation
    is modelled on [jsnum], which adds the two infinities and NaN to the
    reals; the feature computations are also given with every division,
    logarithm and square root as a step that fails when its result is not
    finite. *)

From Stdlib Require Import String.
From Stdlib Require Import Reals Lra Lia List Bool Arith ZArith.
From Stdlib Require Import Permutation Sorted.
Import ListNotations.

Open Scope R_scope.

(** ** Data model *)

(** The seventeen keys of a feature object, in the insertion order of the
    [weights] table of [compareFingerprintsAligned]. *)
Inductive Feature : Set :=
| energy | zcr
| spectralCentroid | spectralFlux | spectralRolloff
| spectralFlatness | spectralContrast
| subBass | bass | lowMid | mid | highMid | upperMid | presence | brilliance
| peakFreq1 | peakFreq2.

(** The object pushed by [extractFeatures] for one analysis window. *)
Record Features : Type := mkFeatures {
  f_energy : R;
  f_zcr : R;
  f_spectralCentroid : R;
  f_spectralFlux : R;
  f_spectralRolloff : R;
  f_spectralFlatness : R;
  f_subBass : R;
  f_bass : R;
  f_lowMid : R;
  f_mid : R;
  f_highMid : R;
  f_upperMid : R;
  f_presence : R;
  f_brilliance : R;
  f_peakFreq1 : R;
  f_peakFreq2 : R;
  f_spectralContrast : R
}.

Definition Fingerprint : Type := list Features.

(** [f[feature] || 0]: on a number the [|| 0] only replaces 0 (and NaN) by
    0, so on reals it is the field itself. *)
Definition getFeature (f : Features) (feature : Feature) : R :=
  match feature with
  | energy => f_energy f
  | zcr => f_zcr f
  | spectralCentroid => f_spectralCentroid f
  | spectralFlux => f_spectralFlux f
  | spectralRolloff => f_spectralRolloff f
  | spectralFlatness => f_spectralFlatness f
  | spectralContrast => f_spectralContrast f
  | subBass => f_subBass f
  | bass => f_bass f
  | lowMid => f_lowMid f
  | mid => f_mid f
  | highMid => f_highMid f
  | upperMid => f_upperMid f
  | presence => f_presence f
  | brilliance => f_brilliance f
  | peakFreq1 => f_peakFreq1 f
  | peakFreq2 => f_peakFreq2 f
  end.

(** ** MATCHING_CONFIG *)

Module MATCHING_CONFIG.
Definition DEFAULT_THRESHOLD : R := 0.85.
Definition MIN_NOTIFICATION_CONFIDENCE : R := 0.80.
Definition HIGH_PASS_CUTOFF : R := 80.
Definition REQUIRE_TEMPORAL_CONSISTENCY : bool := true.
Definition MIN_CONSISTENT_FRAMES : R := 0.6.
End MATCHING_CONFIG.

(** ** Matcher *)

(** The [weights] object literal; [Object.entries] walks it in this order. *)
Definition weights : list (Feature * R) :=
  [ (energy, 0.01); (zcr, 0.03);
    (spectralCentroid, 0.12); (spectralFlux, 0.10); (spectralRolloff, 0.10);
    (spectralFlatness, 0.08); (spectralContrast, 0.08);
    (subBass, 0.06); (bass, 0.08); (lowMid, 0.07); (mid, 0.08);
    (highMid, 0.06); (upperMid, 0.05); (presence, 0.04); (brilliance, 0.02);
    (peakFreq1, 0.01); (peakFreq2, 0.01) ].

(** [feature.startsWith('peakFreq')] *)
Definition startsWith_peakFreq (feature : Feature) : bool :=
  match feature with
  | peakFreq1 | peakFreq2 => true
  | _ => false
  end.

(** [Math.max(a, b, c)] *)
Definition max3 (a b c : R) : R := Rmax (Rmax a b) c.

(** The body of the inner loop: similarity of one feature of two frames. *)
Definition similarity (feature : Feature) (v1 v2 : R) : R :=
  if startsWith_peakFreq feature then
    let maxFreq := max3 v1 v2 1 in
    let freqDiff := Rabs (v1 - v2) in
    exp (- freqDiff / (maxFreq * 0.1))
  else
    let maxVal := max3 (Rabs v1) (Rabs v2) 0.001 in
    let normalizedDiff := Rabs (v1 - v2) / maxVal in
    exp (- normalizedDiff * 2.0).

(** The inner [for ... of Object.entries(weights)] loop, parameterised by
    the table it walks. *)
Definition frameSimilarityOver (table : list (Feature * R)) (f1 f2 : Features) : R :=
  fold_left
    (fun frameSimilarity (entry : Feature * R) =>
       let (feature, weight) := entry in
       frameSimilarity
       + similarity feature (getFeature f1 feature) (getFeature f2 feature) * weight)
    table 0.

Definition frameSimilarity : Features -> Features -> R :=
  frameSimilarityOver weights.

(** The outer loop, [i] from 0 to [min(fp1.length, fp2.length)]. *)
Fixpoint frameSimilarities (fp1 fp2 : Fingerprint) : list R :=
  match fp1, fp2 with
  | f1 :: rest1, f2 :: rest2 => frameSimilarity f1 f2 :: frameSimilarities rest1 rest2
  | _, _ => []
  end.

(** [xs.reduce((a, b) => a + b, 0)] *)
Definition sum (xs : list R) : R := fold_left Rplus xs 0.

(** [s => s > 0.7] *)
Definition isGoodFrame (s : R) : bool :=
  if Rgt_dec s 0.7 then true else false.

(** [compareFingerprintsAligned].  The source calls it only behind the
    length gate of [compareFingerprints], where [len] is at least 10. *)
Definition compareFingerprintsAligned (fp1 fp2 : Fingerprint) : R :=
  let len := Nat.min (length fp1) (length fp2) in
  let sims := frameSimilarities fp1 fp2 in
  let average := sum sims / INR len in
  if MATCHING_CONFIG.REQUIRE_TEMPORAL_CONSISTENCY then
    let goodFrames := length (filter isGoodFrame sims) in
    let consistencyRatio := INR goodFrames / INR (length sims) in
    if Rlt_dec consistencyRatio MATCHING_CONFIG.MIN_CONSISTENT_FRAMES
    then average * 0.5
    else average
  else average.

(** [compareFingerprints] *)
Definition compareFingerprints (fp1 fp2 : Fingerprint) : R :=
  let minLen := Nat.min (length fp1) (length fp2) in
  if (minLen <? 10)%nat then 0
  else
    let score := compareFingerprintsAligned fp1 fp2 in
    let lengthRatio := INR minLen / INR (Nat.max (length fp1) (length fp2)) in
    let lengthPenalty := if Rlt_dec lengthRatio 0.7 then 0.85 else 1.0 in
    score * lengthPenalty.

(** ** Fingerprint store and [matchAudio] *)

(** A value of the [database] map.  [storeAudio] writes an object with
    [fingerprint], [userId] and [timestamp]; [matchAudio] also accepts the
    older layout where the value is the fingerprint array itself
    ([storedData.fingerprint || storedData]). *)
Inductive StoredData : Type :=
| Entry (fingerprint : Fingerprint) (userId : option string) (timestamp : string)
| Bare (fingerprint : Fingerprint).

Definition storedFingerprint (d : StoredData) : Fingerprint :=
  match d with
  | Entry fp _ _ => fp
  | Bare fp => fp
  end.

(** [storedData.userId]; [None] is [undefined]. *)
Definition storedUserId (d : StoredData) : option string :=
  match d with
  | Entry _ u _ => u
  | Bare _ => None
  end.

(** The [Map] keeps insertion order and has one value per key; [matchAudio]
    only iterates over it. *)
Definition Database : Type := list (string * StoredData).

(** Truthiness of a value that is [null]/[undefined] or a string. *)
Definition truthy (s : option string) : bool :=
  match s with
  | Some s' => negb (String.eqb s' EmptyString)
  | None => false
  end.

(** [a !== b] on values that are [undefined] or a string. *)
Definition strictNotEqual (a b : option string) : bool :=
  match a, b with
  | Some x, Some y => negb (String.eqb x y)
  | None, None => false
  | _, _ => true
  end.

(** The guard [userId && storedData.userId !== userId] of the loop. *)
Definition skipped (userId : option string) (storedData : StoredData) : bool :=
  truthy userId && strictNotEqual (storedUserId storedData) userId.

(** An element of [allScores]. *)
Record ScoreEntry : Type := mkScoreEntry {
  se_audioId : string;
  se_score : R;
  se_userId : string
}.

(** [storedData.userId || 'unknown'] *)
Definition userIdOrUnknown (d : StoredData) : string :=
  match storedUserId d with
  | Some u => if String.eqb u EmptyString then "unknown"%string else u
  | None => "unknown"%string
  end.

(** State of the loop of [matchAudio]. *)
Record MatchState : Type := mkMatchState {
  bestMatch : option string;
  bestScore : R;
  allScores : list ScoreEntry
}.

(** One iteration of [for (const [audioId, storedData] of this.database)]. *)
Definition matchStep (unknownFingerprint : Fingerprint) (userId : option string)
    (st : MatchState) (kv : string * StoredData) : MatchState :=
  let (audioId, storedData) := kv in
  if skipped userId storedData then st
  else
    let score := compareFingerprints unknownFingerprint (storedFingerprint storedData) in
    let pushed := allScores st ++ [mkScoreEntry audioId score (userIdOrUnknown storedData)] in
    if Rgt_dec score (bestScore st)
    then mkMatchState (Some audioId) score pushed
    else mkMatchState (bestMatch st) (bestScore st) pushed.

Definition matchLoop (unknownFingerprint : Fingerprint) (userId : option string)
    (database : Database) : MatchState :=
  fold_left (matchStep unknownFingerprint userId) database (mkMatchState None 0 []).

(** [xs.sort((a, b) => key(b) - key(a))]: a stable sort, largest key first. *)
Fixpoint insertDesc {A : Type} (key : A -> R) (x : A) (sorted : list A) : list A :=
  match sorted with
  | [] => [x]
  | y :: rest =>
      if Rle_dec (key y) (key x) then x :: y :: rest
      else y :: insertDesc key x rest
  end.

Definition sortDesc {A : Type} (key : A -> R) (xs : list A) : list A :=
  fold_right (insertDesc key) [] xs.

(** The object returned by [matchAudio]. *)
Record MatchResult : Type := mkMatchResult {
  r_match : option string;
  r_confidence : R;
  r_allScores : list ScoreEntry
}.

(** [matchAudio], after [generateFingerprint(audioPath)] has produced
    [unknownFingerprint]; the logging block has no effect on the result. *)
Definition matchAudio (unknownFingerprint : Fingerprint) (threshold : R)
    (userId : option string) (database : Database) : MatchResult :=
  let st := matchLoop unknownFingerprint userId database in
  let ranked := sortDesc se_score (allScores st) in
  if Rge_dec (bestScore st) threshold
  then mkMatchResult (bestMatch st) (bestScore st) ranked
  else mkMatchResult None (bestScore st) ranked.

(** ** Signal conditioning *)

(** The first loop of [normalizeAudio]. *)
Definition maxAmplitude (samples : list R) : R :=
  fold_left (fun m x => if Rgt_dec (Rabs x) m then Rabs x else m) samples 0.

(** [normalizeAudio] *)
Definition normalizeAudio (samples : list R) : list R :=
  let m := maxAmplitude samples in
  if Req_dec_T m 0 then samples
  else map (fun x => x / m) samples.

(** [alpha] of [highPassFilter]. *)
Definition highPassAlpha (cutoffFreq sampleRate : R) : R :=
  let RC := 1.0 / (cutoffFreq * 2 * PI) in
  let dt := 1.0 / sampleRate in
  RC / (RC + dt).

(** The loop of [highPassFilter] from index 1 on, carrying [filtered[i-1]]
    and [samples[i-1]]. *)
Fixpoint highPassLoop (alpha prevFiltered prevSample : R) (rest : list R) : list R :=
  match rest with
  | [] => []
  | x :: rest' =>
      let y := alpha * (prevFiltered + x - prevSample) in
      y :: highPassLoop alpha y x rest'
  end.

(** [highPassFilter]; on an empty buffer the write to [filtered[0]] is
    dropped and the result is empty. *)
Definition highPassFilter (samples : list R) (cutoffFreq sampleRate : R) : list R :=
  match samples with
  | [] => []
  | x0 :: rest => x0 :: highPassLoop (highPassAlpha cutoffFreq sampleRate) x0 x0 rest
  end.

(** The conditioning prefix of [extractFeatures]:
    [normalizeAudio] followed by [highPassFilter(samples, 80, sampleRate)]. *)
Definition condition (samples : list R) (sampleRate : R) : list R :=
  highPassFilter (normalizeAudio samples) 80 sampleRate.

(** Largest absolute value of a buffer (0 for the empty one). *)
Definition peak (samples : list R) : R :=
  fold_right (fun x m => Rmax (Rabs x) m) 0 samples.

(** ** Band energy *)

(** [startBin] and [endBin] of [getBandEnergy]. *)
Definition binSpan (spectrum : list R) (lowFreq highFreq sampleRate : R) : Z * Z :=
  let nyquist := sampleRate / 2 in
  let lowBin := Zfloor ((lowFreq / nyquist) * INR (length spectrum)) in
  let highBin := Zceil ((highFreq / nyquist) * INR (length spectrum)) in
  let startBin := Z.max 0 lowBin in
  let endBin := Z.min highBin (Z.of_nat (length spectrum)) in
  (startBin, endBin).

(** The elements [xs[startBin]], ..., [xs[endBin - 1]] a loop
    [for (i = startBin; i < endBin; i++)] reads. *)
Definition slice (xs : list R) (startBin endBin : Z) : list R :=
  firstn (Z.to_nat (endBin - startBin)) (skipn (Z.to_nat startBin) xs).

(** [getBandEnergy] *)
Definition getBandEnergy (spectrum : list R) (lowFreq highFreq sampleRate : R) : R :=
  let (startBin, endBin) := binSpan spectrum lowFreq highFreq sampleRate in
  if (startBin >=? endBin)%Z then 0
  else
    let energy := fold_left (fun e x => e + x * x) (slice spectrum startBin endBin) 0 in
    sqrt (energy / IZR (endBin - startBin + 1)).

(** Root of the mean of the squares of a list of magnitudes, as the
    specification words the band-energy feature. *)
Definition rootMeanSquare (xs : list R) : R :=
  sqrt (sum (map (fun x => x * x) xs) / INR (length xs)).

(** ** Numbers that may leave the reals *)

(** A JavaScript number up to rounding and the sign of zero: a real, one
    of the two infinities, or NaN. *)
Inductive jsnum : Type :=
| Fin (r : R)
| PosInf
| NegInf
| NaN.

(** [a / b].  A zero divisor is the non-negative zero that the counts of
    this program produce. *)
Definition jsdiv (a b : jsnum) : jsnum :=
  match a, b with
  | NaN, _ | _, NaN => NaN
  | Fin x, Fin y =>
      if Req_dec_T y 0 then
        if Req_dec_T x 0 then NaN
        else if Rlt_dec 0 x then PosInf else NegInf
      else Fin (x / y)
  | Fin _, PosInf | Fin _, NegInf => Fin 0
  | PosInf, Fin y => if Rlt_dec y 0 then NegInf else PosInf
  | NegInf, Fin y => if Rlt_dec y 0 then PosInf else NegInf
  | _, _ => NaN
  end.

(** [a > 0] *)
Definition jspositive (a : jsnum) : bool :=
  match a with
  | Fin x => if Rgt_dec x 0 then true else false
  | PosInf => true
  | NegInf | NaN => false
  end.

Definition isFinite (a : jsnum) : bool :=
  match a with
  | Fin _ => true
  | _ => false
  end.

(** [xs.slice(-n)]: the last [n] elements, and the whole array when [n] is
    0 (the start index [-0] is index 0). *)
Definition sliceLast (n : nat) (xs : list R) : list R :=
  if (n =? 0)%nat then xs else skipn (length xs - n) xs.

(** [calculateSpectralContrast].  [Math.floor(spectrum.length * 0.1)] is
    the integer quotient of the length by 10. *)
Definition calculateSpectralContrast (spectrum : list R) : jsnum :=
  let sorted := sortDesc (fun x => x) spectrum in
  let topN := (length spectrum / 10)%nat in
  let bottomN := (length spectrum / 10)%nat in
  let peakMean := jsdiv (Fin (sum (firstn topN sorted))) (Fin (INR topN)) in
  let valleyMean := jsdiv (Fin (sum (sliceLast bottomN sorted))) (Fin (INR bottomN)) in
  if jspositive valleyMean then jsdiv peakMean valleyMean else Fin 0.

(** ** Quantities the properties below are stated with *)

(** Mean of the per-frame similarities of the aligned frames. *)
Definition meanFrameSimilarity (fp1 fp2 : Fingerprint) : R :=
  sum (frameSimilarities fp1 fp2) / INR (length (frameSimilarities fp1 fp2)).

(** Fraction of aligned frames whose similarity exceeds 0.7. *)
Definition goodFrameFraction (fp1 fp2 : Fingerprint) : R :=
  INR (length (filter isGoodFrame (frameSimilarities fp1 fp2)))
  / INR (length (frameSimilarities fp1 fp2)).

(** [min(len1, len2) / max(len1, len2)] *)
Definition lengthRatio (fp1 fp2 : Fingerprint) : R :=
  INR (Nat.min (length fp1) (length fp2)) / INR (Nat.max (length fp1) (length fp2)).

(** The entries of the store that pass the owner filter, scored against the
    unknown fingerprint, in store order. *)
Definition candidates (unknownFingerprint : Fingerprint) (userId : option string)
    (database : Database) : list ScoreEntry :=
  map (fun kv : string * StoredData =>
         mkScoreEntry (fst kv)
           (compareFingerprints unknownFingerprint (storedFingerprint (snd kv)))
           (userIdOrUnknown (snd kv)))
      (filter (fun kv : string * StoredData => negb (skipped userId (snd kv))) database).

(** A frame whose features are all 0 (a silent window). *)
Definition silentFrame : Features :=
  mkFeatures 0 0 0 0 0 0 0 0 0 0 0 0 0 0 0 0 0.

(** A frame whose features are all 1. *)
Definition loudFrame : Features :=
  mkFeatures 1 1 1 1 1 1 1 1 1 1 1 1 1 1 1 1 1.

(** Ten silent frames, and five silent frames followed by five loud ones:
    a pair whose first half matches perfectly and whose second half does
    not. *)
Definition silentClip : Fingerprint := repeat silentFrame 10.
Definition halfLoudClip : Fingerprint := repeat silentFrame 5 ++ repeat loudFrame 5.

(** ** Feature extraction *)

(** An array paired with its indices, as a counting loop reads it. *)
Definition indexed (xs : list R) : list (nat * R) :=
  combine (seq 0 (length xs)) xs.

(** [calculateEnergy] *)
Definition calculateEnergy (samples : list R) : R :=
  sqrt (fold_left (fun acc x => acc + x * x) samples 0 / INR (length samples)).

(** The test of [calculateZeroCrossingRate] on [samples[i - 1]] and
    [samples[i]]. *)
Definition crosses (prev cur : R) : bool :=
  ((if Rge_dec cur 0 then true else false) && (if Rlt_dec prev 0 then true else false))
  || ((if Rlt_dec cur 0 then true else false) && (if Rge_dec prev 0 then true else false)).

(** The loop of [calculateZeroCrossingRate] from index 1 on, carrying
    [samples[i - 1]]. *)
Fixpoint crossingsFrom (prev : R) (rest : list R) : nat :=
  match rest with
  | [] => 0
  | x :: rest' => (if crosses prev x then 1 else 0) + crossingsFrom x rest'
  end.

(** [calculateZeroCrossingRate] *)
Definition calculateZeroCrossingRate (samples : list R) : R :=
  let crossings :=
    match samples with
    | [] => 0%nat
    | x0 :: rest => crossingsFrom x0 rest
    end in
  INR crossings / INR (length samples).

(** [calculateSpectralCentroid]; the state is [(weightedSum, sum)]. *)
Definition calculateSpectralCentroid (spectrum : list R) (sampleRate : R) : R :=
  let nyquist := sampleRate / 2 in
  let st :=
    fold_left
      (fun (st : R * R) (p : nat * R) =>
         let frequency := (INR (fst p) / INR (length spectrum)) * nyquist in
         (fst st + frequency * snd p, snd st + snd p))
      (indexed spectrum) (0, 0) in
  if Rgt_dec (snd st) 0 then fst st / snd st else 0.

(** [calculateSpectralFluxBetween] *)
Definition calculateSpectralFluxBetween (spectrum1 spectrum2 : list R) : R :=
  let len := Nat.min (length spectrum1) (length spectrum2) in
  let flux :=
    fold_left
      (fun acc (p : R * R) => let diff := fst p - snd p in acc + diff * diff)
      (combine spectrum1 spectrum2) 0 in
  sqrt (flux / INR len).

(** The loop of [calculateSpectralRolloff]: the first index at which the
    cumulative sum reaches the threshold. *)
Fixpoint rolloffLoop (threshold cumulativeEnergy : R) (i : nat) (rest : list R)
  : option nat :=
  match rest with
  | [] => None
  | x :: rest' =>
      let cumulativeEnergy' := cumulativeEnergy + x in
      if Rge_dec cumulativeEnergy' threshold then Some i
      else rolloffLoop threshold cumulativeEnergy' (S i) rest'
  end.

(** [calculateSpectralRolloff] *)
Definition calculateSpectralRolloff (spectrum : list R) (sampleRate : R) : R :=
  let totalEnergy := sum spectrum in
  let threshold := 0.85 * totalEnergy in
  let nyquist := sampleRate / 2 in
  match rolloffLoop threshold 0 0 spectrum with
  | Some i => (INR i / INR (length spectrum)) * nyquist
  | None => nyquist
  end.

(** The three accumulators of [calculateSpectralFlatness]. *)
Record FlatnessState : Type := mkFlatnessState {
  fs_logSum : R;
  fs_sum : R;
  fs_count : nat
}.

Definition flatnessStep (st : FlatnessState) (x : R) : FlatnessState :=
  if Rgt_dec x 0
  then mkFlatnessState (fs_logSum st + ln x) (fs_sum st + x) (S (fs_count st))
  else st.

(** [calculateSpectralFlatness].  The geometric mean is
    [Math.exp] of the mean of the [Math.log]s; on exact reals it never
    exceeds the arithmetic mean, while the rounded value of the code can do
    so in the last places when the positive bins are all equal. *)
Definition calculateSpectralFlatness (spectrum : list R) : R :=
  let st := fold_left flatnessStep spectrum (mkFlatnessState 0 0 0) in
  if (fs_count st =? 0)%nat then 0
  else
    let geometricMean := exp (fs_logSum st / INR (fs_count st)) in
    let arithmeticMean := fs_sum st / INR (fs_count st) in
    if Rgt_dec arithmeticMean 0 then geometricMean / arithmeticMean else 0.

(** The indices [lo], [lo + 1], ..., [hi - 1]. *)
Definition zrange (lo hi : Z) : list Z :=
  map (fun k => (lo + Z.of_nat k)%Z) (seq 0 (Z.to_nat (hi - lo))).

(** [xs[i]]; [None] is [undefined]. *)
Definition nthZ (xs : list R) (i : Z) : option R :=
  if (i <? 0)%Z then None else nth_error xs (Z.to_nat i).

(** One iteration of the loop of [findPeakFrequency] on the state
    [(maxMag, peakBin)]; a comparison with [undefined] is false. *)
Definition peakStep (spectrum : list R) (st : R * Z) (i : Z) : R * Z :=
  match nthZ spectrum i with
  | Some x => if Rgt_dec x (fst st) then (x, i) else st
  | None => st
  end.

(** [lowBin] and the loop bound [Math.min(highBin, spectrum.length)] of
    [findPeakFrequency]. *)
Definition peakSpan (spectrum : list R) (sampleRate lowFreq highFreq : R) : Z * Z :=
  let nyquist := sampleRate / 2 in
  let lowBin := Zfloor ((lowFreq / nyquist) * INR (length spectrum)) in
  let highBin := Zceil ((highFreq / nyquist) * INR (length spectrum)) in
  (lowBin, Z.min highBin (Z.of_nat (length spectrum))).

(** The bin [findPeakFrequency] settles on. *)
Definition peakBinOf (spectrum : list R) (sampleRate lowFreq highFreq : R) : Z :=
  let (lowBin, bound) := peakSpan spectrum sampleRate lowFreq highFreq in
  snd (fold_left (peakStep spectrum) (zrange lowBin bound) (0, lowBin)).

(** [findPeakFrequency] *)
Definition findPeakFrequency (spectrum : list R) (sampleRate lowFreq highFreq : R) : R :=
  let nyquist := sampleRate / 2 in
  (IZR (peakBinOf spectrum sampleRate lowFreq highFreq) / INR (length spectrum)) * nyquist.

(** [applyHannWindow] *)
Definition applyHannWindow (samples : list R) : list R :=
  map (fun p : nat * R =>
         let multiplier :=
           0.5 * (1 - cos ((2 * PI * INR (fst p)) / (INR (length samples) - 1))) in
         snd p * multiplier)
      (indexed samples).

(** The samples [xs[0]], [xs[2]], [xs[4]], ... with their indices, from
    index [n] on: what [for (n = 0; n < N; n += 2)] reads. *)
Fixpoint everySecond (n : nat) (xs : list R) : list (nat * R) :=
  match xs with
  | [] => []
  | x :: rest =>
      (n, x) :: match rest with
                | [] => []
                | _ :: rest' => everySecond (S (S n)) rest'
                end
  end.

(** The inner loop of [computeFullFFT] for the bin of angular step [freq];
    the state is [(real, imag)]. *)
Definition dftSums (freq : R) (samples : list R) : R * R :=
  fold_left
    (fun (st : R * R) (p : nat * R) =>
       let angle := freq * INR (fst p) in
       (fst st + snd p * cos angle, snd st - snd p * sin angle))
    (everySecond 0 samples) (0, 0).

(** [computeFullFFT] *)
Definition computeFullFFT (samples : list R) : list R :=
  let N := length samples in
  let maxBin := Nat.min 512 (N / 2) in
  map (fun k =>
         let freq := (2 * PI * INR k) / INR N in
         let (real, imag) := dftSums freq samples in
         sqrt (real * real + imag * imag) / (INR N / 2))
      (seq 0 maxBin).

(** The real number a [jsnum] is read as by [f[feature] || 0]: NaN reads as
    0.  [calculateSpectralContrast] returns no infinity. *)
Definition finiteOrZero (a : jsnum) : R :=
  match a with
  | Fin r => r
  | _ => 0
  end.

Definition windowSize : nat := 2048.
Definition hopSize : nat := 512.

(** The [features] object literal of [extractFeatures]. *)
Definition frameFeatures (window spectrum : list R) (prevSpectrum : option (list R))
    (sampleRate : R) : Features :=
  {| f_energy := calculateEnergy window;
     f_zcr := calculateZeroCrossingRate window;
     f_spectralCentroid := calculateSpectralCentroid spectrum sampleRate;
     f_spectralFlux :=
       match prevSpectrum with
       | Some prev => calculateSpectralFluxBetween spectrum prev
       | None => 0
       end;
     f_spectralRolloff := calculateSpectralRolloff spectrum sampleRate;
     f_spectralFlatness := calculateSpectralFlatness spectrum;
     f_subBass := getBandEnergy spectrum 20 60 sampleRate;
     f_bass := getBandEnergy spectrum 60 250 sampleRate;
     f_lowMid := getBandEnergy spectrum 250 500 sampleRate;
     f_mid := getBandEnergy spectrum 500 1000 sampleRate;
     f_highMid := getBandEnergy spectrum 1000 2000 sampleRate;
     f_upperMid := getBandEnergy spectrum 2000 4000 sampleRate;
     f_presence := getBandEnergy spectrum 4000 6000 sampleRate;
     f_brilliance := getBandEnergy spectrum 6000 12000 sampleRate;
     f_peakFreq1 := findPeakFrequency spectrum sampleRate 0 (sampleRate / 4);
     f_peakFreq2 := findPeakFrequency spectrum sampleRate (sampleRate / 4) (sampleRate / 2);
     f_spectralContrast := finiteOrZero (calculateSpectralContrast spectrum) |}.

(** The loop [for (i = 0; i < samples.length - windowSize; i += hopSize)] of
    [extractFeatures], from index [i] on; [fuel] bounds the number of
    iterations and [samples.length] is always enough. *)
Fixpoint extractLoop (fuel : nat) (samples : list R) (sampleRate : R) (i : nat)
    (prevSpectrum : option (list R)) : Fingerprint :=
  match fuel with
  | O => []
  | S fuel' =>
      if (Z.of_nat i <? Z.of_nat (length samples) - Z.of_nat windowSize)%Z then
        let window := applyHannWindow (firstn windowSize (skipn i samples)) in
        let spectrum := computeFullFFT window in
        frameFeatures window spectrum prevSpectrum sampleRate
        :: extractLoop fuel' samples sampleRate (i + hopSize) (Some spectrum)
      else []
  end.

(** [extractFeatures] on [audioData.channelData[0]] and
    [audioData.sampleRate]. *)
Definition extractFeatures (channel : list R) (sampleRate : R) : Fingerprint :=
  let samples := highPassFilter (normalizeAudio channel) 80 sampleRate in
  extractLoop (length samples) samples sampleRate 0 None.

(** ** Steps that may leave the finite numbers *)

(** The outcome of one step of arithmetic on finite operands: [Some] of the
    finite result, or [None] when the step yields NaN or an infinity.
    Rounding and overflow apart, the steps that can do so are a division by
    zero, [Math.log] of a number that is not strictly positive and
    [Math.sqrt] of a negative number. *)
Definition divide (x y : R) : option R :=
  if Req_dec_T y 0 then None else Some (x / y).

Definition squareRoot (x : R) : option R :=
  if Rlt_dec x 0 then None else Some (sqrt x).

Definition logarithm (x : R) : option R :=
  if Rgt_dec x 0 then Some (ln x) else None.

(** A computation goes on with the result of a step only while it is
    finite. *)
Definition andThen {A B : Type} (step : option A) (rest : A -> option B) : option B :=
  match step with
  | Some a => rest a
  | None => None
  end.

Notation "x <- step ;; rest" := (andThen step (fun x => rest))
  (at level 61, step at next level, right associativity).

(** The feature computations again, with every division, logarithm and
    square root a step of its own: the result is [Some] exactly when every
    step of the run is finite. *)

(** [calculateEnergy] *)
Definition calculateEnergyChecked (samples : list R) : option R :=
  let total := fold_left (fun acc x => acc + x * x) samples 0 in
  mean <- divide total (INR (length samples)) ;;
  squareRoot mean.

(** [calculateZeroCrossingRate] *)
Definition calculateZeroCrossingRateChecked (samples : list R) : option R :=
  let crossings :=
    match samples with
    | [] => 0%nat
    | x0 :: rest => crossingsFrom x0 rest
    end in
  divide (INR crossings) (INR (length samples)).

(** The loop of [calculateSpectralCentroid] on the state
    [(weightedSum, sum)]; [len] is [spectrum.length]. *)
Fixpoint centroidLoop (len : nat) (nyquist : R) (bins : list (nat * R))
    (st : R * R) : option (R * R) :=
  match bins with
  | [] => Some st
  | p :: rest =>
      fraction <- divide (INR (fst p)) (INR len) ;;
      let frequency := fraction * nyquist in
      centroidLoop len nyquist rest (fst st + frequency * snd p, snd st + snd p)
  end.

(** [calculateSpectralCentroid] *)
Definition calculateSpectralCentroidChecked (spectrum : list R) (sampleRate : R)
  : option R :=
  nyquist <- divide sampleRate 2 ;;
  st <- centroidLoop (length spectrum) nyquist (indexed spectrum) (0, 0) ;;
  if Rgt_dec (snd st) 0 then divide (fst st) (snd st) else Some 0.

(** [calculateSpectralFluxBetween] *)
Definition calculateSpectralFluxBetweenChecked (spectrum1 spectrum2 : list R)
  : option R :=
  let len := Nat.min (length spectrum1) (length spectrum2) in
  let flux :=
    fold_left
      (fun acc (p : R * R) => let diff := fst p - snd p in acc + diff * diff)
      (combine spectrum1 spectrum2) 0 in
  mean <- divide flux (INR len) ;;
  squareRoot mean.

(** [calculateSpectralRolloff] *)
Definition calculateSpectralRolloffChecked (spectrum : list R) (sampleRate : R)
  : option R :=
  let totalEnergy := sum spectrum in
  let threshold := 0.85 * totalEnergy in
  nyquist <- divide sampleRate 2 ;;
  match rolloffLoop threshold 0 0 spectrum with
  | Some i =>
      fraction <- divide (INR i) (INR (length spectrum)) ;;
      Some (fraction * nyquist)
  | None => Some nyquist
  end.

(** The loop of [calculateSpectralFlatness]. *)
Fixpoint flatnessLoop (spectrum : list R) (st : FlatnessState) : option FlatnessState :=
  match spectrum with
  | [] => Some st
  | x :: rest =>
      if Rgt_dec x 0 then
        logarithmOfBin <- logarithm x ;;
        flatnessLoop rest
          (mkFlatnessState (fs_logSum st + logarithmOfBin) (fs_sum st + x)
             (S (fs_count st)))
      else flatnessLoop rest st
  end.

(** [calculateSpectralFlatness] *)
Definition calculateSpectralFlatnessChecked (spectrum : list R) : option R :=
  st <- flatnessLoop spectrum (mkFlatnessState 0 0 0) ;;
  if (fs_count st =? 0)%nat then Some 0
  else
    meanLog <- divide (fs_logSum st) (INR (fs_count st)) ;;
    let geometricMean := exp meanLog in
    arithmeticMean <- divide (fs_sum st) (INR (fs_count st)) ;;
    if Rgt_dec arithmeticMean 0 then divide geometricMean arithmeticMean else Some 0.

(** [findPeakFrequency] *)
Definition findPeakFrequencyChecked (spectrum : list R)
    (sampleRate lowFreq highFreq : R) : option R :=
  nyquist <- divide sampleRate 2 ;;
  lowFraction <- divide lowFreq nyquist ;;
  highFraction <- divide highFreq nyquist ;;
  let lowBin := Zfloor (lowFraction * INR (length spectrum)) in
  let highBin := Zceil (highFraction * INR (length spectrum)) in
  let bound := Z.min highBin (Z.of_nat (length spectrum)) in
  let peakBin := snd (fold_left (peakStep spectrum) (zrange lowBin bound) (0, lowBin)) in
  fraction <- divide (IZR peakBin) (INR (length spectrum)) ;;
  Some (fraction * nyquist).

(** [getBandEnergy] *)
Definition getBandEnergyChecked (spectrum : list R)
    (lowFreq highFreq sampleRate : R) : option R :=
  nyquist <- divide sampleRate 2 ;;
  lowFraction <- divide lowFreq nyquist ;;
  highFraction <- divide highFreq nyquist ;;
  let lowBin := Zfloor (lowFraction * INR (length spectrum)) in
  let highBin := Zceil (highFraction * INR (length spectrum)) in
  let startBin := Z.max 0 lowBin in
  let endBin := Z.min highBin (Z.of_nat (length spectrum)) in
  if (startBin >=? endBin)%Z then Some 0
  else
    let energy := fold_left (fun e x => e + x * x) (slice spectrum startBin endBin) 0 in
    mean <- divide energy (IZR (endBin - startBin + 1)) ;;
    squareRoot mean.

(** [calculateSpectralContrast] *)
Definition calculateSpectralContrastChecked (spectrum : list R) : option R :=
  let sorted := sortDesc (fun x => x) spectrum in
  let topN := (length spectrum / 10)%nat in
  let bottomN := (length spectrum / 10)%nat in
  peakMean <- divide (sum (firstn topN sorted)) (INR topN) ;;
  valleyMean <- divide (sum (sliceLast bottomN sorted)) (INR bottomN) ;;
  if Rgt_dec valleyMean 0 then divide peakMean valleyMean else Some 0.

(** The body of the inner loop of [compareFingerprintsAligned]. *)
Definition similarityChecked (feature : Feature) (v1 v2 : R) : option R :=
  if startsWith_peakFreq feature then
    let maxFreq := max3 v1 v2 1 in
    let freqDiff := Rabs (v1 - v2) in
    exponent <- divide (- freqDiff) (maxFreq * 0.1) ;;
    Some (exp exponent)
  else
    let maxVal := max3 (Rabs v1) (Rabs v2) 0.001 in
    normalizedDiff <- divide (Rabs (v1 - v2)) maxVal ;;
    Some (exp (- normalizedDiff * 2.0)).

(** The [features] object literal of [extractFeatures]. *)
Definition frameFeaturesChecked (window spectrum : list R)
    (prevSpectrum : option (list R)) (sampleRate : R) : option Features :=
  energy <- calculateEnergyChecked window ;;
  zcr <- calculateZeroCrossingRateChecked window ;;
  spectralCentroid <- calculateSpectralCentroidChecked spectrum sampleRate ;;
  spectralFlux <-
    match prevSpectrum with
    | Some prev => calculateSpectralFluxBetweenChecked spectrum prev
    | None => Some 0
    end ;;
  spectralRolloff <- calculateSpectralRolloffChecked spectrum sampleRate ;;
  spectralFlatness <- calculateSpectralFlatnessChecked spectrum ;;
  subBass <- getBandEnergyChecked spectrum 20 60 sampleRate ;;
  bass <- getBandEnergyChecked spectrum 60 250 sampleRate ;;
  lowMid <- getBandEnergyChecked spectrum 250 500 sampleRate ;;
  mid <- getBandEnergyChecked spectrum 500 1000 sampleRate ;;
  highMid <- getBandEnergyChecked spectrum 1000 2000 sampleRate ;;
  upperMid <- getBandEnergyChecked spectrum 2000 4000 sampleRate ;;
  presence <- getBandEnergyChecked spectrum 4000 6000 sampleRate ;;
  brilliance <- getBandEnergyChecked spectrum 6000 12000 sampleRate ;;
  quarterRate <- divide sampleRate 4 ;;
  peakFreq1 <- findPeakFrequencyChecked spectrum sampleRate 0 quarterRate ;;
  quarterRate' <- divide sampleRate 4 ;;
  halfRate <- divide sampleRate 2 ;;
  peakFreq2 <- findPeakFrequencyChecked spectrum sampleRate quarterRate' halfRate ;;
  spectralContrast <- calculateSpectralContrastChecked spectrum ;;
  Some {| f_energy := energy;
          f_zcr := zcr;
          f_spectralCentroid := spectralCentroid;
          f_spectralFlux := spectralFlux;
          f_spectralRolloff := spectralRolloff;
          f_spectralFlatness := spectralFlatness;
          f_subBass := subBass;
          f_bass := bass;
          f_lowMid := lowMid;
          f_mid := mid;
          f_highMid := highMid;
          f_upperMid := upperMid;
          f_presence := presence;
          f_brilliance := brilliance;
          f_peakFreq1 := peakFreq1;
          f_peakFreq2 := peakFreq2;
          f_spectralContrast := spectralContrast |}.

(** The loop of [extractFeatures], as [extractLoop]. *)
Fixpoint extractLoopChecked (fuel : nat) (samples : list R) (sampleRate : R) (i : nat)
    (prevSpectrum : option (list R)) : option Fingerprint :=
  match fuel with
  | O => Some []
  | S fuel' =>
      if (Z.of_nat i <? Z.of_nat (length samples) - Z.of_nat windowSize)%Z then
        let window := applyHannWindow (firstn windowSize (skipn i samples)) in
        let spectrum := computeFullFFT window in
        features <- frameFeaturesChecked window spectrum prevSpectrum sampleRate ;;
        rest <- extractLoopChecked fuel' samples sampleRate (i + hopSize) (Some spectrum) ;;
        Some (features :: rest)
      else Some []
  end.

(** [extractFeatures], every step of every feature computation checked. *)
Definition extractFeaturesChecked (channel : list R) (sampleRate : R)
  : option Fingerprint :=
  let samples := highPassFilter (normalizeAudio channel) 80 sampleRate in
  extractLoopChecked (length samples) samples sampleRate 0 None.

(** ** Store operations *)

(** [database.get(audioId)] *)
Fixpoint mapGet (audioId : string) (database : Database) : option StoredData :=
  match database with
  | [] => None
  | (k, v) :: rest => if String.eqb k audioId then Some v else mapGet audioId rest
  end.

(** [database.has(audioId)] *)
Definition mapHas (audioId : string) (database : Database) : bool :=
  match mapGet audioId database with
  | Some _ => true
  | None => false
  end.

(** [database.set(audioId, value)]: an existing key keeps its place, a new
    key goes last. *)
Fixpoint mapSet (audioId : string) (value : StoredData) (database : Database)
  : Database :=
  match database with
  | [] => [(audioId, value)]
  | (k, v) :: rest =>
      if String.eqb k audioId then (k, value) :: rest
      else (k, v) :: mapSet audioId value rest
  end.

(** The entries left by [database.delete(audioId)]. *)
Fixpoint mapRemove (audioId : string) (database : Database) : Database :=
  match database with
  | [] => []
  | (k, v) :: rest =>
      if String.eqb k audioId then rest else (k, v) :: mapRemove audioId rest
  end.

(** [storeAudio], after [generateFingerprint(audioPath)] has produced
    [fingerprint]; [timestamp] is [new Date().toISOString()]. *)
Definition storeAudio (fingerprint : Fingerprint) (audioId : string)
    (userId : option string) (timestamp : string) (database : Database) : Database :=
  mapSet audioId (Entry fingerprint userId timestamp) database.

(** [deleteAudio]: the value returned and the store left behind. *)
Definition deleteAudio (audioId : string) (database : Database) : bool * Database :=
  (mapHas audioId database, mapRemove audioId database).

(** [a === b] on values that are [undefined] or a string. *)
Definition strictEqual (a b : option string) : bool := negb (strictNotEqual a b).

(** [getAllAudioIds] *)
Definition getAllAudioIds (userId : option string) (database : Database) : list string :=
  if truthy userId
  then map fst (filter (fun kv : string * StoredData =>
                          strictEqual (storedUserId (snd kv)) userId) database)
  else map fst database.

(** An element of the array returned by [getAllFingerprints]; [None] is
    [null]. *)
Record FingerprintInfo : Type := mkFingerprintInfo {
  fi_audioId : string;
  fi_userId : option string;
  fi_timestamp : option string;
  fi_fingerprintLength : nat
}.

(** [x || null] on a value that is [undefined] or a string. *)
Definition orNull (x : option string) : option string :=
  if truthy x then x else None.

Definition storedTimestamp (d : StoredData) : option string :=
  match d with
  | Entry _ _ t => Some t
  | Bare _ => None
  end.

(** [getAllFingerprints] *)
Definition getAllFingerprints (userId : option string) (database : Database)
  : list FingerprintInfo :=
  map (fun kv : string * StoredData =>
         mkFingerprintInfo (fst kv)
           (orNull (storedUserId (snd kv)))
           (orNull (storedTimestamp (snd kv)))
           (length (storedFingerprint (snd kv))))
      (filter (fun kv : string * StoredData => negb (skipped userId (snd kv))) database).

(** ** The handler of [POST /api/audio/match] *)

(** The fields read from [req.body]; [None] is a missing field. *)
Record MatchRequest : Type := mkMatchRequest {
  req_audioFilePath : option string;
  req_userId : option string;
  req_threshold : option R;
  req_matchOwnOnly : bool
}.

(** What the handler answers. *)
Inductive MatchResponse : Type :=
| BadRequest
| FileNotFound
| MatchFound (matchId : string) (confidence : R) (ranked : list ScoreEntry)
| NoMatchFound (confidence : R) (ranked : list ScoreEntry).

(** [threshold || MATCHING_CONFIG.DEFAULT_THRESHOLD]: a missing threshold
    and the threshold 0 both give the default. *)
Definition effectiveThreshold (threshold : option R) : R :=
  match threshold with
  | Some t => if Req_dec_T t 0 then MATCHING_CONFIG.DEFAULT_THRESHOLD else t
  | None => MATCHING_CONFIG.DEFAULT_THRESHOLD
  end.

(** [(matchOwnOnly && userId) ? userId : null] *)
Definition filterUserId (req : MatchRequest) : option string :=
  if req_matchOwnOnly req && truthy (req_userId req) then req_userId req else None.

(** The condition under which the handler calls [sendPushNotification]. *)
Definition notifies (req : MatchRequest) (result : MatchResult) : bool :=
  truthy (r_match result) && truthy (req_userId req)
  && (if Rge_dec (r_confidence result) MATCHING_CONFIG.MIN_NOTIFICATION_CONFIDENCE
      then true else false).

(** The [deviceTokens] map, from user id to push token, in insertion
    order. *)
Definition DeviceTokens : Type := list (string * string).

(** [deviceTokens.get(userId)] *)
Fixpoint tokenGet (userId : string) (deviceTokens : DeviceTokens) : option string :=
  match deviceTokens with
  | [] => None
  | (k, pushToken) :: rest =>
      if String.eqb k userId then Some pushToken else tokenGet userId rest
  end.

(** How a call of [sendPushNotification] ends: without a message, for want
    of a token or of a well-formed one, or with a message for [pushToken]
    handed to [expo.sendPushNotificationsAsync], whose delivery is Expo's. *)
Inductive PushOutcome : Type :=
| NoPushToken
| InvalidPushToken
| Submitted (pushToken : string).

(** [sendPushNotification], up to the call of
    [expo.sendPushNotificationsAsync]; [isExpoPushToken] is
    [Expo.isExpoPushToken] of the Expo SDK. *)
Definition sendPushNotification (isExpoPushToken : string -> bool)
    (deviceTokens : DeviceTokens) (userId : string) : PushOutcome :=
  let pushToken := tokenGet userId deviceTokens in
  if negb (truthy pushToken) then NoPushToken
  else
    match pushToken with
    | Some token =>
        if negb (isExpoPushToken token) then InvalidPushToken else Submitted token
    | None => NoPushToken
    end.

(** The handler, given whether the file exists and the fingerprint
    [generateFingerprint] extracts from it: the response, and how the call
    of [sendPushNotification] ends when the handler makes it ([None] when
    it does not). *)
Definition matchEndpoint (isExpoPushToken : string -> bool)
    (deviceTokens : DeviceTokens) (req : MatchRequest) (fileExists : bool)
    (unknownFingerprint : Fingerprint) (database : Database)
  : MatchResponse * option PushOutcome :=
  if negb (truthy (req_audioFilePath req)) then (BadRequest, None)
  else if negb fileExists then (FileNotFound, None)
  else
    let result :=
      matchAudio unknownFingerprint (effectiveThreshold (req_threshold req))
        (filterUserId req) database in
    let response :=
      match r_match result with
      | Some id =>
          if String.eqb id EmptyString
          then NoMatchFound (r_confidence result) (r_allScores result)
          else MatchFound id (r_confidence result) (r_allScores result)
      | None => NoMatchFound (r_confidence result) (r_allScores result)
      end in
    let push :=
      if notifies req result then
        match req_userId req with
        | Some userId => Some (sendPushNotification isExpoPushToken deviceTokens userId)
        | None => None
        end
      else None in
    (response, push).

(** The ranges the fields of an extracted frame stay in, at sample rate
    [sampleRate]. *)
Definition frameInRange (sampleRate : R) (f : Features) : Prop :=
  0 <= f_energy f <= 2
  /\ 0 <= f_zcr f < 1
  /\ 0 <= f_spectralCentroid f < sampleRate / 2
  /\ 0 <= f_spectralFlux f
  /\ 0 <= f_spectralRolloff f < sampleRate / 2
  /\ 0 <= f_spectralFlatness f
  /\ (f_spectralContrast f = 0 \/ 1 <= f_spectralContrast f)
  /\ (0 <= f_subBass f /\ 0 <= f_bass f /\ 0 <= f_lowMid f /\ 0 <= f_mid f
      /\ 0 <= f_highMid f /\ 0 <= f_upperMid f /\ 0 <= f_presence f
      /\ 0 <= f_brilliance f)
  /\ 0 <= f_peakFreq1 f < sampleRate / 4
  /\ sampleRate / 4 <= f_peakFreq2 f < sampleRate / 2.

(** ** Sums *)

Lemma fold_left_Rplus_acc (xs : list R) (a : R) :
  fold_left Rplus xs a = a + sum xs.
Proof.
  unfold sum. revert a.
  induction xs as [|x xs IH]; intros a; simpl.
  - lra.
  - rewrite (IH (a + x)), (IH (0 + x)). lra.
Qed.

Lemma sum_nil : sum [] = 0.
Proof. reflexivity. Qed.

Lemma sum_cons (x : R) (xs : list R) : sum (x :: xs) = x + sum xs.
Proof. unfold sum at 1. simpl. rewrite fold_left_Rplus_acc. lra. Qed.

Lemma sum_bounds (lo hi : R) (xs : list R) :
  Forall (fun x => lo <= x <= hi) xs ->
  lo * INR (length xs) <= sum xs <= hi * INR (length xs).
Proof.
  induction 1 as [|x xs Hx _ IH].
  - rewrite sum_nil. simpl. lra.
  - rewrite sum_cons. change (length (x :: xs)) with (S (length xs)).
    rewrite S_INR. lra.
Qed.

Lemma sum_constant (c : R) (xs : list R) :
  Forall (fun x => x = c) xs -> sum xs = c * INR (length xs).
Proof.
  intros H. apply Rle_antisym; apply (sum_bounds c c xs);
    eapply Forall_impl; [|exact H| |exact H]; simpl; intros; lra.
Qed.

(** ** Per-feature similarity *)

Lemma max3_comm (a b c : R) : max3 a b c = max3 b a c.
Proof. unfold max3. now rewrite (Rmax_comm a b). Qed.

Lemma max3_lower (a b c : R) : c <= max3 a b c.
Proof. unfold max3. apply Rmax_r. Qed.

Lemma similarity_sym (feature : Feature) (v1 v2 : R) :
  similarity feature v1 v2 = similarity feature v2 v1.
Proof.
  unfold similarity.
  rewrite (Rabs_minus_sym v1 v2), (max3_comm v1 v2), (max3_comm (Rabs v1) (Rabs v2)).
  reflexivity.
Qed.

Lemma similarity_refl (feature : Feature) (v : R) : similarity feature v v = 1.
Proof.
  unfold similarity.
  replace (v - v) with 0 by lra. rewrite Rabs_R0.
  destruct (startsWith_peakFreq feature).
  - replace (- 0 / (max3 v v 1 * 0.1)) with 0 by (unfold Rdiv; lra). apply exp_0.
  - replace (- (0 / max3 (Rabs v) (Rabs v) 0.001) * 2.0) with 0 by (unfold Rdiv; lra).
    apply exp_0.
Qed.

Lemma exp_nonpos_le_1 (x : R) : x <= 0 -> 0 < exp x <= 1.
Proof.
  intros Hx. split; [apply exp_pos|].
  destruct (Req_dec x 0) as [->|Hne].
  - rewrite exp_0. lra.
  - rewrite <- exp_0. left. apply exp_increasing. lra.
Qed.

(** Every exponent of [similarity] is non-positive: both divisors are
    floored at a positive constant. *)
Lemma similarity_bounds (feature : Feature) (v1 v2 : R) :
  0 < similarity feature v1 v2 <= 1.
Proof.
  unfold similarity.
  pose proof (Rabs_pos (v1 - v2)) as Hd.
  destruct (startsWith_peakFreq feature); apply exp_nonpos_le_1.
  - pose proof (max3_lower v1 v2 1) as Hm.
    assert (Hq : 0 <= Rabs (v1 - v2) / (max3 v1 v2 1 * 0.1)).
    { apply Rmult_le_pos; [exact Hd|]. left. apply Rinv_0_lt_compat. lra. }
    unfold Rdiv in *. lra.
  - pose proof (max3_lower (Rabs v1) (Rabs v2) 0.001) as Hm.
    assert (Hq : 0 <= Rabs (v1 - v2) / max3 (Rabs v1) (Rabs v2) 0.001).
    { apply Rmult_le_pos; [exact Hd|]. left. apply Rinv_0_lt_compat. lra. }
    lra.
Qed.

(** ** Per-frame similarity *)

Lemma frameSimilarityOver_acc (table : list (Feature * R)) (f1 f2 : Features) (a : R) :
  fold_left
    (fun acc (entry : Feature * R) =>
       let (feature, weight) := entry in
       acc + similarity feature (getFeature f1 feature) (getFeature f2 feature) * weight)
    table a
  = a + frameSimilarityOver table f1 f2.
Proof.
  unfold frameSimilarityOver. revert a.
  induction table as [|[feature weight] table IH]; intros a; simpl.
  - lra.
  - rewrite (IH (a + _)), (IH (0 + _)). lra.
Qed.

Lemma frameSimilarityOver_cons (feature : Feature) (weight : R)
    (table : list (Feature * R)) (f1 f2 : Features) :
  frameSimilarityOver ((feature, weight) :: table) f1 f2
  = similarity feature (getFeature f1 feature) (getFeature f2 feature) * weight
    + frameSimilarityOver table f1 f2.
Proof.
  unfold frameSimilarityOver at 1. simpl. rewrite frameSimilarityOver_acc. lra.
Qed.

Lemma frameSimilarityOver_sym (table : list (Feature * R)) (f1 f2 : Features) :
  frameSimilarityOver table f1 f2 = frameSimilarityOver table f2 f1.
Proof.
  induction table as [|[feature weight] table IH].
  - reflexivity.
  - rewrite !frameSimilarityOver_cons, IH, similarity_sym. reflexivity.
Qed.

Lemma frameSimilarityOver_refl (table : list (Feature * R)) (f : Features) :
  frameSimilarityOver table f f = sum (map snd table).
Proof.
  induction table as [|[feature weight] table IH].
  - reflexivity.
  - rewrite frameSimilarityOver_cons, IH, similarity_refl. simpl map.
    rewrite sum_cons. lra.
Qed.

Lemma frameSimilarityOver_bounds (table : list (Feature * R)) (f1 f2 : Features) :
  Forall (fun entry => 0 <= snd entry) table ->
  0 <= frameSimilarityOver table f1 f2 <= sum (map snd table).
Proof.
  induction 1 as [|[feature weight] table Hw _ IH].
  - unfold frameSimilarityOver. simpl. rewrite sum_nil. lra.
  - rewrite frameSimilarityOver_cons. simpl map. rewrite sum_cons.
    simpl in Hw.
    pose proof (similarity_bounds feature (getFeature f1 feature) (getFeature f2 feature)).
    nra.
Qed.

Lemma weights_sum : sum (map snd weights) = 1.
Proof. unfold weights, sum. simpl. lra. Qed.

Lemma weights_nonneg : Forall (fun entry => 0 <= snd entry) weights.
Proof. unfold weights. repeat constructor; simpl; lra. Qed.

Lemma frameSimilarity_sym (f1 f2 : Features) :
  frameSimilarity f1 f2 = frameSimilarity f2 f1.
Proof. apply frameSimilarityOver_sym. Qed.

Lemma frameSimilarity_refl (f : Features) : frameSimilarity f f = 1.
Proof. unfold frameSimilarity. rewrite frameSimilarityOver_refl. apply weights_sum. Qed.

Lemma frameSimilarity_bounds (f1 f2 : Features) : 0 <= frameSimilarity f1 f2 <= 1.
Proof.
  rewrite <- weights_sum. apply frameSimilarityOver_bounds, weights_nonneg.
Qed.

(** ** The aligned loop *)

Lemma frameSimilarities_length (fp1 fp2 : Fingerprint) :
  length (frameSimilarities fp1 fp2) = Nat.min (length fp1) (length fp2).
Proof.
  revert fp2. induction fp1 as [|f1 fp1 IH]; intros [|f2 fp2]; simpl; auto.
Qed.

Lemma frameSimilarities_sym (fp1 fp2 : Fingerprint) :
  frameSimilarities fp1 fp2 = frameSimilarities fp2 fp1.
Proof.
  revert fp2. induction fp1 as [|f1 fp1 IH]; intros [|f2 fp2]; simpl; auto.
  now rewrite IH, frameSimilarity_sym.
Qed.

Lemma frameSimilarities_bounds (fp1 fp2 : Fingerprint) :
  Forall (fun s => 0 <= s <= 1) (frameSimilarities fp1 fp2).
Proof.
  revert fp2. induction fp1 as [|f1 fp1 IH]; intros [|f2 fp2]; simpl; auto.
  constructor; [apply frameSimilarity_bounds | apply IH].
Qed.

Lemma frameSimilarities_self (fp : Fingerprint) :
  Forall (fun s => s = 1) (frameSimilarities fp fp).
Proof.
  induction fp as [|f fp IH]; simpl; constructor; auto using frameSimilarity_refl.
Qed.

Lemma filter_all_good (sims : list R) :
  Forall (fun s => s = 1) sims -> filter isGoodFrame sims = sims.
Proof.
  induction 1 as [|s sims Hs _ IH]; simpl; [reflexivity|].
  subst s. unfold isGoodFrame at 1.
  destruct (Rgt_dec 1 0.7) as [_|Hn]; [now rewrite IH | exfalso; lra].
Qed.

(** What [compareFingerprintsAligned] returns, in terms of the mean and of
    the good-frame fraction. *)
Lemma compareFingerprintsAligned_unfold (fp1 fp2 : Fingerprint) :
  compareFingerprintsAligned fp1 fp2
  = if Rlt_dec (goodFrameFraction fp1 fp2) 0.6
    then meanFrameSimilarity fp1 fp2 * 0.5
    else meanFrameSimilarity fp1 fp2.
Proof.
  unfold compareFingerprintsAligned, goodFrameFraction, meanFrameSimilarity.
  cbn [MATCHING_CONFIG.REQUIRE_TEMPORAL_CONSISTENCY].
  unfold MATCHING_CONFIG.MIN_CONSISTENT_FRAMES.
  now rewrite frameSimilarities_length.
Qed.

Lemma meanFrameSimilarity_bounds (fp1 fp2 : Fingerprint) :
  (0 < Nat.min (length fp1) (length fp2))%nat ->
  0 <= meanFrameSimilarity fp1 fp2 <= 1.
Proof.
  intros Hlen. unfold meanFrameSimilarity.
  pose proof (sum_bounds 0 1 _ (frameSimilarities_bounds fp1 fp2)) as Hs.
  rewrite frameSimilarities_length in *.
  assert (Hn : 0 < INR (Nat.min (length fp1) (length fp2))) by now apply lt_0_INR.
  split.
  - apply Rmult_le_pos; [lra|]. left. now apply Rinv_0_lt_compat.
  - apply (Rmult_le_reg_r (INR (Nat.min (length fp1) (length fp2)))); [exact Hn|].
    unfold Rdiv. rewrite Rmult_assoc, Rinv_l; lra.
Qed.

Lemma meanFrameSimilarity_self (fp : Fingerprint) :
  (0 < length fp)%nat -> meanFrameSimilarity fp fp = 1.
Proof.
  intros Hlen. unfold meanFrameSimilarity.
  rewrite (sum_constant 1 _ (frameSimilarities_self fp)).
  rewrite frameSimilarities_length, Nat.min_id.
  assert (Hn : 0 < INR (length fp)) by now apply lt_0_INR.
  field. lra.
Qed.

Lemma goodFrameFraction_self (fp : Fingerprint) :
  (0 < length fp)%nat -> goodFrameFraction fp fp = 1.
Proof.
  intros Hlen. unfold goodFrameFraction.
  rewrite (filter_all_good _ (frameSimilarities_self fp)).
  rewrite frameSimilarities_length, Nat.min_id.
  assert (Hn : 0 < INR (length fp)) by now apply lt_0_INR.
  field. lra.
Qed.

Lemma compareFingerprintsAligned_self (fp : Fingerprint) :
  (0 < length fp)%nat -> compareFingerprintsAligned fp fp = 1.
Proof.
  intros Hlen. rewrite compareFingerprintsAligned_unfold.
  rewrite goodFrameFraction_self, meanFrameSimilarity_self by assumption.
  destruct (Rlt_dec 1 0.6); lra.
Qed.

Lemma compareFingerprintsAligned_bounds (fp1 fp2 : Fingerprint) :
  (0 < Nat.min (length fp1) (length fp2))%nat ->
  0 <= compareFingerprintsAligned fp1 fp2 <= 1.
Proof.
  intros Hlen. rewrite compareFingerprintsAligned_unfold.
  pose proof (meanFrameSimilarity_bounds fp1 fp2 Hlen).
  destruct (Rlt_dec _ _); lra.
Qed.

Lemma compareFingerprintsAligned_sym (fp1 fp2 : Fingerprint) :
  compareFingerprintsAligned fp1 fp2 = compareFingerprintsAligned fp2 fp1.
Proof.
  rewrite !compareFingerprintsAligned_unfold.
  unfold goodFrameFraction, meanFrameSimilarity.
  now rewrite (frameSimilarities_sym fp1 fp2).
Qed.

(** *** A pair with exactly half of its frames above 0.7 *)

Lemma exp_minus_2_bound : exp (- 2) <= 1 / 3.
Proof.
  replace (-2) with (- (2)) by lra.
  rewrite exp_Ropp. pose proof (exp_ineq1_le 2) as H.
  unfold Rdiv. rewrite Rmult_1_l. apply Rinv_le_contravar; lra.
Qed.

Lemma similarity_0_1 (feature : Feature) :
  similarity feature 0 1 <= if startsWith_peakFreq feature then 1 else 1 / 3.
Proof.
  destruct (startsWith_peakFreq feature) eqn:E.
  - apply similarity_bounds.
  - unfold similarity. rewrite E.
    replace (0 - 1) with (- (1)) by lra. rewrite Rabs_Ropp, Rabs_R1, Rabs_R0.
    assert (Hm : max3 0 1 0.001 = 1).
    { unfold max3. rewrite (Rmax_right 0 1), (Rmax_left 1 0.001); lra. }
    rewrite Hm. replace (- (1 / 1) * 2.0) with (- 2) by lra.
    apply exp_minus_2_bound.
Qed.

Lemma getFeature_silentFrame (feature : Feature) : getFeature silentFrame feature = 0.
Proof. destruct feature; reflexivity. Qed.

Lemma getFeature_loudFrame (feature : Feature) : getFeature loudFrame feature = 1.
Proof. destruct feature; reflexivity. Qed.

Lemma frameSimilarity_silent_loud : frameSimilarity silentFrame loudFrame <= 0.5.
Proof.
  unfold frameSimilarity, weights. rewrite !frameSimilarityOver_cons.
  unfold frameSimilarityOver. cbn [fold_left].
  rewrite !getFeature_silentFrame, !getFeature_loudFrame.
  pose proof (fun feature => similarity_0_1 feature) as H.
  pose proof (H energy). pose proof (H zcr). pose proof (H spectralCentroid).
  pose proof (H spectralFlux). pose proof (H spectralRolloff).
  pose proof (H spectralFlatness). pose proof (H spectralContrast).
  pose proof (H subBass). pose proof (H bass). pose proof (H lowMid).
  pose proof (H mid). pose proof (H highMid). pose proof (H upperMid).
  pose proof (H presence). pose proof (H brilliance).
  pose proof (H peakFreq1). pose proof (H peakFreq2).
  cbn [startsWith_peakFreq] in *. lra.
Qed.

Lemma isGoodFrame_1 : isGoodFrame 1 = true.
Proof. unfold isGoodFrame. destruct (Rgt_dec 1 0.7); [reflexivity | lra]. Qed.

Lemma isGoodFrame_low (s : R) : s <= 0.7 -> isGoodFrame s = false.
Proof. intros H. unfold isGoodFrame. destruct (Rgt_dec s 0.7); [lra | reflexivity]. Qed.

Lemma goodFrameFraction_halfLoud : goodFrameFraction silentClip halfLoudClip = 0.5.
Proof.
  unfold goodFrameFraction, silentClip, halfLoudClip.
  cbn [repeat app frameSimilarities].
  rewrite !frameSimilarity_refl.
  pose proof frameSimilarity_silent_loud as Hlow.
  cbn [filter]. rewrite !isGoodFrame_1, !(isGoodFrame_low _) by lra.
  cbn [length]. simpl INR. lra.
Qed.

(** ** [compareFingerprints] *)

Lemma compareFingerprints_short (fp1 fp2 : Fingerprint) :
  (Nat.min (length fp1) (length fp2) < 10)%nat -> compareFingerprints fp1 fp2 = 0.
Proof.
  intros H. unfold compareFingerprints.
  apply Nat.ltb_lt in H. now rewrite H.
Qed.

Lemma compareFingerprints_long (fp1 fp2 : Fingerprint) :
  (10 <= Nat.min (length fp1) (length fp2))%nat ->
  compareFingerprints fp1 fp2
  = compareFingerprintsAligned fp1 fp2
    * (if Rlt_dec (lengthRatio fp1 fp2) 0.7 then 0.85 else 1.0).
Proof.
  intros H. unfold compareFingerprints, lengthRatio.
  apply Nat.ltb_ge in H. now rewrite H.
Qed.

Lemma lengthRatio_self (fp : Fingerprint) :
  (0 < length fp)%nat -> lengthRatio fp fp = 1.
Proof.
  intros Hlen. unfold lengthRatio. rewrite Nat.min_id, Nat.max_id.
  assert (Hn : 0 < INR (length fp)) by now apply lt_0_INR.
  field. lra.
Qed.

Lemma compareFingerprints_self (fp : Fingerprint) :
  (10 <= length fp)%nat -> compareFingerprints fp fp = 1.
Proof.
  intros Hlen.
  rewrite compareFingerprints_long by (rewrite Nat.min_id; exact Hlen).
  rewrite compareFingerprintsAligned_self, lengthRatio_self by lia.
  destruct (Rlt_dec 1 0.7); lra.
Qed.

Lemma compareFingerprints_bounds (fp1 fp2 : Fingerprint) :
  0 <= compareFingerprints fp1 fp2 <= 1.
Proof.
  destruct (Nat.lt_ge_cases (Nat.min (length fp1) (length fp2)) 10) as [Hs|Hl].
  - rewrite compareFingerprints_short by exact Hs. lra.
  - rewrite compareFingerprints_long by exact Hl.
    assert (Hpos : (0 < Nat.min (length fp1) (length fp2))%nat) by lia.
    pose proof (compareFingerprintsAligned_bounds fp1 fp2 Hpos).
    destruct (Rlt_dec _ _); nra.
Qed.

Lemma compareFingerprints_sym (fp1 fp2 : Fingerprint) :
  compareFingerprints fp1 fp2 = compareFingerprints fp2 fp1.
Proof.
  unfold compareFingerprints.
  rewrite (Nat.min_comm (length fp2)), (Nat.max_comm (length fp2)).
  now rewrite (compareFingerprintsAligned_sym fp2 fp1).
Qed.

(** ** The stable descending sort *)

Section SortDesc.
Context {A : Type} (key : A -> R).

Lemma insertDesc_perm (x : A) (xs : list A) :
  Permutation (insertDesc key x xs) (x :: xs).
Proof.
  induction xs as [|y xs IH]; simpl.
  - apply Permutation_refl.
  - destruct (Rle_dec (key y) (key x)).
    + apply Permutation_refl.
    + eapply perm_trans; [apply perm_skip, IH | apply perm_swap].
Qed.

Lemma sortDesc_perm (xs : list A) : Permutation (sortDesc key xs) xs.
Proof.
  induction xs as [|x xs IH]; simpl.
  - apply perm_nil.
  - eapply perm_trans; [apply insertDesc_perm | apply perm_skip, IH].
Qed.

Lemma insertDesc_sorted (x : A) (xs : list A) :
  Sorted (fun a b => key b <= key a) xs ->
  Sorted (fun a b => key b <= key a) (insertDesc key x xs).
Proof.
  induction 1 as [|y xs Hs IH Hhd]; simpl.
  - repeat constructor.
  - destruct (Rle_dec (key y) (key x)) as [Hle|Hgt].
    + constructor; [constructor; assumption|]. constructor. exact Hle.
    + constructor; [exact IH|].
      destruct xs as [|z xs]; simpl.
      * constructor. lra.
      * inversion Hhd; subst.
        destruct (Rle_dec (key z) (key x)); constructor; lra.
Qed.

Lemma sortDesc_sorted (xs : list A) :
  Sorted (fun a b => key b <= key a) (sortDesc key xs).
Proof.
  induction xs as [|x xs IH]; simpl.
  - constructor.
  - apply insertDesc_sorted, IH.
Qed.
End SortDesc.

(** ** The loop of [matchAudio] *)

Section MatchLoop.
Variable unknownFingerprint : Fingerprint.
Variable userId : option string.

Lemma candidates_cons (kv : string * StoredData) (database : Database) :
  candidates unknownFingerprint userId (kv :: database)
  = if skipped userId (snd kv) then candidates unknownFingerprint userId database
    else mkScoreEntry (fst kv)
           (compareFingerprints unknownFingerprint (storedFingerprint (snd kv)))
           (userIdOrUnknown (snd kv)) :: candidates unknownFingerprint userId database.
Proof.
  unfold candidates. simpl.
  now destruct (skipped userId (snd kv)).
Qed.

Lemma matchLoop_allScores_from (database : Database) (st : MatchState) :
  allScores (fold_left (matchStep unknownFingerprint userId) database st)
  = allScores st ++ candidates unknownFingerprint userId database.
Proof.
  revert st. induction database as [|[audioId storedData] database IH]; intros st.
  - simpl. unfold candidates. simpl. now rewrite app_nil_r.
  - simpl fold_left. rewrite IH, candidates_cons. unfold matchStep. simpl.
    destruct (skipped userId storedData); [reflexivity|].
    destruct (Rgt_dec _ _); simpl; now rewrite <- app_assoc.
Qed.

(** The running best score never decreases, is at least every candidate
    seen, and is either the initial one or the score of the candidate
    recorded as best match. *)
Lemma matchLoop_best_from (database : Database) (st : MatchState) :
  let st' := fold_left (matchStep unknownFingerprint userId) database st in
  bestScore st <= bestScore st'
  /\ Forall (fun e => se_score e <= bestScore st') (candidates unknownFingerprint userId database)
  /\ ((bestScore st' = bestScore st /\ bestMatch st' = bestMatch st)
      \/ exists e, In e (candidates unknownFingerprint userId database)
                   /\ se_score e = bestScore st'
                   /\ bestMatch st' = Some (se_audioId e)).
Proof.
  revert st. induction database as [|[audioId storedData] database IH]; intros st.
  - simpl. split; [lra|]. split; [constructor|]. left. split; reflexivity.
  - cbv zeta. cbn [fold_left]. rewrite candidates_cons. cbn [fst snd].
    set (score := compareFingerprints unknownFingerprint (storedFingerprint storedData)).
    set (entry := mkScoreEntry audioId score (userIdOrUnknown storedData)).
    set (st1 := matchStep unknownFingerprint userId st (audioId, storedData)).
    assert (Hst1 : if skipped userId storedData then st1 = st
                   else score <= bestScore st1
                        /\ bestScore st <= bestScore st1
                        /\ ((bestScore st1 = bestScore st /\ bestMatch st1 = bestMatch st)
                            \/ (bestScore st1 = score /\ bestMatch st1 = Some audioId))).
    { unfold st1, matchStep. fold score.
      destruct (skipped userId storedData); [reflexivity|].
      destruct (Rgt_dec score (bestScore st)); simpl.
      - split; [lra|]. split; [lra|]. right. split; reflexivity.
      - split; [lra|]. split; [lra|]. left. split; reflexivity. }
    destruct (IH st1) as (Hmono & Hall & Hbest).
    destruct (skipped userId storedData).
    + rewrite Hst1 in *. repeat split; assumption.
    + destruct Hst1 as (Hscore & Hup & Hcase).
      split; [lra|]. split.
      * constructor; [simpl; lra | exact Hall].
      * destruct Hbest as [[Hs Hm]|(e & Hin & Hs & Hm)].
        -- destruct Hcase as [[Hs1 Hm1]|[Hs1 Hm1]].
           ++ left. split; congruence.
           ++ right. exists entry. split; [now left|]. simpl. split; congruence.
        -- right. exists e. split; [now right|]. split; assumption.
Qed.

Lemma matchLoop_best (database : Database) :
  let st := matchLoop unknownFingerprint userId database in
  0 <= bestScore st
  /\ Forall (fun e => se_score e <= bestScore st) (candidates unknownFingerprint userId database)
  /\ ((bestScore st = 0 /\ bestMatch st = None)
      \/ exists e, In e (candidates unknownFingerprint userId database)
                   /\ se_score e = bestScore st
                   /\ bestMatch st = Some (se_audioId e)).
Proof. exact (matchLoop_best_from database (mkMatchState None 0 [])). Qed.

Lemma matchLoop_allScores (database : Database) :
  allScores (matchLoop unknownFingerprint userId database)
  = candidates unknownFingerprint userId database.
Proof. unfold matchLoop. apply (matchLoop_allScores_from database). Qed.

Lemma matchLoop_empty (database : Database) :
  candidates unknownFingerprint userId database = [] ->
  bestScore (matchLoop unknownFingerprint userId database) = 0
  /\ bestMatch (matchLoop unknownFingerprint userId database) = None.
Proof.
  intros Hnil.
  destruct (matchLoop_best database) as (_ & _ & [[Hs Hm]|(e & Hin & _)]).
  - split; assumption.
  - rewrite Hnil in Hin. destruct Hin.
Qed.

Lemma candidates_score_bounds (database : Database) :
  Forall (fun e => 0 <= se_score e <= 1) (candidates unknownFingerprint userId database).
Proof.
  unfold candidates. apply Forall_forall. intros e Hin.
  apply in_map_iff in Hin. destruct Hin as (kv & <- & _). simpl.
  apply compareFingerprints_bounds.
Qed.

Lemma matchLoop_bestScore_bounds (database : Database) :
  0 <= bestScore (matchLoop unknownFingerprint userId database) <= 1.
Proof.
  destruct (matchLoop_best database) as (Hmono & _ & [[Hs _]|(e & Hin & Hs & _)]).
  - lra.
  - pose proof (candidates_score_bounds database) as Hb.
    rewrite Forall_forall in Hb. specialize (Hb e Hin). lra.
Qed.

(** The confidence is the largest candidate score. *)
Lemma matchLoop_bestScore_top (database : Database) (top : ScoreEntry) :
  In top (candidates unknownFingerprint userId database) ->
  (forall e, In e (candidates unknownFingerprint userId database) -> se_score e <= se_score top) ->
  bestScore (matchLoop unknownFingerprint userId database) = se_score top.
Proof.
  intros Hin Htop.
  destruct (matchLoop_best database) as (_ & Hall & Hbest).
  rewrite Forall_forall in Hall. pose proof (Hall top Hin) as Hge.
  apply Rle_antisym; [|exact Hge].
  destruct Hbest as [[Hs _]|(e & Hine & Hs & _)].
  - rewrite Hs.
    pose proof (candidates_score_bounds database) as Hb.
    rewrite Forall_forall in Hb. specialize (Hb top Hin). lra.
  - rewrite <- Hs. now apply Htop.
Qed.
End MatchLoop.

(** ** Signal conditioning *)

Lemma peak_le (c : R) (samples : list R) :
  0 <= c -> (peak samples <= c <-> Forall (fun x => Rabs x <= c) samples).
Proof.
  intros Hc. induction samples as [|x samples IH]; simpl.
  - split; [constructor | intros _; exact Hc].
  - split.
    + intros H. constructor.
      * eapply Rle_trans; [apply Rmax_l | exact H].
      * apply IH. eapply Rle_trans; [apply Rmax_r | exact H].
    + intros H. inversion H; subst. apply Rmax_lub; [assumption | now apply IH].
Qed.

Lemma peak_nonneg (samples : list R) : 0 <= peak samples.
Proof.
  destruct samples as [|x samples]; simpl; [lra|].
  eapply Rle_trans; [apply Rabs_pos | apply Rmax_l].
Qed.

Lemma peak_ge (x : R) (samples : list R) : In x samples -> Rabs x <= peak samples.
Proof.
  intros Hin.
  assert (H : Forall (fun y => Rabs y <= peak samples) samples)
    by (apply peak_le; [apply peak_nonneg | lra]).
  rewrite Forall_forall in H. now apply H.
Qed.

(** The running maximum of the first loop of [normalizeAudio], from any
    starting value. *)
Lemma maxAmplitude_from (samples : list R) (m0 : R) :
  let m := fold_left (fun m x => if Rgt_dec (Rabs x) m then Rabs x else m) samples m0 in
  m0 <= m
  /\ Forall (fun x => Rabs x <= m) samples
  /\ (m = m0 \/ exists x, In x samples /\ Rabs x = m).
Proof.
  revert m0. induction samples as [|x samples IH]; intros m0; cbv zeta; cbn [fold_left].
  - split; [lra|]. split; [constructor | now left].
  - destruct (Rgt_dec (Rabs x) m0) as [Hgt|Hle].
    + destruct (IH (Rabs x)) as (Hmono & Hall & Hor).
      split; [lra|]. split; [constructor; assumption|].
      right. destruct Hor as [Heq|(y & Hin & Hy)].
      * exists x. split; [now left | now rewrite Heq].
      * exists y. split; [now right | exact Hy].
    + destruct (IH m0) as (Hmono & Hall & Hor).
      split; [exact Hmono|]. split; [constructor; [lra | exact Hall]|].
      destruct Hor as [Heq|(y & Hin & Hy)]; [now left|].
      right. exists y. split; [now right | exact Hy].
Qed.

Lemma maxAmplitude_spec (samples : list R) :
  0 <= maxAmplitude samples
  /\ Forall (fun x => Rabs x <= maxAmplitude samples) samples
  /\ (maxAmplitude samples = 0
      \/ exists x, In x samples /\ Rabs x = maxAmplitude samples).
Proof. exact (maxAmplitude_from samples 0). Qed.

Lemma maxAmplitude_zero (samples : list R) :
  Forall (fun x => x = 0) samples -> maxAmplitude samples = 0.
Proof.
  intros Hz. destruct (maxAmplitude_spec samples) as (_ & _ & [H|(x & Hin & Hx)]).
  - exact H.
  - rewrite Forall_forall in Hz. rewrite <- Hx, (Hz x Hin). apply Rabs_R0.
Qed.

Lemma normalizeAudio_zero (samples : list R) :
  Forall (fun x => x = 0) samples -> normalizeAudio samples = samples.
Proof.
  intros Hz. unfold normalizeAudio. rewrite (maxAmplitude_zero samples Hz).
  destruct (Req_dec_T 0 0) as [_|Hne]; [reflexivity | now destruct Hne].
Qed.

Lemma Rabs_div_le_1 (x m : R) : 0 < m -> Rabs x <= m -> Rabs (x / m) <= 1.
Proof.
  intros Hm Hx. unfold Rdiv. rewrite Rabs_mult, (Rabs_inv m), (Rabs_pos_eq m) by lra.
  apply (Rmult_le_reg_r m); [exact Hm|].
  rewrite Rmult_assoc, Rinv_l; lra.
Qed.

Lemma normalizeAudio_bounded (samples : list R) :
  Forall (fun x => Rabs x <= 1) (normalizeAudio samples).
Proof.
  unfold normalizeAudio.
  destruct (maxAmplitude_spec samples) as (Hpos & Hall & _).
  destruct (Req_dec_T (maxAmplitude samples) 0) as [Hz|Hnz].
  - rewrite Hz in Hall. eapply Forall_impl; [|exact Hall]. simpl. intros; lra.
  - apply Forall_map. eapply Forall_impl; [|exact Hall]. simpl.
    intros x Hx. apply Rabs_div_le_1; lra.
Qed.

(** A buffer that is not silent is scaled to peak amplitude exactly 1. *)
Lemma normalizeAudio_peak (samples : list R) :
  maxAmplitude samples <> 0 -> peak (normalizeAudio samples) = 1.
Proof.
  intros Hnz. apply Rle_antisym.
  - apply peak_le; [lra | apply normalizeAudio_bounded].
  - unfold normalizeAudio.
    destruct (maxAmplitude_spec samples) as (Hpos & _ & [Hz|(x & Hin & Hx)]);
      [contradiction|].
    destruct (Req_dec_T (maxAmplitude samples) 0) as [Hz|_]; [contradiction|].
    replace 1 with (Rabs (x / maxAmplitude samples)).
    + apply peak_ge. apply in_map_iff. now exists x.
    + unfold Rdiv. rewrite Rabs_mult, Rabs_inv, Hx, (Rabs_pos_eq (maxAmplitude samples)) by lra.
      now apply Rinv_r.
Qed.

Lemma highPassAlpha_range (cutoffFreq sampleRate : R) :
  0 < cutoffFreq -> 0 < sampleRate -> 0 < highPassAlpha cutoffFreq sampleRate < 1.
Proof.
  intros Hc Hs. unfold highPassAlpha.
  pose proof PI_RGT_0 as Hpi.
  assert (HRC : 0 < 1.0 / (cutoffFreq * 2 * PI)).
  { apply Rdiv_lt_0_compat; [lra|]. apply Rmult_lt_0_compat; lra. }
  assert (Hdt : 0 < 1.0 / sampleRate) by (apply Rdiv_lt_0_compat; lra).
  set (RC := 1.0 / (cutoffFreq * 2 * PI)) in *. set (dt := 1.0 / sampleRate) in *.
  split.
  - apply Rdiv_lt_0_compat; lra.
  - apply (Rmult_lt_reg_r (RC + dt)); [lra|].
    unfold Rdiv. rewrite Rmult_assoc, Rinv_l; lra.
Qed.

Lemma highPassLoop_zero (alpha : R) (rest : list R) :
  Forall (fun x => x = 0) rest -> highPassLoop alpha 0 0 rest = rest.
Proof.
  induction 1 as [|x rest Hx _ IH]; simpl; [reflexivity|].
  subst x. replace (alpha * (0 + 0 - 0)) with 0 by lra. now rewrite IH.
Qed.

Lemma highPassFilter_zero (samples : list R) (cutoffFreq sampleRate : R) :
  Forall (fun x => x = 0) samples -> highPassFilter samples cutoffFreq sampleRate = samples.
Proof.
  intros Hz. destruct samples as [|x0 rest]; simpl; [reflexivity|].
  inversion Hz; subst. now rewrite highPassLoop_zero.
Qed.

Lemma Rabs_le_between (x c : R) : Rabs x <= c -> - c <= x <= c.
Proof. unfold Rabs. destruct (Rcase_abs x); lra. Qed.

(** The filter output is the input minus a running average [z] of the
    input ([z' = (1 - alpha) x' + alpha z]); the average stays within the
    input's bound, so the output stays within twice that bound. *)
Lemma highPassLoop_bounded (alpha : R) (rest : list R) (prevFiltered prevSample : R) :
  0 <= alpha <= 1 ->
  Rabs (prevSample - prevFiltered) <= 1 ->
  Forall (fun x => Rabs x <= 1) rest ->
  Forall (fun y => Rabs y <= 2) (highPassLoop alpha prevFiltered prevSample rest).
Proof.
  intros Ha. revert prevFiltered prevSample.
  induction rest as [|x rest IH]; intros y0 x0 Hz Hall; simpl; [constructor|].
  inversion Hall as [|? ? Hx Hrest]; subst.
  apply Rabs_le_between in Hz. apply Rabs_le_between in Hx.
  set (y := alpha * (y0 + x - x0)).
  assert (Hz' : -1 <= x - y <= 1).
  { replace (x - y) with ((1 - alpha) * x + alpha * (x0 - y0)) by (unfold y; ring).
    split; nra. }
  constructor.
  - apply Rabs_le. lra.
  - apply IH; [apply Rabs_le; lra | exact Hrest].
Qed.

Lemma highPassFilter_bounded (samples : list R) (cutoffFreq sampleRate : R) :
  0 < cutoffFreq -> 0 < sampleRate ->
  Forall (fun x => Rabs x <= 1) samples ->
  Forall (fun y => Rabs y <= 2) (highPassFilter samples cutoffFreq sampleRate).
Proof.
  intros Hc Hs Hall. destruct samples as [|x0 rest]; simpl; [constructor|].
  inversion Hall as [|? ? Hx Hrest]; subst.
  constructor; [lra|].
  apply highPassLoop_bounded.
  - pose proof (highPassAlpha_range cutoffFreq sampleRate Hc Hs). lra.
  - replace (x0 - x0) with 0 by lra. rewrite Rabs_R0. lra.
  - exact Hrest.
Qed.

Lemma highPassAlpha_44100 : 0.9856 <= highPassAlpha 80 44100 <= 0.98924.
Proof.
  pose proof PI2_3_2 as Hlo. pose proof PI_4 as Hhi.
  assert (Ha : highPassAlpha 80 44100 = 44100 / (44100 + 160 * PI)).
  { unfold highPassAlpha. field. split; lra. }
  rewrite Ha.
  assert (Hd : 0 < 44100 + 160 * PI) by lra.
  split.
  - apply (Rmult_le_reg_r (44100 + 160 * PI)); [exact Hd|].
    unfold Rdiv. rewrite Rmult_assoc, Rinv_l; lra.
  - apply (Rmult_le_reg_r (44100 + 160 * PI)); [exact Hd|].
    unfold Rdiv. rewrite Rmult_assoc, Rinv_l; lra.
Qed.

Lemma maxAmplitude_step_up : maxAmplitude [1; 1; 1; -1] = 1.
Proof.
  destruct (maxAmplitude_spec [1; 1; 1; -1]) as (_ & Hall & Hor).
  inversion Hall as [|? ? H1 _]; subst. rewrite Rabs_R1 in H1.
  destruct Hor as [Hz|(x & Hin & Hx)]; [lra|].
  rewrite <- Hx. simpl in Hin.
  destruct Hin as [<-|[<-|[<-|[<-|[]]]]];
    unfold Rabs; destruct (Rcase_abs _); lra.
Qed.

Lemma condition_step_up :
  condition [1; 1; 1; -1] 44100
  = let alpha := highPassAlpha 80 44100 in
    [1; alpha; alpha * alpha; alpha * (alpha * alpha - 2)].
Proof.
  unfold condition, normalizeAudio. rewrite maxAmplitude_step_up.
  destruct (Req_dec_T 1 0) as [H|_]; [lra|].
  cbv zeta. simpl.
  replace (1 / 1) with 1 by field. replace (-1 / 1) with (-1) by field.
  f_equal. f_equal; [ring|]. f_equal; [ring|]. f_equal. ring.
Qed.

(** Four samples at peak amplitude, the last one of opposite sign, leave
    the conditioner with an amplitude above 1. *)
Lemma condition_overshoot : 1.01 < peak (condition [1; 1; 1; -1] 44100).
Proof.
  rewrite condition_step_up. cbv zeta.
  pose proof highPassAlpha_44100 as Ha.
  set (alpha := highPassAlpha 80 44100) in *.
  eapply Rlt_le_trans; [|apply (peak_ge (alpha * (alpha * alpha - 2))); simpl; tauto].
  rewrite Rabs_left by nra.
  nra.
Qed.


(** ** Band energy *)

Lemma fold_left_squares_acc (xs : list R) (a : R) :
  fold_left (fun e x => e + x * x) xs a = a + sum (map (fun x => x * x) xs).
Proof.
  revert a. induction xs as [|x xs IH]; intros a; simpl.
  - rewrite sum_nil. lra.
  - rewrite IH, sum_cons. lra.
Qed.

Lemma binSpan_range (spectrum : list R) (lowFreq highFreq sampleRate : R) :
  (0 <= fst (binSpan spectrum lowFreq highFreq sampleRate)
   /\ snd (binSpan spectrum lowFreq highFreq sampleRate) <= Z.of_nat (length spectrum))%Z.
Proof. unfold binSpan. simpl. lia. Qed.

Lemma slice_length (xs : list R) (startBin endBin : Z) :
  (0 <= startBin <= endBin)%Z -> (endBin <= Z.of_nat (length xs))%Z ->
  length (slice xs startBin endBin) = Z.to_nat (endBin - startBin).
Proof.
  intros Hs He. unfold slice. rewrite length_firstn, length_skipn. lia.
Qed.

(** What [getBandEnergy] computes: over a non-empty span of [n] bins, the
    root of the sum of squares divided by [n + 1]. *)
Lemma getBandEnergy_spec (spectrum : list R) (lowFreq highFreq sampleRate : R) :
  let startBin := fst (binSpan spectrum lowFreq highFreq sampleRate) in
  let endBin := snd (binSpan spectrum lowFreq highFreq sampleRate) in
  let bins := slice spectrum startBin endBin in
  ((startBin >= endBin)%Z -> getBandEnergy spectrum lowFreq highFreq sampleRate = 0)
  /\ ((startBin < endBin)%Z ->
      getBandEnergy spectrum lowFreq highFreq sampleRate
      = sqrt (sum (map (fun x => x * x) bins) / (INR (length bins) + 1))).
Proof.
  cbv zeta. unfold getBandEnergy.
  pose proof (binSpan_range spectrum lowFreq highFreq sampleRate) as [Hs He].
  destruct (binSpan spectrum lowFreq highFreq sampleRate) as [startBin endBin].
  simpl in *. split; intros H.
  - assert (E : (startBin >=? endBin)%Z = true) by (apply Z.geb_le; lia).
    now rewrite E.
  - destruct (startBin >=? endBin)%Z eqn:E; [apply Z.geb_le in E; lia|].
    rewrite fold_left_squares_acc, slice_length by lia.
    rewrite INR_IZR_INZ, Z2Nat.id, <- plus_IZR by lia.
    f_equal. f_equal. lra.
Qed.

Lemma binSpan_subBass : binSpan (repeat 1 512) 20 60 44100 = (0, 2)%Z.
Proof.
  unfold binSpan. rewrite repeat_length.
  replace (INR 512) with 512 by (rewrite INR_IZR_INZ; reflexivity).
  rewrite (Zfloor_eq 0) by lra.
  rewrite (Zceil_eq 2) by lra.
  reflexivity.
Qed.

Lemma getBandEnergy_subBass : getBandEnergy (repeat 1 512) 20 60 44100 = sqrt (2 / 3).
Proof.
  unfold getBandEnergy. rewrite binSpan_subBass.
  cbn [Z.geb Z.compare]. unfold slice. simpl.
  f_equal. lra.
Qed.

Lemma rootMeanSquare_two_ones : rootMeanSquare [1; 1] = 1.
Proof.
  unfold rootMeanSquare, sum. simpl.
  replace ((0 + 1 * 1 + 1 * 1) / (1 + 1)) with 1 by lra. apply sqrt_1.
Qed.

Lemma sqrt_two_thirds_lt_1 : sqrt (2 / 3) < 1.
Proof.
  pose proof (sqrt_lt_1_alt (2 / 3) 1) as H. rewrite sqrt_1 in H. apply H. lra.
Qed.

(** ** Spectral contrast *)

Lemma sum_perm (xs ys : list R) : Permutation xs ys -> sum xs = sum ys.
Proof.
  induction 1 as [|x xs ys _ IH|x y xs|xs ys zs _ IH1 _ IH2].
  - reflexivity.
  - rewrite !sum_cons, IH. reflexivity.
  - rewrite !sum_cons. lra.
  - now rewrite IH1.
Qed.

Lemma jsdiv_Fin (x y : R) : y <> 0 -> jsdiv (Fin x) (Fin y) = Fin (x / y).
Proof.
  intros Hy. unfold jsdiv. destruct (Req_dec_T y 0); [contradiction | reflexivity].
Qed.

(** A spectrum of fewer than 10 bins has [topN = bottomN = 0]: the peak
    mean is 0/0 and, when some magnitude is positive, the valley mean is
    the whole sum over 0. *)
Lemma calculateSpectralContrast_short (spectrum : list R) :
  (length spectrum < 10)%nat -> 0 < sum spectrum ->
  calculateSpectralContrast spectrum = NaN.
Proof.
  intros Hlen Hsum. unfold calculateSpectralContrast.
  rewrite (Nat.div_small _ 10) by exact Hlen.
  unfold sliceLast. simpl.
  rewrite (sum_perm _ _ (sortDesc_perm (fun x => x) spectrum)), sum_nil.
  destruct (Req_dec_T 0 0) as [_|Hne]; [|now destruct Hne].
  destruct (Req_dec_T (sum spectrum) 0) as [Hz|_]; [lra|].
  destruct (Rlt_dec 0 (sum spectrum)) as [_|Hn]; [|contradiction].
  reflexivity.
Qed.

Lemma calculateSpectralContrast_long (spectrum : list R) :
  (10 <= length spectrum)%nat ->
  isFinite (calculateSpectralContrast spectrum) = true.
Proof.
  intros Hlen. unfold calculateSpectralContrast.
  assert (Hn : (0 < length spectrum / 10)%nat)
    by (apply Nat.div_str_pos; lia).
  assert (HR : INR (length spectrum / 10) <> 0) by (apply not_0_INR; lia).
  cbv zeta. rewrite !jsdiv_Fin by exact HR.
  unfold jspositive.
  destruct (Rgt_dec _ 0) as [Hpos|_]; [|reflexivity].
  rewrite jsdiv_Fin by lra. reflexivity.
Qed.

Lemma calculateSpectralContrast_five_bins :
  calculateSpectralContrast [1; 1; 1; 1; 1] = NaN.
Proof.
  apply calculateSpectralContrast_short; [simpl; lia|].
  unfold sum. simpl. lra.
Qed.

(** ** Results of [matchAudio] *)

Lemma matchAudio_confidence (unknownFingerprint : Fingerprint) (threshold : R)
    (userId : option string) (database : Database) :
  r_confidence (matchAudio unknownFingerprint threshold userId database)
  = bestScore (matchLoop unknownFingerprint userId database).
Proof. unfold matchAudio. destruct (Rge_dec _ _); reflexivity. Qed.

Lemma matchAudio_allScores (unknownFingerprint : Fingerprint) (threshold : R)
    (userId : option string) (database : Database) :
  r_allScores (matchAudio unknownFingerprint threshold userId database)
  = sortDesc se_score (candidates unknownFingerprint userId database).
Proof.
  unfold matchAudio. rewrite matchLoop_allScores.
  destruct (Rge_dec _ _); reflexivity.
Qed.

Lemma candidates_In (unknownFingerprint : Fingerprint) (userId : option string)
    (database : Database) (audioId : string) (storedData : StoredData) :
  In (audioId, storedData) database ->
  skipped userId storedData = false ->
  In (mkScoreEntry audioId
        (compareFingerprints unknownFingerprint (storedFingerprint storedData))
        (userIdOrUnknown storedData))
     (candidates unknownFingerprint userId database).
Proof.
  intros Hin Hskip. unfold candidates. apply in_map_iff.
  exists (audioId, storedData). split; [reflexivity|].
  apply filter_In. split; [exact Hin|]. simpl. now rewrite Hskip.
Qed.

Lemma matchAudio_confidence_ge (unknownFingerprint : Fingerprint) (threshold : R)
    (userId : option string) (database : Database)
    (audioId : string) (storedData : StoredData) :
  In (audioId, storedData) database ->
  skipped userId storedData = false ->
  compareFingerprints unknownFingerprint (storedFingerprint storedData)
  <= r_confidence (matchAudio unknownFingerprint threshold userId database).
Proof.
  intros Hin Hskip. rewrite matchAudio_confidence.
  destruct (matchLoop_best unknownFingerprint userId database) as (_ & Hall & _).
  rewrite Forall_forall in Hall.
  apply (Hall _ (candidates_In unknownFingerprint userId database _ _ Hin Hskip)).
Qed.

(** ** Finite steps *)

Lemma divide_Some (x y : R) : y <> 0 -> divide x y = Some (x / y).
Proof.
  intros Hy. unfold divide. destruct (Req_dec_T y 0); [contradiction | reflexivity].
Qed.

Lemma squareRoot_Some (x : R) : 0 <= x -> squareRoot x = Some (sqrt x).
Proof.
  intros Hx. unfold squareRoot. destruct (Rlt_dec x 0); [lra | reflexivity].
Qed.

Lemma logarithm_Some (x : R) : 0 < x -> logarithm x = Some (ln x).
Proof.
  intros Hx. unfold logarithm. destruct (Rgt_dec x 0); [reflexivity | lra].
Qed.

Lemma INR_length_nonzero {A : Type} (xs : list A) : xs <> [] -> INR (length xs) <> 0.
Proof.
  intros Hne. apply not_0_INR. destruct xs; [congruence | discriminate].
Qed.

Lemma fold_left_squares_nonneg (xs : list R) (a : R) :
  0 <= a -> 0 <= fold_left (fun acc x => acc + x * x) xs a.
Proof.
  revert a. induction xs as [|x xs IH]; intros a Ha; cbn [fold_left]; [exact Ha|].
  apply IH. nra.
Qed.

Lemma fold_left_differences_nonneg (pairs : list (R * R)) (a : R) :
  0 <= a ->
  0 <= fold_left
         (fun acc (p : R * R) => let diff := fst p - snd p in acc + diff * diff)
         pairs a.
Proof.
  revert a. induction pairs as [|p pairs IH]; intros a Ha; cbn [fold_left]; [exact Ha|].
  apply IH. pose proof (Rle_0_sqr (fst p - snd p)) as Hsq. unfold Rsqr in Hsq. lra.
Qed.

Lemma mean_nonneg (total n : R) : 0 <= total -> 0 < n -> 0 <= total / n.
Proof.
  intros Ht Hn. apply Rmult_le_pos; [exact Ht|]. left. now apply Rinv_0_lt_compat.
Qed.

Lemma calculateEnergyChecked_finite (samples : list R) :
  samples <> [] -> calculateEnergyChecked samples = Some (calculateEnergy samples).
Proof.
  intros Hne. unfold calculateEnergyChecked, calculateEnergy. cbv zeta.
  pose proof (INR_length_nonzero samples Hne) as Hn.
  rewrite divide_Some by exact Hn. cbn [andThen].
  apply squareRoot_Some, mean_nonneg.
  - apply fold_left_squares_nonneg. lra.
  - pose proof (pos_INR (length samples)). lra.
Qed.

Lemma calculateZeroCrossingRateChecked_finite (samples : list R) :
  samples <> [] ->
  calculateZeroCrossingRateChecked samples = Some (calculateZeroCrossingRate samples).
Proof.
  intros Hne. unfold calculateZeroCrossingRateChecked, calculateZeroCrossingRate.
  cbv zeta. apply divide_Some, INR_length_nonzero, Hne.
Qed.

Lemma centroidLoop_finite (len : nat) (nyquist : R) (bins : list (nat * R)) (st : R * R) :
  len <> 0%nat ->
  centroidLoop len nyquist bins st
  = Some (fold_left
            (fun (st : R * R) (p : nat * R) =>
               let frequency := (INR (fst p) / INR len) * nyquist in
               (fst st + frequency * snd p, snd st + snd p))
            bins st).
Proof.
  intros Hlen. revert st.
  induction bins as [|p bins IH]; intros st; cbn [centroidLoop fold_left];
    [reflexivity|].
  rewrite divide_Some by (apply not_0_INR; exact Hlen). cbn [andThen].
  apply IH.
Qed.

Lemma calculateSpectralCentroidChecked_finite (spectrum : list R) (sampleRate : R) :
  spectrum <> [] ->
  calculateSpectralCentroidChecked spectrum sampleRate
  = Some (calculateSpectralCentroid spectrum sampleRate).
Proof.
  intros Hne. unfold calculateSpectralCentroidChecked, calculateSpectralCentroid.
  rewrite divide_Some by lra. cbn [andThen].
  rewrite centroidLoop_finite by (destruct spectrum; [congruence | discriminate]).
  cbn [andThen]. cbv zeta.
  destruct (Rgt_dec _ 0) as [Hpos|_]; [|reflexivity].
  apply divide_Some. lra.
Qed.

Lemma calculateSpectralFluxBetweenChecked_finite (spectrum1 spectrum2 : list R) :
  spectrum1 <> [] -> spectrum2 <> [] ->
  calculateSpectralFluxBetweenChecked spectrum1 spectrum2
  = Some (calculateSpectralFluxBetween spectrum1 spectrum2).
Proof.
  intros H1 H2.
  unfold calculateSpectralFluxBetweenChecked, calculateSpectralFluxBetween. cbv zeta.
  assert (Hlen : (0 < Nat.min (length spectrum1) (length spectrum2))%nat).
  { destruct spectrum1; [congruence|]. destruct spectrum2; [congruence|]. simpl. lia. }
  rewrite divide_Some by (apply not_0_INR; lia). cbn [andThen].
  apply squareRoot_Some, mean_nonneg.
  - apply (fold_left_differences_nonneg (combine spectrum1 spectrum2) 0). lra.
  - now apply lt_0_INR.
Qed.

Lemma rolloffLoop_nonempty (threshold cumulativeEnergy : R) (i j : nat) (rest : list R) :
  rolloffLoop threshold cumulativeEnergy i rest = Some j -> rest <> [].
Proof. destruct rest; [discriminate | discriminate]. Qed.

Lemma calculateSpectralRolloffChecked_finite (spectrum : list R) (sampleRate : R) :
  calculateSpectralRolloffChecked spectrum sampleRate
  = Some (calculateSpectralRolloff spectrum sampleRate).
Proof.
  unfold calculateSpectralRolloffChecked, calculateSpectralRolloff. cbv zeta.
  rewrite divide_Some by lra. cbn [andThen].
  destruct (rolloffLoop (0.85 * sum spectrum) 0 0 spectrum) as [i|] eqn:Hloop;
    [|reflexivity].
  rewrite divide_Some
    by (apply INR_length_nonzero; exact (rolloffLoop_nonempty _ _ _ _ _ Hloop)).
  reflexivity.
Qed.

Lemma flatnessLoop_finite (spectrum : list R) (st : FlatnessState) :
  flatnessLoop spectrum st = Some (fold_left flatnessStep spectrum st).
Proof.
  revert st. induction spectrum as [|x spectrum IH]; intros st;
    cbn [flatnessLoop fold_left]; [reflexivity|].
  unfold flatnessStep at 2. destruct (Rgt_dec x 0) as [Hx|_]; [|apply IH].
  rewrite logarithm_Some by lra. cbn [andThen]. apply IH.
Qed.

Lemma calculateSpectralFlatnessChecked_finite (spectrum : list R) :
  calculateSpectralFlatnessChecked spectrum = Some (calculateSpectralFlatness spectrum).
Proof.
  unfold calculateSpectralFlatnessChecked, calculateSpectralFlatness.
  rewrite flatnessLoop_finite. cbn [andThen]. cbv zeta.
  destruct (fs_count _ =? 0)%nat eqn:Hcount; [reflexivity|].
  apply Nat.eqb_neq in Hcount.
  rewrite !divide_Some by (apply not_0_INR; exact Hcount). cbn [andThen].
  destruct (Rgt_dec _ 0) as [Hpos|_]; [|reflexivity].
  apply divide_Some. lra.
Qed.

Lemma findPeakFrequencyChecked_finite (spectrum : list R)
    (sampleRate lowFreq highFreq : R) :
  spectrum <> [] -> sampleRate <> 0 ->
  findPeakFrequencyChecked spectrum sampleRate lowFreq highFreq
  = Some (findPeakFrequency spectrum sampleRate lowFreq highFreq).
Proof.
  intros Hne Hrate.
  unfold findPeakFrequencyChecked, findPeakFrequency, peakBinOf, peakSpan. cbv zeta.
  rewrite (divide_Some sampleRate 2) by lra. cbn [andThen].
  rewrite !divide_Some by lra. cbn [andThen].
  rewrite divide_Some by (apply INR_length_nonzero; exact Hne). reflexivity.
Qed.

Lemma getBandEnergyChecked_finite (spectrum : list R)
    (lowFreq highFreq sampleRate : R) :
  sampleRate <> 0 ->
  getBandEnergyChecked spectrum lowFreq highFreq sampleRate
  = Some (getBandEnergy spectrum lowFreq highFreq sampleRate).
Proof.
  intros Hrate. unfold getBandEnergyChecked, getBandEnergy, binSpan. cbv zeta.
  rewrite (divide_Some sampleRate 2) by lra. cbn [andThen].
  rewrite !divide_Some by lra. cbn [andThen].
  destruct (_ >=? _)%Z eqn:E; [reflexivity|].
  assert (Hspan : (0 < Z.min (Zceil (highFreq / (sampleRate / 2) * INR (length spectrum)))
                           (Z.of_nat (length spectrum))
                       - Z.max 0 (Zfloor (lowFreq / (sampleRate / 2) * INR (length spectrum)))
                       + 1)%Z).
  { rewrite Z.geb_leb in E. apply Z.leb_gt in E. lia. }
  apply IZR_lt in Hspan.
  rewrite divide_Some by lra. cbn [andThen].
  apply squareRoot_Some, mean_nonneg; [|exact Hspan].
  apply fold_left_squares_nonneg. lra.
Qed.

Lemma calculateSpectralContrastChecked_finite (spectrum : list R) :
  (10 <= length spectrum)%nat ->
  calculateSpectralContrast spectrum
  = Fin (finiteOrZero (calculateSpectralContrast spectrum))
  /\ calculateSpectralContrastChecked spectrum
     = Some (finiteOrZero (calculateSpectralContrast spectrum)).
Proof.
  intros Hlen. unfold calculateSpectralContrastChecked, calculateSpectralContrast.
  assert (Hn : (0 < length spectrum / 10)%nat) by (apply Nat.div_str_pos; lia).
  assert (HR : INR (length spectrum / 10) <> 0) by (apply not_0_INR; lia).
  cbv zeta. rewrite !jsdiv_Fin, !divide_Some by exact HR. cbn [andThen].
  unfold jspositive.
  destruct (Rgt_dec _ 0) as [Hpos|_]; [|split; reflexivity].
  rewrite jsdiv_Fin, divide_Some by lra. split; reflexivity.
Qed.

(** The checks are not idle: on five bins [topN] is 0 and the first
    division of [calculateSpectralContrast] is 0/0. *)
Lemma calculateSpectralContrastChecked_five_bins :
  calculateSpectralContrastChecked [1; 1; 1; 1; 1] = None.
Proof.
  unfold calculateSpectralContrastChecked. cbv zeta.
  rewrite (Nat.div_small _ 10) by (simpl; lia).
  cbn [firstn INR]. unfold divide at 1.
  destruct (Req_dec_T 0 0) as [_|Hne]; [reflexivity | now destruct Hne].
Qed.

Lemma similarityChecked_finite (feature : Feature) (v1 v2 : R) :
  similarityChecked feature v1 v2 = Some (similarity feature v1 v2).
Proof.
  unfold similarityChecked, similarity. cbv zeta.
  destruct (startsWith_peakFreq feature).
  - pose proof (max3_lower v1 v2 1).
    rewrite divide_Some by lra. reflexivity.
  - pose proof (max3_lower (Rabs v1) (Rabs v2) 0.001).
    rewrite divide_Some by lra. reflexivity.
Qed.

Lemma frameFeaturesChecked_finite (window spectrum : list R)
    (prevSpectrum : option (list R)) (sampleRate : R) :
  window <> [] -> (10 <= length spectrum)%nat -> prevSpectrum <> Some [] ->
  0 < sampleRate ->
  frameFeaturesChecked window spectrum prevSpectrum sampleRate
  = Some (frameFeatures window spectrum prevSpectrum sampleRate).
Proof.
  intros Hwindow Hlen Hprev Hrate.
  assert (Hspectrum : spectrum <> []) by (intros ->; simpl in Hlen; lia).
  assert (Hrate0 : sampleRate <> 0) by lra.
  unfold frameFeaturesChecked, frameFeatures.
  rewrite calculateEnergyChecked_finite by exact Hwindow. cbn [andThen].
  rewrite calculateZeroCrossingRateChecked_finite by exact Hwindow. cbn [andThen].
  rewrite calculateSpectralCentroidChecked_finite by exact Hspectrum. cbn [andThen].
  assert (Hflux : match prevSpectrum with
                  | Some prev => calculateSpectralFluxBetweenChecked spectrum prev
                  | None => Some 0
                  end
                  = Some match prevSpectrum with
                         | Some prev => calculateSpectralFluxBetween spectrum prev
                         | None => 0
                         end).
  { destruct prevSpectrum as [prev|]; [|reflexivity].
    apply calculateSpectralFluxBetweenChecked_finite; [exact Hspectrum|].
    intros ->. now apply Hprev. }
  rewrite Hflux. cbn [andThen].
  rewrite calculateSpectralRolloffChecked_finite. cbn [andThen].
  rewrite calculateSpectralFlatnessChecked_finite. cbn [andThen].
  rewrite !getBandEnergyChecked_finite by exact Hrate0. cbn [andThen].
  rewrite (divide_Some sampleRate 4) by lra. cbn [andThen].
  rewrite findPeakFrequencyChecked_finite by assumption. cbn [andThen].
  rewrite (divide_Some sampleRate 2) by lra. cbn [andThen].
  rewrite findPeakFrequencyChecked_finite by assumption. cbn [andThen].
  rewrite (proj2 (calculateSpectralContrastChecked_finite spectrum Hlen)).
  reflexivity.
Qed.

(** ** Windows and spectra of [extractFeatures] *)

Lemma indexed_length (xs : list R) : length (indexed xs) = length xs.
Proof. unfold indexed. rewrite length_combine, length_seq. apply Nat.min_id. Qed.

Lemma window_length (samples : list R) (i : nat) :
  (Z.of_nat i < Z.of_nat (length samples) - Z.of_nat windowSize)%Z ->
  length (firstn windowSize (skipn i samples)) = windowSize.
Proof. intros Hi. rewrite length_firstn, length_skipn. lia. Qed.

Lemma computeFullFFT_window_length (window : list R) :
  length window = windowSize -> length (computeFullFFT window) = 512%nat.
Proof.
  intros Hlen. unfold computeFullFFT. rewrite length_map, length_seq, Hlen.
  reflexivity.
Qed.

Lemma extractLoopChecked_finite (samples : list R) (sampleRate : R) (fuel i : nat)
    (prevSpectrum : option (list R)) :
  0 < sampleRate -> prevSpectrum <> Some [] ->
  extractLoopChecked fuel samples sampleRate i prevSpectrum
  = Some (extractLoop fuel samples sampleRate i prevSpectrum).
Proof.
  intros Hrate. revert i prevSpectrum.
  induction fuel as [|fuel IH]; intros i prevSpectrum Hprev;
    cbn [extractLoopChecked extractLoop]; [reflexivity|].
  destruct (Z.of_nat i <? Z.of_nat (length samples) - Z.of_nat windowSize)%Z eqn:E;
    [|reflexivity].
  apply Z.ltb_lt in E. cbv zeta.
  assert (Hwindow : length (applyHannWindow (firstn windowSize (skipn i samples)))
                    = windowSize).
  { unfold applyHannWindow. rewrite length_map, indexed_length.
    now apply window_length. }
  pose proof (computeFullFFT_window_length _ Hwindow) as Hspectrum.
  rewrite frameFeaturesChecked_finite.
  - cbn [andThen]. rewrite IH; [reflexivity|].
    intros Hnil.
    apply (f_equal (fun o : option (list R) =>
                      match o with Some l => length l | None => 0%nat end)) in Hnil.
    cbv beta iota in Hnil. rewrite Hspectrum in Hnil. discriminate.
  - intros Hnil. rewrite Hnil in Hwindow. discriminate.
  - rewrite Hspectrum. lia.
  - exact Hprev.
  - exact Hrate.
Qed.

(** * Properties of the specification *)

(** C1.  Round-trip self-match: a fingerprint of at least 10 frames
    compared with itself scores at least 0.99 (in exact arithmetic, 1), and
    so does the confidence of [matchAudio] whenever the store holds that
    fingerprint under an entry the owner filter lets through. *)
Theorem self_match_confidence (fp : Fingerprint) :
  (10 <= length fp)%nat ->
  compareFingerprints fp fp >= 0.99
  /\ forall (threshold : R) (userId : option string) (database : Database)
            (audioId : string) (storedData : StoredData),
       In (audioId, storedData) database ->
       storedFingerprint storedData = fp ->
       skipped userId storedData = false ->
       r_confidence (matchAudio fp threshold userId database) >= 0.99.
Proof.
  intros Hlen. pose proof (compareFingerprints_self fp Hlen) as Hself.
  split; [lra|].
  intros threshold userId database audioId storedData Hin Hfp Hskip.
  pose proof (matchAudio_confidence_ge fp threshold userId database _ _ Hin Hskip) as H.
  rewrite Hfp in H. lra.
Qed.

Lemma self_match_confidence_witness :
  (10 <= length (repeat silentFrame 10))%nat
  /\ compareFingerprints (repeat silentFrame 10) (repeat silentFrame 10) >= 0.99.
Proof.
  split.
  - simpl. lia.
  - apply (self_match_confidence (repeat silentFrame 10)). simpl. lia.
Defined.

(** C2.  The weight table has 17 entries that sum to exactly 1; every
    per-feature similarity lies in (0, 1], and every per-frame similarity,
    every score of [compareFingerprints] and every confidence of
    [matchAudio] lies in [0, 1]. *)
Theorem weights_sum_and_score_range :
  length weights = 17%nat
  /\ sum (map snd weights) = 1
  /\ (forall feature v1 v2, 0 < similarity feature v1 v2 <= 1)
  /\ (forall f1 f2, 0 <= frameSimilarity f1 f2 <= 1)
  /\ (forall fp1 fp2, 0 <= compareFingerprints fp1 fp2 <= 1)
  /\ (forall unknownFingerprint threshold userId database,
        0 <= r_confidence (matchAudio unknownFingerprint threshold userId database) <= 1).
Proof.
  split; [reflexivity|]. split; [apply weights_sum|].
  split; [apply similarity_bounds|]. split; [apply frameSimilarity_bounds|].
  split; [apply compareFingerprints_bounds|].
  intros. rewrite matchAudio_confidence. apply matchLoop_bestScore_bounds.
Qed.

(** C3.  Temporal consistency gate: with at least 10 aligned frames,
    [compareFingerprintsAligned] returns half of the mean frame similarity
    when the fraction of frames above 0.7 is below 0.6, and the mean itself
    otherwise; a pair with half of its frames above 0.7 therefore scores at
    most half of its mean frame similarity, also after the length-ratio
    factor of [compareFingerprints]. *)
Theorem temporal_consistency_gate (fp1 fp2 : Fingerprint) :
  (10 <= Nat.min (length fp1) (length fp2))%nat ->
  (goodFrameFraction fp1 fp2 < 0.6 ->
   compareFingerprintsAligned fp1 fp2 = meanFrameSimilarity fp1 fp2 / 2)
  /\ (~ goodFrameFraction fp1 fp2 < 0.6 ->
      compareFingerprintsAligned fp1 fp2 = meanFrameSimilarity fp1 fp2)
  /\ (goodFrameFraction fp1 fp2 = 0.5 ->
      compareFingerprintsAligned fp1 fp2 <= 0.5 * meanFrameSimilarity fp1 fp2
      /\ compareFingerprints fp1 fp2 <= 0.5 * meanFrameSimilarity fp1 fp2).
Proof.
  intros Hlen.
  assert (Hpos : (0 < Nat.min (length fp1) (length fp2))%nat) by lia.
  pose proof (meanFrameSimilarity_bounds fp1 fp2 Hpos) as Hmean.
  pose proof (compareFingerprints_long fp1 fp2 Hlen) as Hfinal.
  rewrite compareFingerprintsAligned_unfold in *.
  destruct (Rlt_dec (goodFrameFraction fp1 fp2) 0.6) as [Hlt|Hge].
  - split; [intros _; lra|]. split; [intros Hn; contradiction|].
    intros _. split; [lra|].
    rewrite Hfinal. destruct (Rlt_dec (lengthRatio fp1 fp2) 0.7); lra.
  - split; [intros Hlt; contradiction|]. split; [reflexivity|].
    intros Hhalf. exfalso. apply Hge. lra.
Qed.

Lemma temporal_consistency_gate_witness :
  (10 <= Nat.min (length silentClip) (length halfLoudClip))%nat
  /\ compareFingerprintsAligned silentClip halfLoudClip
     = meanFrameSimilarity silentClip halfLoudClip / 2
  /\ compareFingerprints silentClip halfLoudClip
     <= 0.5 * meanFrameSimilarity silentClip halfLoudClip.
Proof.
  assert (Hlen : (10 <= Nat.min (length silentClip) (length halfLoudClip))%nat)
    by (simpl; lia).
  pose proof goodFrameFraction_halfLoud as Hhalf.
  split; [exact Hlen|]. split.
  - apply (temporal_consistency_gate silentClip halfLoudClip Hlen). lra.
  - apply (temporal_consistency_gate silentClip halfLoudClip Hlen). exact Hhalf.
Defined.

(** C4.  Band energy at a failing input.  On a 512-bin spectrum of
    magnitudes 1 at 44100 Hz, the sub-bass band (20 to 60 Hz) maps to bins
    0 and 1; their root mean square is 1, but [getBandEnergy] divides the
    sum of the two squares by 3 and returns [sqrt (2/3)].  An empty bin
    span does give 0. *)
Theorem getBandEnergy_not_rootMeanSquare :
  binSpan (repeat 1 512) 20 60 44100 = (0, 2)%Z
  /\ slice (repeat 1 512) 0 2 = [1; 1]
  /\ rootMeanSquare (slice (repeat 1 512) 0 2) = 1
  /\ getBandEnergy (repeat 1 512) 20 60 44100 = sqrt (2 / 3)
  /\ getBandEnergy (repeat 1 512) 20 60 44100 < rootMeanSquare (slice (repeat 1 512) 0 2)
  /\ (forall spectrum lowFreq highFreq sampleRate,
        (fst (binSpan spectrum lowFreq highFreq sampleRate)
         >= snd (binSpan spectrum lowFreq highFreq sampleRate))%Z ->
        getBandEnergy spectrum lowFreq highFreq sampleRate = 0).
Proof.
  assert (Hslice : slice (repeat 1 512) 0 2 = [1; 1]) by reflexivity.
  split; [apply binSpan_subBass|]. split; [exact Hslice|].
  rewrite Hslice, rootMeanSquare_two_ones, getBandEnergy_subBass.
  split; [reflexivity|]. split; [reflexivity|]. split; [apply sqrt_two_thirds_lt_1|].
  intros spectrum lowFreq highFreq sampleRate.
  apply (getBandEnergy_spec spectrum lowFreq highFreq sampleRate).
Qed.

(** C5, as the specification states it, fails: at 44100 Hz the buffer
    [1, 1, 1, -1] is already normalized, and the high-pass filter turns its
    last sample into an amplitude above 1.01. *)
Lemma condition_exceeds_unit_amplitude :
  1.01 < peak (condition [1; 1; 1; -1] 44100)
  /\ ~ peak (condition [1; 1; 1; -1] 44100) <= 1.
Proof. pose proof condition_overshoot. split; lra. Qed.

(** C5, amended.  For a positive sample rate, the normalized buffer has
    maximum absolute amplitude at most 1 (exactly 1 unless the buffer is
    silent), the conditioned buffer (normalization, then the 80 Hz
    high-pass filter) has maximum absolute amplitude at most 2, and an
    all-zero buffer is returned unchanged by conditioning. *)
Theorem condition_amplitude (samples : list R) (sampleRate : R) :
  0 < sampleRate ->
  peak (normalizeAudio samples) <= 1
  /\ (maxAmplitude samples <> 0 -> peak (normalizeAudio samples) = 1)
  /\ peak (condition samples sampleRate) <= 2
  /\ (Forall (fun x => x = 0) samples -> condition samples sampleRate = samples).
Proof.
  intros Hrate.
  split; [apply peak_le; [lra | apply normalizeAudio_bounded]|].
  split; [apply normalizeAudio_peak|].
  split.
  - apply peak_le; [lra|]. unfold condition.
    apply highPassFilter_bounded; [lra | exact Hrate | apply normalizeAudio_bounded].
  - intros Hz. unfold condition.
    rewrite (normalizeAudio_zero samples Hz). now apply highPassFilter_zero.
Qed.

Lemma condition_amplitude_witness :
  0 < 44100 /\ peak (condition [1; 1; 1; -1] 44100) <= 2.
Proof.
  split.
  - lra.
  - apply (condition_amplitude [1; 1; 1; -1] 44100). lra.
Defined.

(** C6.  No-match reporting.  The ranked list returned by [matchAudio] is
    always a descending arrangement of all candidates that pass the owner
    filter; when the largest candidate score is below the threshold the
    match is null and the confidence is that largest score; when there is no
    candidate the match is null, the confidence 0 and the list empty. *)
Theorem no_match_reporting (unknownFingerprint : Fingerprint) (threshold : R)
    (userId : option string) (database : Database) :
  let result := matchAudio unknownFingerprint threshold userId database in
  let cands := candidates unknownFingerprint userId database in
  Permutation (r_allScores result) cands
  /\ Sorted (fun a b => se_score b <= se_score a) (r_allScores result)
  /\ (forall top,
        In top cands ->
        (forall e, In e cands -> se_score e <= se_score top) ->
        se_score top < threshold ->
        r_match result = None /\ r_confidence result = se_score top)
  /\ (cands = [] ->
      r_match result = None /\ r_confidence result = 0 /\ r_allScores result = [])
  /\ (database = [] ->
      r_match result = None /\ r_confidence result = 0 /\ r_allScores result = []).
Proof.
  cbv zeta.
  assert (Hempty : candidates unknownFingerprint userId database = [] ->
            r_match (matchAudio unknownFingerprint threshold userId database) = None
            /\ r_confidence (matchAudio unknownFingerprint threshold userId database) = 0
            /\ r_allScores (matchAudio unknownFingerprint threshold userId database) = []).
  { intros Hnil.
    destruct (matchLoop_empty unknownFingerprint userId database Hnil) as [Hs Hm].
    rewrite matchAudio_confidence, matchAudio_allScores, Hnil.
    split; [|split; [exact Hs | reflexivity]].
    unfold matchAudio. destruct (Rge_dec _ _); [exact Hm | reflexivity]. }
  split; [rewrite matchAudio_allScores; apply sortDesc_perm|].
  split; [rewrite matchAudio_allScores; apply sortDesc_sorted|].
  split; [|split; [exact Hempty|]].
  - intros top Hin Htop Hlow.
    pose proof (matchLoop_bestScore_top unknownFingerprint userId database top Hin Htop)
      as Hbest.
    rewrite matchAudio_confidence. split; [|exact Hbest].
    unfold matchAudio. destruct (Rge_dec _ _) as [Hge|_]; [|reflexivity].
    exfalso. lra.
  - intros Hdb. apply Hempty. rewrite Hdb. reflexivity.
Qed.

(** C7, as stated for every pair of fingerprints, fails behind the length
    gate: a one-frame fingerprint compared with itself has length ratio 1
    and aligned score 1, yet [compareFingerprints] returns 0. *)
Lemma length_penalty_fails_on_short_pair :
  ~ ((lengthRatio [silentFrame] [silentFrame] < 0.7 ->
      compareFingerprints [silentFrame] [silentFrame]
      = compareFingerprintsAligned [silentFrame] [silentFrame] * 0.85)
     /\ (~ lengthRatio [silentFrame] [silentFrame] < 0.7 ->
         compareFingerprints [silentFrame] [silentFrame]
         = compareFingerprintsAligned [silentFrame] [silentFrame])).
Proof.
  intros [_ H].
  assert (Hlen : (0 < length [silentFrame])%nat) by (simpl; lia).
  rewrite (lengthRatio_self _ Hlen), (compareFingerprintsAligned_self _ Hlen) in H.
  rewrite compareFingerprints_short in H by (simpl; lia).
  assert (Hn : ~ 1 < 0.7) by lra. specialize (H Hn). lra.
Qed.

(** C7, amended.  For fingerprints with at least 10 aligned frames, the
    score of [compareFingerprints] is the aligned score times 0.85 when
    [min(len1, len2) / max(len1, len2) < 0.7], and the aligned score itself
    otherwise. *)
Theorem length_ratio_penalty (fp1 fp2 : Fingerprint) :
  (10 <= Nat.min (length fp1) (length fp2))%nat ->
  (lengthRatio fp1 fp2 < 0.7 ->
   compareFingerprints fp1 fp2 = compareFingerprintsAligned fp1 fp2 * 0.85)
  /\ (~ lengthRatio fp1 fp2 < 0.7 ->
      compareFingerprints fp1 fp2 = compareFingerprintsAligned fp1 fp2).
Proof.
  intros Hlen. rewrite (compareFingerprints_long fp1 fp2 Hlen).
  destruct (Rlt_dec (lengthRatio fp1 fp2) 0.7) as [Hlt|Hge].
  - split; [reflexivity | intros Hn; contradiction].
  - split; [intros Hlt; contradiction | intros _; lra].
Qed.

Lemma length_ratio_penalty_witness :
  (10 <= Nat.min (length silentClip) (length (silentClip ++ silentClip)))%nat
  /\ compareFingerprints silentClip (silentClip ++ silentClip)
     = compareFingerprintsAligned silentClip (silentClip ++ silentClip) * 0.85.
Proof.
  split.
  - simpl. lia.
  - apply (length_ratio_penalty silentClip (silentClip ++ silentClip)).
    + simpl. lia.
    + unfold lengthRatio. simpl. lra.
Defined.

(** C8.  Length gate: when the shorter fingerprint has fewer than 10
    frames, [compareFingerprints] returns 0 whatever the frames hold. *)
Theorem length_gate (fp1 fp2 : Fingerprint) :
  (Nat.min (length fp1) (length fp2) < 10)%nat -> compareFingerprints fp1 fp2 = 0.
Proof. apply compareFingerprints_short. Qed.

Lemma length_gate_witness :
  (Nat.min (length (repeat silentFrame 9)) (length (repeat silentFrame 30)) < 10)%nat
  /\ compareFingerprints (repeat silentFrame 9) (repeat silentFrame 30) = 0.
Proof.
  split.
  - simpl. lia.
  - apply (length_gate (repeat silentFrame 9) (repeat silentFrame 30)). simpl. lia.
Defined.



(** C10.  Symmetry: [compareFingerprints] gives the same score in both
    argument orders. *)
Theorem compareFingerprints_symmetric (a b : Fingerprint) :
  compareFingerprints a b = compareFingerprints b a.
Proof. apply compareFingerprints_sym. Qed.

(** * Further properties of the code *)

(** ** The store *)

Lemma mapGet_mapSet_same (audioId : string) (value : StoredData) (database : Database) :
  mapGet audioId (mapSet audioId value database) = Some value.
Proof.
  induction database as [|[k v] rest IH]; simpl.
  - now rewrite String.eqb_refl.
  - destruct (String.eqb k audioId) eqn:E; simpl; now rewrite E.
Qed.

Lemma mapGet_mapSet_other (audioId other : string) (value : StoredData)
    (database : Database) :
  other <> audioId ->
  mapGet other (mapSet audioId value database) = mapGet other database.
Proof.
  intros Hne. induction database as [|[k v] rest IH]; simpl.
  - destruct (String.eqb audioId other) eqn:E; [|reflexivity].
    apply String.eqb_eq in E. congruence.
  - destruct (String.eqb k audioId) eqn:E; simpl.
    + apply String.eqb_eq in E. subst k.
      destruct (String.eqb audioId other) eqn:E'; [|reflexivity].
      apply String.eqb_eq in E'. congruence.
    + now rewrite IH.
Qed.

Lemma mapGet_None_iff (audioId : string) (database : Database) :
  mapGet audioId database = None <-> ~ In audioId (map fst database).
Proof.
  induction database as [|[k v] rest IH]; simpl.
  - tauto.
  - destruct (String.eqb k audioId) eqn:E.
    + apply String.eqb_eq in E. split; [discriminate | intros H; exfalso; auto].
    + apply String.eqb_neq in E. rewrite IH. tauto.
Qed.

Lemma mapGet_In (audioId : string) (value : StoredData) (database : Database) :
  mapGet audioId database = Some value -> In (audioId, value) database.
Proof.
  induction database as [|[k v] rest IH]; simpl; [discriminate|].
  destruct (String.eqb k audioId) eqn:E.
  - apply String.eqb_eq in E. intros [= ->]. left. now subst.
  - intros H. right. now apply IH.
Qed.

Lemma mapSet_keys (audioId : string) (value : StoredData) (database : Database) :
  map fst (mapSet audioId value database)
  = if mapHas audioId database then map fst database
    else map fst database ++ [audioId].
Proof.
  unfold mapHas. induction database as [|[k v] rest IH]; simpl; [reflexivity|].
  destruct (String.eqb k audioId) eqn:E; simpl; [reflexivity|].
  rewrite IH. now destruct (mapGet audioId rest).
Qed.

Lemma mapRemove_absent (audioId : string) (database : Database) :
  mapGet audioId database = None -> mapRemove audioId database = database.
Proof.
  induction database as [|[k v] rest IH]; simpl; [reflexivity|].
  destruct (String.eqb k audioId); [discriminate|].
  intros H. now rewrite IH.
Qed.

Lemma mapRemove_keys_incl (audioId k : string) (database : Database) :
  In k (map fst (mapRemove audioId database)) -> In k (map fst database).
Proof.
  induction database as [|[k' v] rest IH]; simpl; [tauto|].
  destruct (String.eqb k' audioId); simpl; [tauto|].
  intros [H|H]; [now left | right; now apply IH].
Qed.

Lemma mapRemove_NoDup (audioId : string) (database : Database) :
  NoDup (map fst database) -> NoDup (map fst (mapRemove audioId database)).
Proof.
  induction database as [|[k v] rest IH]; simpl; [constructor|].
  intros Hnd. inversion Hnd as [|? ? Hnotin Hrest]; subst.
  destruct (String.eqb k audioId); simpl; [exact Hrest|].
  constructor; [|now apply IH].
  intros Hin. apply Hnotin. eapply mapRemove_keys_incl, Hin.
Qed.

Lemma mapGet_mapRemove_same (audioId : string) (database : Database) :
  NoDup (map fst database) -> mapGet audioId (mapRemove audioId database) = None.
Proof.
  induction database as [|[k v] rest IH]; simpl; [reflexivity|].
  intros Hnd. inversion Hnd as [|? ? Hnotin Hrest]; subst.
  destruct (String.eqb k audioId) eqn:E; simpl.
  - apply String.eqb_eq in E. subst k. now apply mapGet_None_iff.
  - rewrite E. now apply IH.
Qed.

Lemma mapGet_mapRemove_other (audioId other : string) (database : Database) :
  other <> audioId ->
  mapGet other (mapRemove audioId database) = mapGet other database.
Proof.
  intros Hne. induction database as [|[k v] rest IH]; simpl; [reflexivity|].
  destruct (String.eqb k audioId) eqn:E; simpl.
  - apply String.eqb_eq in E. subst k.
    destruct (String.eqb audioId other) eqn:E'; [|reflexivity].
    apply String.eqb_eq in E'. congruence.
  - now rewrite IH.
Qed.

(** X1.  Registering a sound and looking it up: after [storeAudio] the
    store maps the id to the new entry, every other id to what it mapped to
    before, and the ids are the old ones in their old order, with the new id
    appended when it was not there. *)
Theorem storeAudio_lookup (fingerprint : Fingerprint) (audioId : string)
    (userId : option string) (timestamp : string) (database : Database) :
  let database' := storeAudio fingerprint audioId userId timestamp database in
  mapGet audioId database' = Some (Entry fingerprint userId timestamp)
  /\ (forall other, other <> audioId -> mapGet other database' = mapGet other database)
  /\ map fst database'
     = (if mapHas audioId database then map fst database
        else map fst database ++ [audioId]).
Proof.
  cbv zeta. unfold storeAudio.
  split; [apply mapGet_mapSet_same|].
  split; [intros other Hne; now apply mapGet_mapSet_other | apply mapSet_keys].
Qed.

(** X2.  The ids of the store stay pairwise distinct under [storeAudio]
    and [deleteAudio]. *)
Theorem store_keys_distinct (database : Database) :
  NoDup (map fst database) ->
  (forall fingerprint audioId userId timestamp,
      NoDup (map fst (storeAudio fingerprint audioId userId timestamp database)))
  /\ (forall audioId, NoDup (map fst (snd (deleteAudio audioId database)))).
Proof.
  intros Hnd. split.
  - intros fingerprint audioId userId timestamp. unfold storeAudio.
    rewrite mapSet_keys. unfold mapHas.
    destruct (mapGet audioId database) eqn:E; [exact Hnd|].
    apply mapGet_None_iff in E.
    apply NoDup_app; [exact Hnd | repeat constructor; simpl; tauto |].
    intros k Hin [<-|[]]. contradiction.
  - intros audioId. simpl. now apply mapRemove_NoDup.
Qed.

Lemma store_keys_distinct_witness :
  NoDup (map fst ([("clap"%string, Bare silentClip)] : Database))
  /\ NoDup (map fst (storeAudio silentClip "bell"%string None ""%string
                       [("clap"%string, Bare silentClip)])).
Proof.
  assert (Hnd : NoDup (map fst ([("clap"%string, Bare silentClip)] : Database)))
    by (repeat constructor; simpl; tauto).
  split; [exact Hnd|].
  apply (store_keys_distinct [("clap"%string, Bare silentClip)] Hnd).
Defined.

(** X3.  [deleteAudio] answers whether the id was in the store.  If it
    was not, the store is unchanged; in a store of pairwise distinct ids the
    id is gone afterwards, every other id maps to what it mapped to before,
    and deleting it a second time answers false. *)
Theorem deleteAudio_spec (audioId : string) (database : Database) :
  NoDup (map fst database) ->
  let (deleted, database') := deleteAudio audioId database in
  (deleted = true <-> In audioId (map fst database))
  /\ (deleted = false -> database' = database)
  /\ mapGet audioId database' = None
  /\ (forall other, other <> audioId -> mapGet other database' = mapGet other database)
  /\ fst (deleteAudio audioId database') = false.
Proof.
  intros Hnd. unfold deleteAudio, mapHas. cbn [fst snd].
  pose proof (mapGet_None_iff audioId database) as Hnone.
  pose proof (mapGet_mapRemove_same audioId database Hnd) as Hgone.
  split; [|split; [|split; [exact Hgone|split]]].
  - destruct (mapGet audioId database) eqn:E.
    + split; [intros _|reflexivity].
      apply mapGet_In in E. apply in_map_iff. now exists (audioId, s).
    + split; [discriminate|]. intros Hin. exfalso. now apply Hnone.
  - destruct (mapGet audioId database) eqn:E; [discriminate|].
    intros _. now apply mapRemove_absent.
  - intros other Hne. now apply mapGet_mapRemove_other.
  - now rewrite Hgone.
Qed.

Lemma deleteAudio_spec_witness :
  NoDup (map fst ([("clap"%string, Bare silentClip)] : Database))
  /\ mapGet "clap"%string
       (snd (deleteAudio "clap"%string [("clap"%string, Bare silentClip)])) = None.
Proof.
  assert (Hnd : NoDup (map fst ([("clap"%string, Bare silentClip)] : Database)))
    by (repeat constructor; simpl; tauto).
  split; [exact Hnd|].
  apply (deleteAudio_spec "clap"%string [("clap"%string, Bare silentClip)] Hnd).
Defined.

(** ** The matcher *)

Lemma sum_pos (xs : list R) :
  xs <> [] -> Forall (fun x => 0 < x) xs -> 0 < sum xs.
Proof.
  intros Hne Hall. induction Hall as [|x xs Hx Hall IH]; [congruence|].
  rewrite sum_cons. destruct xs as [|y ys].
  - rewrite sum_nil. lra.
  - assert (0 < sum (y :: ys)) by (apply IH; discriminate). lra.
Qed.

Lemma frameSimilarityOver_pos (table : list (Feature * R)) (f1 f2 : Features) :
  table <> [] -> Forall (fun entry => 0 < snd entry) table ->
  0 < frameSimilarityOver table f1 f2.
Proof.
  intros Hne Hall. induction Hall as [|[feature weight] table Hw Hall IH]; [congruence|].
  rewrite frameSimilarityOver_cons. simpl in Hw.
  pose proof (similarity_bounds feature (getFeature f1 feature) (getFeature f2 feature)) as Hs.
  assert (Hprod : 0 < similarity feature (getFeature f1 feature) (getFeature f2 feature) * weight)
    by (apply Rmult_lt_0_compat; lra).
  destruct table as [|e table'].
  - unfold frameSimilarityOver. simpl. lra.
  - assert (0 < frameSimilarityOver (e :: table') f1 f2) by (apply IH; discriminate). lra.
Qed.

Lemma frameSimilarity_pos (f1 f2 : Features) : 0 < frameSimilarity f1 f2.
Proof.
  apply frameSimilarityOver_pos; [discriminate|].
  unfold weights. repeat constructor; simpl; lra.
Qed.

Lemma frameSimilarities_pos (fp1 fp2 : Fingerprint) :
  Forall (fun s => 0 < s) (frameSimilarities fp1 fp2).
Proof.
  revert fp2. induction fp1 as [|f1 fp1 IH]; intros [|f2 fp2]; simpl; auto.
  constructor; [apply frameSimilarity_pos | apply IH].
Qed.

Lemma compareFingerprintsAligned_pos (fp1 fp2 : Fingerprint) :
  (0 < Nat.min (length fp1) (length fp2))%nat ->
  0 < compareFingerprintsAligned fp1 fp2.
Proof.
  intros Hlen. rewrite compareFingerprintsAligned_unfold.
  assert (Hmean : 0 < meanFrameSimilarity fp1 fp2).
  { unfold meanFrameSimilarity. apply Rdiv_lt_0_compat.
    - apply sum_pos; [|apply frameSimilarities_pos].
      intros Hnil. apply (f_equal (@length R)) in Hnil.
      rewrite frameSimilarities_length in Hnil. simpl in Hnil. lia.
    - rewrite frameSimilarities_length. now apply lt_0_INR. }
  destruct (Rlt_dec _ _); lra.
Qed.

Lemma frameSimilarities_firstn (fp1 fp2 : Fingerprint) :
  frameSimilarities fp1 (firstn (length fp1) fp2) = frameSimilarities fp1 fp2.
Proof.
  revert fp2. induction fp1 as [|f1 fp1 IH]; intros [|f2 fp2]; simpl; auto.
  now rewrite IH.
Qed.

(** X4.  The score of [compareFingerprints] is 0 exactly when fewer than
    10 frames are aligned; from 10 aligned frames on it is strictly
    positive. *)
Theorem score_zero_iff_short (fp1 fp2 : Fingerprint) :
  compareFingerprints fp1 fp2 = 0 <-> (Nat.min (length fp1) (length fp2) < 10)%nat.
Proof.
  split; [|apply compareFingerprints_short].
  intros Hzero.
  destruct (Nat.lt_ge_cases (Nat.min (length fp1) (length fp2)) 10) as [Hs|Hl];
    [exact Hs|].
  exfalso. rewrite (compareFingerprints_long fp1 fp2 Hl) in Hzero.
  assert (Hpos : (0 < Nat.min (length fp1) (length fp2))%nat) by lia.
  pose proof (compareFingerprintsAligned_pos fp1 fp2 Hpos).
  destruct (Rlt_dec _ _); nra.
Qed.

(** X5.  Frames of the longer fingerprint beyond the length of the
    shorter one only count through the length ratio: when the ratio is
    below 0.7, the score is 0.85 times the score against the longer
    fingerprint truncated to the shorter length, and strictly smaller. *)
Theorem length_penalty_against_truncation (fp1 fp2 : Fingerprint) :
  (10 <= length fp1)%nat ->
  (length fp1 <= length fp2)%nat ->
  lengthRatio fp1 fp2 < 0.7 ->
  compareFingerprints fp1 fp2
  = 0.85 * compareFingerprints fp1 (firstn (length fp1) fp2)
  /\ compareFingerprints fp1 fp2 < compareFingerprints fp1 (firstn (length fp1) fp2).
Proof.
  intros H10 Hle Hratio.
  assert (Hlenf : length (firstn (length fp1) fp2) = length fp1)
    by (rewrite length_firstn; lia).
  assert (Haligned : compareFingerprintsAligned fp1 (firstn (length fp1) fp2)
                     = compareFingerprintsAligned fp1 fp2).
  { rewrite !compareFingerprintsAligned_unfold.
    unfold goodFrameFraction, meanFrameSimilarity.
    now rewrite frameSimilarities_firstn. }
  assert (Hratio1 : lengthRatio fp1 (firstn (length fp1) fp2) = 1).
  { unfold lengthRatio. rewrite Hlenf, Nat.min_id, Nat.max_id.
    assert (0 < INR (length fp1)) by (apply lt_0_INR; lia). field. lra. }
  rewrite (compareFingerprints_long fp1 fp2) by lia.
  rewrite (compareFingerprints_long fp1 (firstn (length fp1) fp2))
    by (rewrite Hlenf; lia).
  rewrite Haligned, Hratio1.
  assert (Hpos : 0 < compareFingerprintsAligned fp1 fp2)
    by (apply compareFingerprintsAligned_pos; lia).
  destruct (Rlt_dec (lengthRatio fp1 fp2) 0.7); [|contradiction].
  destruct (Rlt_dec 1 0.7); lra.
Qed.

Lemma length_penalty_against_truncation_witness :
  (10 <= length silentClip)%nat
  /\ compareFingerprints silentClip (silentClip ++ silentClip)
     < compareFingerprints silentClip
         (firstn (length silentClip) (silentClip ++ silentClip)).
Proof.
  split.
  - simpl. lia.
  - apply (length_penalty_against_truncation silentClip (silentClip ++ silentClip)).
    + simpl. lia.
    + simpl. lia.
    + unfold lengthRatio. simpl. lra.
Defined.

(** The loop of [matchAudio] keeps the first candidate whose score is the
    largest, provided that score exceeds the starting one. *)
Lemma matchLoop_first_from (unknownFingerprint : Fingerprint) (userId : option string)
    (database : Database) (st : MatchState) :
  let st' := fold_left (matchStep unknownFingerprint userId) database st in
  let cands := candidates unknownFingerprint userId database in
  (bestScore st' = bestScore st /\ bestMatch st' = bestMatch st
   /\ Forall (fun e => se_score e <= bestScore st) cands)
  \/ (exists l1 e l2,
        cands = l1 ++ e :: l2
        /\ bestScore st' = se_score e
        /\ bestMatch st' = Some (se_audioId e)
        /\ bestScore st < se_score e
        /\ Forall (fun x => se_score x < se_score e) l1
        /\ Forall (fun x => se_score x <= se_score e) l2).
Proof.
  revert st. induction database as [|[audioId storedData] database IH]; intros st.
  - left. simpl. repeat split. constructor.
  - cbv zeta. cbn [fold_left]. rewrite candidates_cons. cbn [fst snd].
    set (score := compareFingerprints unknownFingerprint (storedFingerprint storedData)).
    set (entry := mkScoreEntry audioId score (userIdOrUnknown storedData)).
    set (st1 := matchStep unknownFingerprint userId st (audioId, storedData)).
    assert (Hst1 : if skipped userId storedData then st1 = st
                   else if Rgt_dec score (bestScore st)
                        then bestScore st1 = score /\ bestMatch st1 = Some audioId
                        else bestScore st1 = bestScore st /\ bestMatch st1 = bestMatch st).
    { unfold st1, matchStep. fold score.
      destruct (skipped userId storedData); [reflexivity|].
      destruct (Rgt_dec score (bestScore st)); simpl; split; reflexivity. }
    destruct (IH st1) as [(Hs & Hm & Hall)|(l1 & e & l2 & Hc & Hs & Hm & Hlt & H1 & H2)];
      destruct (skipped userId storedData).
    + rewrite Hst1 in *. left. repeat split; assumption.
    + destruct (Rgt_dec score (bestScore st)) as [Hgt|Hle]; destruct Hst1 as [Hs1 Hm1].
      * right. exists [], entry, (candidates unknownFingerprint userId database).
        rewrite Hs1 in *.
        repeat split; first [assumption | simpl; congruence | simpl; lra | constructor].
      * left. rewrite Hs1 in *.
        repeat split; first [assumption | congruence | idtac].
        constructor; [simpl; lra | exact Hall].
    + rewrite Hst1 in *. right. exists l1, e, l2. repeat split; assumption.
    + right. exists (entry :: l1), e, l2. rewrite Hc.
      destruct (Rgt_dec score (bestScore st)) as [Hgt|Hle]; destruct Hst1 as [Hs1 Hm1];
        rewrite Hs1 in *;
        repeat split; first [assumption | lra | idtac];
        (constructor; [simpl; lra | exact H1]).
Qed.

Lemma matchLoop_first (unknownFingerprint : Fingerprint) (userId : option string)
    (database : Database) :
  let st := matchLoop unknownFingerprint userId database in
  let cands := candidates unknownFingerprint userId database in
  (bestScore st = 0 /\ bestMatch st = None /\ Forall (fun e => se_score e <= 0) cands)
  \/ (exists l1 e l2,
        cands = l1 ++ e :: l2
        /\ bestScore st = se_score e
        /\ bestMatch st = Some (se_audioId e)
        /\ 0 < se_score e
        /\ Forall (fun x => se_score x < se_score e) l1
        /\ Forall (fun x => se_score x <= se_score e) l2).
Proof.
  exact (matchLoop_first_from unknownFingerprint userId database (mkMatchState None 0 [])).
Qed.

(** When [matchAudio] reports a match, and when it must. *)
Lemma matchAudio_first_best (unknownFingerprint : Fingerprint) (threshold : R)
    (userId : option string) (database : Database) :
  let result := matchAudio unknownFingerprint threshold userId database in
  let cands := candidates unknownFingerprint userId database in
  (forall id, r_match result = Some id ->
     threshold <= r_confidence result
     /\ 0 < r_confidence result
     /\ exists l1 e l2,
          cands = l1 ++ e :: l2
          /\ se_audioId e = id
          /\ se_score e = r_confidence result
          /\ Forall (fun x => se_score x < se_score e) l1
          /\ Forall (fun x => se_score x <= se_score e) l2)
  /\ (forall e, In e cands -> 0 < se_score e -> threshold <= se_score e ->
        r_match result <> None).
Proof.
  cbv zeta. pose proof (matchLoop_first unknownFingerprint userId database) as Hfirst.
  cbv zeta in Hfirst. split.
  - intros id Hm. rewrite matchAudio_confidence.
    unfold matchAudio in Hm.
    destruct (Rge_dec _ threshold) as [Hge|_]; [|discriminate]. cbn [r_match] in Hm.
    destruct Hfirst as [(_ & Hnone & _)|(l1 & e & l2 & Hc & Hs & Hbm & Hpos & H1 & H2)];
      [congruence|].
    rewrite Hs in *. split; [lra|]. split; [exact Hpos|].
    exists l1, e, l2. repeat split; try assumption. congruence.
  - intros e Hin Hpos Hthr.
    unfold matchAudio.
    destruct Hfirst as [(_ & _ & Hall)|(l1 & e' & l2 & Hc & Hs & Hbm & Hpos' & H1 & H2)].
    + rewrite Forall_forall in Hall. specialize (Hall e Hin). lra.
    + assert (Hle : se_score e <= se_score e').
      { rewrite Hc in Hin. apply in_app_or in Hin.
        rewrite Forall_forall in H1, H2.
        destruct Hin as [Hin|[<-|Hin]]; [left; now apply H1 | lra | now apply H2]. }
      destruct (Rge_dec _ threshold) as [_|Hn]; cbn [r_match].
      * rewrite Hbm. discriminate.
      * exfalso. apply Hn. rewrite Hs. lra.
Qed.

(** X6.  A reported match is sound and the tie-break is store order: when
    [matchAudio] returns a match, the confidence is positive and at least
    the threshold, and the match is the first candidate (in store order,
    among those passing the owner filter) whose score is the largest, that
    score being the confidence.  Conversely a candidate with a positive
    score at or above the threshold guarantees a match. *)
Theorem match_is_first_best (unknownFingerprint : Fingerprint) (threshold : R)
    (userId : option string) (database : Database) :
  let result := matchAudio unknownFingerprint threshold userId database in
  let cands := candidates unknownFingerprint userId database in
  (forall id, r_match result = Some id ->
     threshold <= r_confidence result
     /\ 0 < r_confidence result
     /\ exists l1 e l2,
          cands = l1 ++ e :: l2
          /\ se_audioId e = id
          /\ se_score e = r_confidence result
          /\ Forall (fun x => se_score x < se_score e) l1
          /\ Forall (fun x => se_score x <= se_score e) l2)
  /\ (forall e, In e cands -> 0 < se_score e -> threshold <= se_score e ->
        r_match result <> None).
Proof. exact (matchAudio_first_best unknownFingerprint threshold userId database). Qed.

Lemma skipped_false_owner (userId : option string) (storedData : StoredData) :
  truthy userId = true -> skipped userId storedData = false ->
  storedUserId storedData = userId /\ Some (userIdOrUnknown storedData) = userId.
Proof.
  unfold skipped, userIdOrUnknown. intros Ht. rewrite Ht. simpl.
  destruct userId as [u|]; [|discriminate]. simpl in Ht.
  destruct (storedUserId storedData) as [x|]; simpl; [|discriminate].
  intros Hne. apply negb_false_iff, String.eqb_eq in Hne. subst x.
  split; [reflexivity|].
  destruct (String.eqb u EmptyString); [discriminate | reflexivity].
Qed.

Lemma negb_skipped_strictEqual (userId : option string) (storedData : StoredData) :
  truthy userId = true ->
  negb (skipped userId storedData) = strictEqual (storedUserId storedData) userId.
Proof. intros Ht. unfold skipped, strictEqual. now rewrite Ht. Qed.

Lemma candidates_ids (unknownFingerprint : Fingerprint) (userId : option string)
    (database : Database) :
  map se_audioId (candidates unknownFingerprint userId database)
  = getAllAudioIds userId database.
Proof.
  unfold candidates, getAllAudioIds. rewrite map_map. cbn [se_audioId].
  destruct (truthy userId) eqn:Ht.
  - f_equal. apply filter_ext. intros kv. now apply negb_skipped_strictEqual.
  - f_equal. unfold skipped. rewrite Ht. simpl.
    induction database as [|kv rest IH]; simpl; [reflexivity | now rewrite IH].
Qed.

(** X7.  The owner filter is the same everywhere: the ids ranked by
    [matchAudio] are, up to order, the ids [getAllAudioIds] lists for the
    same owner, which are the ids of [getAllFingerprints] in the same order;
    and under a non-empty owner filter every ranked entry carries that
    owner. *)
Theorem owner_filter_consistent (unknownFingerprint : Fingerprint) (threshold : R)
    (userId : option string) (database : Database) :
  let result := matchAudio unknownFingerprint threshold userId database in
  Permutation (map se_audioId (r_allScores result)) (getAllAudioIds userId database)
  /\ map fi_audioId (getAllFingerprints userId database) = getAllAudioIds userId database
  /\ (truthy userId = true ->
      Forall (fun e => Some (se_userId e) = userId) (r_allScores result)).
Proof.
  cbv zeta. rewrite matchAudio_allScores. split; [|split].
  - rewrite <- (candidates_ids unknownFingerprint userId database).
    apply Permutation_map, sortDesc_perm.
  - rewrite <- (candidates_ids unknownFingerprint userId database).
    unfold getAllFingerprints, candidates. now rewrite !map_map.
  - intros Ht. apply Forall_forall. intros e Hin.
    apply (Permutation_in _ (sortDesc_perm se_score _)) in Hin.
    unfold candidates in Hin. apply in_map_iff in Hin.
    destruct Hin as ([k d] & <- & Hf). apply filter_In in Hf.
    destruct Hf as [_ Hns]. cbn [fst snd se_userId] in *.
    apply negb_true_iff in Hns.
    apply (skipped_false_owner userId d Ht Hns).
Qed.

Lemma mapSet_In (audioId : string) (value : StoredData) (database : Database) :
  In (audioId, value) (mapSet audioId value database).
Proof. apply mapGet_In, mapGet_mapSet_same. Qed.

Lemma candidates_In_inv (unknownFingerprint : Fingerprint) (userId : option string)
    (database : Database) (e : ScoreEntry) :
  In e (candidates unknownFingerprint userId database) ->
  exists storedData,
    In (se_audioId e, storedData) database
    /\ skipped userId storedData = false
    /\ se_score e = compareFingerprints unknownFingerprint (storedFingerprint storedData).
Proof.
  unfold candidates. intros Hin. apply in_map_iff in Hin.
  destruct Hin as ([k d] & <- & Hf). apply filter_In in Hf. destruct Hf as [Hin Hns].
  exists d. cbn [fst snd se_audioId se_score] in *.
  apply negb_true_iff in Hns. repeat split; assumption.
Qed.

(** X8.  Register, then match the same clip.  After [storeAudio] of a
    fingerprint of at least 10 frames, [matchAudio] on that fingerprint,
    without owner filter or filtered to the owner it was stored under, has
    confidence 1; for a threshold of at most 1 it reports a match whose
    stored fingerprint scores 1, and that match is the stored id itself when
    the store was empty before. *)
Theorem register_then_match (fingerprint : Fingerprint) (audioId : string)
    (owner : option string) (timestamp : string) (database : Database)
    (threshold : R) (userId : option string) :
  (10 <= length fingerprint)%nat ->
  truthy userId = false \/ userId = owner ->
  let database' := storeAudio fingerprint audioId owner timestamp database in
  let result := matchAudio fingerprint threshold userId database' in
  r_confidence result = 1
  /\ (threshold <= 1 ->
      exists id storedData,
        r_match result = Some id
        /\ In (id, storedData) database'
        /\ compareFingerprints fingerprint (storedFingerprint storedData) = 1)
  /\ (threshold <= 1 -> database = [] -> r_match result = Some audioId).
Proof.
  intros Hlen Hfilter. cbv zeta.
  set (database' := storeAudio fingerprint audioId owner timestamp database).
  assert (Hin : In (audioId, Entry fingerprint owner timestamp) database')
    by apply mapSet_In.
  assert (Hskip : skipped userId (Entry fingerprint owner timestamp) = false).
  { unfold skipped. destruct Hfilter as [Ht| ->]; [now rewrite Ht|].
    cbn [storedUserId]. destruct owner as [u|]; simpl; [|reflexivity].
    rewrite String.eqb_refl. simpl. apply andb_false_r. }
  assert (Hconf : r_confidence (matchAudio fingerprint threshold userId database') = 1).
  { pose proof (matchAudio_confidence_ge fingerprint threshold userId database' _ _ Hin Hskip)
      as Hge.
    cbn [storedFingerprint] in Hge. rewrite (compareFingerprints_self _ Hlen) in Hge.
    pose proof (matchLoop_bestScore_bounds fingerprint userId database') as Hle.
    rewrite <- (matchAudio_confidence fingerprint threshold userId database') in Hle.
    lra. }
  pose proof (candidates_In fingerprint userId database' _ _ Hin Hskip) as Hcand.
  cbn [storedFingerprint] in Hcand. rewrite (compareFingerprints_self _ Hlen) in Hcand.
  pose proof (matchAudio_first_best fingerprint threshold userId database') as [Hsound Hcompl].
  split; [exact Hconf|]. split.
  - intros Hthr.
    destruct (r_match (matchAudio fingerprint threshold userId database')) as [id|] eqn:Hm.
    + destruct (Hsound id eq_refl) as (_ & _ & l1 & e & l2 & Hc & Hid & Hs & _).
      assert (Hine : In e (candidates fingerprint userId database'))
        by (rewrite Hc; apply in_or_app; right; now left).
      destruct (candidates_In_inv _ _ _ _ Hine) as (d & Hd & _ & Hscore).
      exists id, d. rewrite Hid in Hd. repeat split; [exact Hd|]. congruence.
    + exfalso. apply (Hcompl _ Hcand); simpl; [lra | lra | reflexivity].
  - intros Hthr ->.
    destruct (r_match (matchAudio fingerprint threshold userId database')) as [id|] eqn:Hm.
    + destruct (Hsound id eq_refl) as (_ & _ & l1 & e & l2 & Hc & Hid & _).
      assert (Hine : In e (candidates fingerprint userId database'))
        by (rewrite Hc; apply in_or_app; right; now left).
      destruct (candidates_In_inv _ _ _ _ Hine) as (d & Hd & _).
      unfold database', storeAudio in Hd. simpl in Hd.
      destruct Hd as [Heq|[]]. inversion Heq. congruence.
    + exfalso. apply (Hcompl _ Hcand); simpl; [lra | lra | reflexivity].
Qed.

Lemma register_then_match_witness :
  (10 <= length silentClip)%nat
  /\ r_confidence
       (matchAudio silentClip 0.85 None
          (storeAudio silentClip "clap"%string (Some "u1"%string) ""%string [])) = 1
  /\ r_match
       (matchAudio silentClip 0.85 None
          (storeAudio silentClip "clap"%string (Some "u1"%string) ""%string []))
     = Some "clap"%string.
Proof.
  assert (Hlen : (10 <= length silentClip)%nat) by (simpl; lia).
  assert (Hfilter : truthy None = false \/ None = Some "u1"%string) by (left; reflexivity).
  pose proof (register_then_match silentClip "clap"%string (Some "u1"%string) ""%string
                [] 0.85 None Hlen Hfilter) as H.
  cbv zeta in H. destruct H as (Hconf & _ & Hid).
  split; [exact Hlen|]. split; [exact Hconf|].
  apply Hid; [lra | reflexivity].
Defined.

(** ** The match endpoint *)

Lemma effectiveThreshold_default (threshold : option R) :
  threshold = None \/ threshold = Some 0 ->
  effectiveThreshold threshold = 0.85.
Proof.
  intros [-> | ->]; unfold effectiveThreshold, MATCHING_CONFIG.DEFAULT_THRESHOLD;
    [reflexivity|].
  destruct (Req_dec_T 0 0) as [_|Hn]; [reflexivity | now destruct Hn].
Qed.

(** X9.  The handler of [POST /api/audio/match].  It calls
    [sendPushNotification] only together with a "match found" answer, for a
    request carrying a user id, and with a confidence of at least 0.80 and
    at least the threshold in force; the call gets as far as handing a
    message to Expo only when [deviceTokens] holds a non-empty token for
    that user which [Expo.isExpoPushToken] accepts.  A missing threshold
    and the threshold 0 both mean 0.85, and then every "match found" answer
    to a request with a user id makes the call: the 0.80 floor only has an
    effect under an explicit lower threshold.  Every confidence answered
    lies in [0, 1]. *)
Theorem matchEndpoint_notification (isExpoPushToken : string -> bool)
    (deviceTokens : DeviceTokens) (req : MatchRequest) (fileExists : bool)
    (unknownFingerprint : Fingerprint) (database : Database) :
  let response :=
    fst (matchEndpoint isExpoPushToken deviceTokens req fileExists
           unknownFingerprint database) in
  let push :=
    snd (matchEndpoint isExpoPushToken deviceTokens req fileExists
           unknownFingerprint database) in
  (forall outcome, push = Some outcome ->
   exists userId,
     req_userId req = Some userId /\ userId <> EmptyString
     /\ outcome = sendPushNotification isExpoPushToken deviceTokens userId
     /\ exists id confidence ranked,
          response = MatchFound id confidence ranked
          /\ 0.80 <= confidence
          /\ effectiveThreshold (req_threshold req) <= confidence)
  /\ (forall pushToken, push = Some (Submitted pushToken) ->
      exists userId,
        req_userId req = Some userId
        /\ tokenGet userId deviceTokens = Some pushToken
        /\ pushToken <> EmptyString
        /\ isExpoPushToken pushToken = true)
  /\ (req_threshold req = None \/ req_threshold req = Some 0 ->
      forall id confidence ranked,
        response = MatchFound id confidence ranked ->
        0.85 <= confidence
        /\ (forall userId,
              req_userId req = Some userId -> userId <> EmptyString ->
              push = Some (sendPushNotification isExpoPushToken deviceTokens userId)))
  /\ (forall id confidence ranked,
        response = MatchFound id confidence ranked ->
        effectiveThreshold (req_threshold req) <= confidence /\ 0 < confidence <= 1)
  /\ (forall confidence ranked,
        response = NoMatchFound confidence ranked -> 0 <= confidence <= 1).
Proof.
  cbv zeta. unfold matchEndpoint.
  destruct (truthy (req_audioFilePath req)); cbn [negb];
    [|repeat split; try discriminate; intros; discriminate].
  destruct fileExists; cbn [negb];
    [|repeat split; try discriminate; intros; discriminate].
  cbn [fst snd].
  set (threshold := effectiveThreshold (req_threshold req)).
  set (result := matchAudio unknownFingerprint threshold (filterUserId req) database).
  pose proof (matchAudio_first_best unknownFingerprint threshold (filterUserId req) database)
    as [Hsound _]. cbv zeta in Hsound. fold result in Hsound.
  assert (Hrange : 0 <= r_confidence result <= 1).
  { unfold result. rewrite matchAudio_confidence. apply matchLoop_bestScore_bounds. }
  assert (Hfound : forall id confidence ranked,
            match r_match result with
            | Some id0 =>
                if String.eqb id0 EmptyString
                then NoMatchFound (r_confidence result) (r_allScores result)
                else MatchFound id0 (r_confidence result) (r_allScores result)
            | None => NoMatchFound (r_confidence result) (r_allScores result)
            end = MatchFound id confidence ranked ->
            truthy (r_match result) = true
            /\ confidence = r_confidence result
            /\ threshold <= confidence /\ 0 < confidence).
  { intros id confidence ranked Hresp.
    destruct (r_match result) as [id0|] eqn:Hm; [|discriminate].
    destruct (Hsound id0 eq_refl) as (Hthr & Hpos & _).
    simpl. destruct (String.eqb id0 EmptyString); [discriminate|].
    inversion Hresp; subst. repeat split; assumption. }
  assert (Hcall : forall outcome,
            (if notifies req result then
               match req_userId req with
               | Some userId =>
                   Some (sendPushNotification isExpoPushToken deviceTokens userId)
               | None => None
               end
             else None) = Some outcome ->
            exists userId,
              req_userId req = Some userId /\ userId <> EmptyString
              /\ outcome = sendPushNotification isExpoPushToken deviceTokens userId
              /\ truthy (r_match result) = true
              /\ 0.80 <= r_confidence result).
  { intros outcome Hpush.
    destruct (notifies req result) eqn:Hn; [|discriminate].
    unfold notifies, MATCHING_CONFIG.MIN_NOTIFICATION_CONFIDENCE in Hn.
    apply andb_prop in Hn. destruct Hn as [Hn Hfloor].
    apply andb_prop in Hn. destruct Hn as [Hmatch Huser].
    destruct (req_userId req) as [userId|]; [|discriminate].
    injection Hpush as <-. exists userId.
    split; [reflexivity|]. split.
    { intros ->. discriminate Huser. }
    split; [reflexivity|]. split; [exact Hmatch|].
    destruct (Rge_dec (r_confidence result) 0.80) as [Hge|_]; [lra | discriminate]. }
  split; [|split; [|split; [|split]]].
  - intros outcome Hpush.
    destruct (Hcall outcome Hpush) as (userId & Hu & Hne & Hout & Hmatch & Hfloor).
    exists userId. split; [exact Hu|]. split; [exact Hne|]. split; [exact Hout|].
    destruct (r_match result) as [id0|] eqn:Hm; [|discriminate].
    destruct (Hsound id0 eq_refl) as (Hthr & _).
    simpl in Hmatch. apply negb_true_iff in Hmatch. rewrite Hmatch.
    exists id0, (r_confidence result), (r_allScores result).
    split; [reflexivity|]. split; lra.
  - intros pushToken Hpush.
    destruct (Hcall _ Hpush) as (userId & Hu & _ & Hout & _).
    exists userId. split; [exact Hu|].
    unfold sendPushNotification in Hout. cbv zeta in Hout.
    destruct (tokenGet userId deviceTokens) as [token|]; [|discriminate].
    destruct (truthy (Some token)) eqn:Htruthy; cbn [negb] in Hout; [|discriminate].
    destruct (isExpoPushToken token) eqn:Hvalid; cbn [negb] in Hout; [|discriminate].
    injection Hout as ->.
    split; [reflexivity|]. split; [|exact Hvalid].
    intros ->. discriminate Htruthy.
  - intros Hdefault id confidence ranked Hresp.
    destruct (Hfound id confidence ranked Hresp) as (Hmatch & Hconf & Hthr & _).
    unfold threshold in Hthr. rewrite (effectiveThreshold_default _ Hdefault) in Hthr.
    split; [exact Hthr|]. intros userId Hu Hne.
    unfold notifies, MATCHING_CONFIG.MIN_NOTIFICATION_CONFIDENCE.
    rewrite Hmatch, Hu. cbn [truthy andb].
    destruct (String.eqb userId EmptyString) eqn:He.
    { apply String.eqb_eq in He. contradiction. }
    cbn [negb].
    destruct (Rge_dec (r_confidence result) 0.80) as [_|Hn]; [reflexivity|].
    exfalso. apply Hn. lra.
  - intros id confidence ranked Hresp.
    destruct (Hfound id confidence ranked Hresp) as (_ & Hconf & Hthr & Hpos).
    split; [exact Hthr|]. lra.
  - intros confidence ranked Hresp.
    destruct (r_match result) as [id0|]; [destruct (String.eqb id0 EmptyString)|];
      inversion Hresp; subst; exact Hrange.
Qed.

(** ** Time-domain features *)

Lemma Rsqr_le_peak (x : R) (samples : list R) :
  In x samples -> x * x <= peak samples * peak samples.
Proof.
  intros Hin. pose proof (peak_ge x samples Hin) as Hx.
  apply Rabs_le_between in Hx. nra.
Qed.

Lemma sum_squares_le_peak (samples : list R) :
  sum (map (fun x => x * x) samples)
  <= peak samples * peak samples * INR (length samples).
Proof.
  rewrite <- (length_map (fun x => x * x) samples).
  apply (sum_bounds 0 (peak samples * peak samples)).
  apply Forall_forall. intros y Hin. apply in_map_iff in Hin.
  destruct Hin as (x & <- & Hx). split; [nra | now apply Rsqr_le_peak].
Qed.

Lemma sum_squares_nonneg (samples : list R) : 0 <= sum (map (fun x => x * x) samples).
Proof.
  assert (H : 0 * INR (length (map (fun x => x * x) samples))
              <= sum (map (fun x => x * x) samples)).
  { apply (sum_bounds 0 (peak samples * peak samples)).
    apply Forall_forall. intros y Hin. apply in_map_iff in Hin.
    destruct Hin as (x & <- & Hx). split; [nra | now apply Rsqr_le_peak]. }
  lra.
Qed.

Lemma sum_all_zero (xs : list R) : Forall (fun x => x = 0) xs -> sum xs = 0.
Proof. intros H. rewrite (sum_constant 0 xs H). lra. Qed.

Lemma calculateEnergy_range_facts (samples : list R) :
  samples <> [] ->
  0 <= calculateEnergy samples <= peak samples
  /\ (Forall (fun x => x = 0) samples -> calculateEnergy samples = 0).
Proof.
  intros Hne. unfold calculateEnergy. rewrite fold_left_squares_acc, Rplus_0_l.
  assert (Hn : 0 < INR (length samples)).
  { apply lt_0_INR. destruct samples; [congruence | simpl; lia]. }
  split; [split|].
  - apply sqrt_pos.
  - rewrite <- (sqrt_square (peak samples)) by apply peak_nonneg.
    apply sqrt_le_1_alt.
    apply (Rmult_le_reg_r (INR (length samples))); [exact Hn|].
    unfold Rdiv. rewrite Rmult_assoc, Rinv_l, Rmult_1_r by lra.
    apply sum_squares_le_peak.
  - intros Hz. rewrite sum_all_zero.
    + unfold Rdiv. rewrite Rmult_0_l. apply sqrt_0.
    + apply Forall_map. eapply Forall_impl; [|exact Hz]. simpl. intros x ->. lra.
Qed.

(** X10.  [calculateEnergy] of a non-empty buffer lies between 0 and the
    buffer's largest absolute sample, and is 0 on a silent buffer. *)
Theorem calculateEnergy_range (samples : list R) :
  samples <> [] ->
  0 <= calculateEnergy samples <= peak samples
  /\ (Forall (fun x => x = 0) samples -> calculateEnergy samples = 0).
Proof. exact (calculateEnergy_range_facts samples). Qed.

Lemma calculateEnergy_range_witness :
  [1; -1] <> [] /\ 0 <= calculateEnergy [1; -1] <= peak [1; -1].
Proof.
  assert (Hne : [1; -1] <> []) by discriminate.
  split; [exact Hne|]. apply (calculateEnergy_range [1; -1] Hne).
Defined.

Lemma crossingsFrom_le (prev : R) (rest : list R) :
  (crossingsFrom prev rest <= length rest)%nat.
Proof.
  revert prev. induction rest as [|x rest IH]; intros prev; simpl; [lia|].
  specialize (IH x). destruct (crosses prev x); lia.
Qed.

Lemma crosses_nonneg (prev cur : R) : 0 <= prev -> 0 <= cur -> crosses prev cur = false.
Proof.
  intros Hp Hc. unfold crosses.
  destruct (Rlt_dec prev 0); [lra|]. destruct (Rlt_dec cur 0); [lra|].
  destruct (Rge_dec cur 0); reflexivity.
Qed.

Lemma crosses_negative (prev cur : R) : prev < 0 -> cur < 0 -> crosses prev cur = false.
Proof.
  intros Hp Hc. unfold crosses.
  destruct (Rge_dec cur 0); [lra|]. destruct (Rge_dec prev 0); [lra|].
  destruct (Rlt_dec cur 0); reflexivity.
Qed.

Lemma crossingsFrom_same_sign (prev : R) (rest : list R) :
  (0 <= prev /\ Forall (fun x => 0 <= x) rest)
  \/ (prev < 0 /\ Forall (fun x => x < 0) rest) ->
  crossingsFrom prev rest = 0%nat.
Proof.
  revert prev. induction rest as [|x rest IH]; intros prev H; simpl; [reflexivity|].
  destruct H as [[Hp Hall]|[Hp Hall]]; inversion Hall; subst.
  - rewrite crosses_nonneg by assumption. apply IH. left. now split.
  - rewrite crosses_negative by assumption. apply IH. right. now split.
Qed.

Lemma calculateZeroCrossingRate_range_facts (samples : list R) :
  samples <> [] ->
  0 <= calculateZeroCrossingRate samples < 1
  /\ (Forall (fun x => 0 <= x) samples \/ Forall (fun x => x < 0) samples ->
      calculateZeroCrossingRate samples = 0).
Proof.
  intros Hne. destruct samples as [|x0 rest]; [congruence|].
  unfold calculateZeroCrossingRate.
  pose proof (crossingsFrom_le x0 rest) as Hle.
  assert (Hn : 0 < INR (length (x0 :: rest))) by (apply lt_0_INR; simpl; lia).
  split; [split|].
  - apply Rmult_le_pos; [apply pos_INR | left; now apply Rinv_0_lt_compat].
  - apply (Rmult_lt_reg_r (INR (length (x0 :: rest)))); [exact Hn|].
    unfold Rdiv. rewrite Rmult_assoc, Rinv_l, Rmult_1_r, Rmult_1_l by lra.
    apply lt_INR. simpl. lia.
  - intros Hsign. rewrite crossingsFrom_same_sign.
    + simpl INR at 1. unfold Rdiv. apply Rmult_0_l.
    + destruct Hsign as [H|H]; inversion H; subst; [left | right]; now split.
Qed.

(** X11.  [calculateZeroCrossingRate] of a non-empty buffer lies in
    [0, 1): a buffer of [n] samples has at most [n - 1] crossings, divided
    by [n].  It is 0 when no sample is negative and when every sample is. *)
Theorem calculateZeroCrossingRate_range (samples : list R) :
  samples <> [] ->
  0 <= calculateZeroCrossingRate samples < 1
  /\ (Forall (fun x => 0 <= x) samples \/ Forall (fun x => x < 0) samples ->
      calculateZeroCrossingRate samples = 0).
Proof. exact (calculateZeroCrossingRate_range_facts samples). Qed.

Lemma calculateZeroCrossingRate_range_witness :
  [1; -1] <> [] /\ 0 <= calculateZeroCrossingRate [1; -1] < 1.
Proof.
  assert (Hne : [1; -1] <> []) by discriminate.
  split; [exact Hne|]. apply (calculateZeroCrossingRate_range [1; -1] Hne).
Defined.

(** ** Spectral flux *)

Lemma flux_fold_acc (pairs : list (R * R)) (a : R) :
  fold_left (fun acc (p : R * R) => let diff := fst p - snd p in acc + diff * diff) pairs a
  = a + sum (map (fun p : R * R => (fst p - snd p) * (fst p - snd p)) pairs).
Proof.
  revert a. induction pairs as [|p pairs IH]; intros a; simpl.
  - rewrite sum_nil. lra.
  - rewrite IH, sum_cons. lra.
Qed.

Lemma flux_terms_sym (spectrum1 spectrum2 : list R) :
  map (fun p : R * R => (fst p - snd p) * (fst p - snd p)) (combine spectrum1 spectrum2)
  = map (fun p : R * R => (fst p - snd p) * (fst p - snd p)) (combine spectrum2 spectrum1).
Proof.
  revert spectrum2. induction spectrum1 as [|a s1 IH]; intros [|b s2]; simpl; auto.
  rewrite IH. f_equal. ring.
Qed.

Lemma flux_terms_self (spectrum : list R) :
  Forall (fun x => x = 0)
    (map (fun p : R * R => (fst p - snd p) * (fst p - snd p)) (combine spectrum spectrum)).
Proof.
  induction spectrum as [|a s IH]; simpl; constructor; [ring | exact IH].
Qed.

Lemma combine_app_longer (s1 extra s2 : list R) :
  (length s2 <= length s1)%nat -> combine (s1 ++ extra) s2 = combine s1 s2.
Proof.
  revert s2. induction s1 as [|a s1 IH]; intros [|b s2] Hle; simpl in *; auto.
  - destruct extra; reflexivity.
  - lia.
  - rewrite IH; [reflexivity | lia].
Qed.

(** X12.  [calculateSpectralFluxBetween] is symmetric, non-negative on
    non-empty spectra, 0 between a non-empty spectrum and itself, and
    ignores the bins of the longer spectrum beyond the length of the shorter
    one. *)
Theorem calculateSpectralFluxBetween_properties (spectrum1 spectrum2 : list R) :
  calculateSpectralFluxBetween spectrum1 spectrum2
  = calculateSpectralFluxBetween spectrum2 spectrum1
  /\ (spectrum1 <> [] -> spectrum2 <> [] ->
      0 <= calculateSpectralFluxBetween spectrum1 spectrum2)
  /\ (spectrum1 <> [] -> calculateSpectralFluxBetween spectrum1 spectrum1 = 0)
  /\ (forall extra, (length spectrum2 <= length spectrum1)%nat ->
        calculateSpectralFluxBetween (spectrum1 ++ extra) spectrum2
        = calculateSpectralFluxBetween spectrum1 spectrum2).
Proof.
  unfold calculateSpectralFluxBetween. split; [|split; [|split]].
  - rewrite !flux_fold_acc, flux_terms_sym, (Nat.min_comm (length spectrum2)).
    reflexivity.
  - intros _ _. apply sqrt_pos.
  - intros _. rewrite flux_fold_acc, (sum_all_zero _ (flux_terms_self spectrum1)).
    unfold Rdiv. rewrite Rplus_0_l, Rmult_0_l. apply sqrt_0.
  - intros extra Hle. rewrite combine_app_longer by exact Hle.
    rewrite length_app. do 2 f_equal. f_equal. lia.
Qed.

(** ** Spectral centroid *)

Lemma indexed_In (xs : list R) (i : nat) (x : R) :
  In (i, x) (indexed xs) -> (i < length xs)%nat /\ In x xs.
Proof.
  unfold indexed. intros Hin. split.
  - apply in_combine_l in Hin. apply in_seq in Hin. lia.
  - now apply in_combine_r in Hin.
Qed.

(** The two accumulators of [calculateSpectralCentroid] over bins with
    non-negative magnitudes and frequencies in [0, top]. *)
Lemma centroid_fold_bounds (n : nat) (nyquist top : R) (bins : list (nat * R))
    (weightedSum total : R) :
  Forall (fun p : nat * R =>
            0 <= snd p /\ 0 <= (INR (fst p) / INR n) * nyquist <= top) bins ->
  let st :=
    fold_left
      (fun (st : R * R) (p : nat * R) =>
         let frequency := (INR (fst p) / INR n) * nyquist in
         (fst st + frequency * snd p, snd st + snd p))
      bins (weightedSum, total) in
  total <= snd st
  /\ weightedSum <= fst st
  /\ fst st - weightedSum <= top * (snd st - total).
Proof.
  revert weightedSum total.
  induction bins as [|[i x] bins IH]; intros weightedSum total Hall; cbv zeta; simpl.
  - lra.
  - inversion Hall as [|? ? [Hx Hf] Hrest]; subst. simpl in Hx, Hf.
    specialize (IH (weightedSum + INR i / INR n * nyquist * x) (total + x) Hrest).
    cbv zeta in IH. destruct IH as (Ht & Hw & Hb).
    split; [lra|]. split; [nra|]. nra.
Qed.

Lemma centroid_fold_total (frequency : nat -> R) (xs : list R) (start : nat) (w a : R) :
  snd (fold_left
         (fun (st : R * R) (p : nat * R) =>
            (fst st + frequency (fst p) * snd p, snd st + snd p))
         (combine (seq start (length xs)) xs) (w, a))
  = fold_left Rplus xs a.
Proof.
  revert start w a. induction xs as [|x xs IH]; intros start w a; simpl; [reflexivity|].
  apply IH.
Qed.

Lemma calculateSpectralCentroid_range_facts (spectrum : list R) (sampleRate : R) :
  0 < sampleRate ->
  Forall (fun x => 0 <= x) spectrum ->
  0 <= calculateSpectralCentroid spectrum sampleRate < sampleRate / 2
  /\ (sum spectrum = 0 -> calculateSpectralCentroid spectrum sampleRate = 0).
Proof.
  intros Hrate Hnonneg. unfold calculateSpectralCentroid.
  set (n := length spectrum). set (nyquist := sampleRate / 2).
  assert (Hnyq : 0 < nyquist) by (unfold nyquist; lra).
  set (top := (INR (n - 1) / INR n) * nyquist).
  assert (Hbins : Forall (fun p : nat * R =>
                            0 <= snd p /\ 0 <= (INR (fst p) / INR n) * nyquist <= top)
                    (indexed spectrum)).
  { apply Forall_forall. intros [i x] Hin. apply indexed_In in Hin.
    destruct Hin as [Hi Hx]. fold n in Hi. rewrite Forall_forall in Hnonneg.
    simpl. split; [now apply Hnonneg|].
    assert (Hn : 0 < INR n) by (apply lt_0_INR; lia).
    assert (Hinv : 0 < / INR n) by now apply Rinv_0_lt_compat.
    assert (Hile : INR i <= INR (n - 1)) by (apply le_INR; lia).
    pose proof (pos_INR i). unfold top, Rdiv. split.
    - apply Rmult_le_pos; [apply Rmult_le_pos|]; lra.
    - apply Rmult_le_compat_r; [lra|]. apply Rmult_le_compat_r; lra. }
  pose proof (centroid_fold_bounds n nyquist top (indexed spectrum) 0 0 Hbins) as H.
  cbv zeta in H.
  assert (Htotal : snd (fold_left
            (fun (st : R * R) (p : nat * R) =>
               (fst st + INR (fst p) / INR n * nyquist * snd p, snd st + snd p))
            (indexed spectrum) (0, 0)) = sum spectrum).
  { exact (centroid_fold_total (fun i => INR i / INR n * nyquist) spectrum 0 0 0). }
  destruct H as (Ht & Hw & Hb).
  set (st := fold_left _ (indexed spectrum) (0, 0)) in *.
  split.
  - destruct (Rgt_dec (snd st) 0) as [Hpos|_]; [|lra].
    assert (Hinv : 0 < / snd st) by (apply Rinv_0_lt_compat; lra).
    assert (Htop : top < nyquist).
    { destruct (Nat.eq_dec n 0) as [Hz|Hnz].
      - unfold top. rewrite Hz. simpl. unfold Rdiv. rewrite !Rmult_0_l. exact Hnyq.
      - assert (Hn : 0 < INR n) by (apply lt_0_INR; lia).
        assert (Hlt : INR (n - 1) < INR n) by (apply lt_INR; lia).
        unfold top. rewrite <- (Rmult_1_l nyquist) at 2.
        apply Rmult_lt_compat_r; [exact Hnyq|].
        apply (Rmult_lt_reg_r (INR n)); [exact Hn|].
        unfold Rdiv. rewrite Rmult_assoc, Rinv_l; lra. }
    split.
    + apply Rmult_le_pos; lra.
    + apply (Rmult_lt_reg_r (snd st)); [lra|].
      unfold Rdiv. rewrite Rmult_assoc, Rinv_l, Rmult_1_r by lra.
      assert (fst st <= top * snd st) by lra.
      assert (top * snd st < nyquist * snd st) by (apply Rmult_lt_compat_r; lra).
      lra.
  - intros Hzero. rewrite Htotal, Hzero.
    destruct (Rgt_dec 0 0); [lra | reflexivity].
Qed.

(** X13.  [calculateSpectralCentroid] of a spectrum of non-negative
    magnitudes at a positive sample rate lies in [0, nyquist), and is 0 when
    the magnitudes sum to 0 (a silent or empty spectrum). *)
Theorem calculateSpectralCentroid_range (spectrum : list R) (sampleRate : R) :
  0 < sampleRate ->
  Forall (fun x => 0 <= x) spectrum ->
  0 <= calculateSpectralCentroid spectrum sampleRate < sampleRate / 2
  /\ (sum spectrum = 0 -> calculateSpectralCentroid spectrum sampleRate = 0).
Proof. exact (calculateSpectralCentroid_range_facts spectrum sampleRate). Qed.

Lemma calculateSpectralCentroid_range_witness :
  0 < 44100 /\ Forall (fun x => 0 <= x) [1; 2]
  /\ 0 <= calculateSpectralCentroid [1; 2] 44100 < 44100 / 2.
Proof.
  assert (Hrate : 0 < 44100) by lra.
  assert (Hnonneg : Forall (fun x => 0 <= x) [1; 2]) by (repeat constructor; lra).
  split; [exact Hrate|]. split; [exact Hnonneg|].
  apply (calculateSpectralCentroid_range [1; 2] 44100 Hrate Hnonneg).
Defined.

(** ** Spectral rolloff *)

Lemma In_firstn (x : R) (n : nat) (xs : list R) : In x (firstn n xs) -> In x xs.
Proof.
  intros H. rewrite <- (firstn_skipn n xs). apply in_or_app. now left.
Qed.

Lemma In_skipn (x : R) (n : nat) (xs : list R) : In x (skipn n xs) -> In x xs.
Proof.
  intros H. rewrite <- (firstn_skipn n xs). apply in_or_app. now right.
Qed.

Lemma rolloffLoop_Some (threshold : R) (rest : list R) (cumulativeEnergy : R)
    (i k : nat) :
  rolloffLoop threshold cumulativeEnergy i rest = Some k ->
  exists j,
    k = (i + j)%nat /\ (j < length rest)%nat
    /\ threshold <= cumulativeEnergy + sum (firstn (S j) rest)
    /\ forall j', (j' < j)%nat -> cumulativeEnergy + sum (firstn (S j') rest) < threshold.
Proof.
  revert cumulativeEnergy i.
  induction rest as [|x rest IH]; intros c i; simpl; [discriminate|].
  destruct (Rge_dec (c + x) threshold) as [Hge|Hlt].
  - intros [= <-]. exists 0%nat. simpl. rewrite sum_cons, sum_nil.
    repeat split; [lia | lia | lra | intros j' Hj'; lia].
  - intros Hloop. destruct (IH _ _ Hloop) as (j & -> & Hj & Hreach & Hbefore).
    exists (S j). repeat split; [lia | lia | |].
    + cbn [firstn]. rewrite sum_cons. cbn [firstn] in Hreach. lra.
    + intros [|j'] Hj'.
      * simpl. rewrite sum_cons, sum_nil. lra.
      * specialize (Hbefore j' ltac:(lia)). cbn [firstn] in *. rewrite sum_cons. lra.
Qed.

Lemma rolloffLoop_None (threshold : R) (rest : list R) (cumulativeEnergy : R) (i : nat) :
  rolloffLoop threshold cumulativeEnergy i rest = None ->
  forall j, (j < length rest)%nat ->
    cumulativeEnergy + sum (firstn (S j) rest) < threshold.
Proof.
  revert cumulativeEnergy i.
  induction rest as [|x rest IH]; intros c i Hloop j Hj; [simpl in Hj; lia|].
  simpl in Hloop, Hj.
  destruct (Rge_dec (c + x) threshold) as [Hge|Hlt]; [discriminate|].
  cbn [firstn]. rewrite sum_cons. destruct j as [|j].
  - simpl. rewrite sum_nil. lra.
  - specialize (IH _ _ Hloop j ltac:(lia)). lra.
Qed.

Lemma sum_nonneg (xs : list R) : Forall (fun x => 0 <= x) xs -> 0 <= sum xs.
Proof.
  induction 1 as [|x xs Hx _ IH]; [rewrite sum_nil; lra | rewrite sum_cons; lra].
Qed.

Lemma calculateSpectralRolloff_first_bin_facts (spectrum : list R) (sampleRate : R) :
  spectrum <> [] ->
  Forall (fun x => 0 <= x) spectrum ->
  0 < sampleRate ->
  (exists k,
      (k < length spectrum)%nat
      /\ calculateSpectralRolloff spectrum sampleRate
         = (INR k / INR (length spectrum)) * (sampleRate / 2)
      /\ 0.85 * sum spectrum <= sum (firstn (S k) spectrum)
      /\ forall j, (j < k)%nat -> sum (firstn (S j) spectrum) < 0.85 * sum spectrum)
  /\ 0 <= calculateSpectralRolloff spectrum sampleRate < sampleRate / 2
  /\ (sum spectrum = 0 -> calculateSpectralRolloff spectrum sampleRate = 0).
Proof.
  intros Hne Hnonneg Hrate.
  assert (Hlen : (0 < length spectrum)%nat) by (destruct spectrum; [congruence | simpl; lia]).
  assert (Hn : 0 < INR (length spectrum)) by now apply lt_0_INR.
  pose proof (sum_nonneg spectrum Hnonneg) as Htotal.
  unfold calculateSpectralRolloff.
  destruct (rolloffLoop (0.85 * sum spectrum) 0 0 spectrum) as [k|] eqn:Hloop.
  - destruct (rolloffLoop_Some _ _ _ _ _ Hloop) as (j & -> & Hj & Hreach & Hbefore).
    simpl Nat.add. rewrite Rplus_0_l in Hreach.
    assert (Hfrac : 0 <= INR j / INR (length spectrum) < 1).
    { pose proof (pos_INR j). assert (INR j < INR (length spectrum)) by now apply lt_INR.
      split.
      - apply Rmult_le_pos; [lra | left; now apply Rinv_0_lt_compat].
      - apply (Rmult_lt_reg_r (INR (length spectrum))); [exact Hn|].
        unfold Rdiv. rewrite Rmult_assoc, Rinv_l; lra. }
    split; [|split].
    + exists j. repeat split; try assumption.
      intros j' Hj'. specialize (Hbefore j' Hj'). lra.
    + split; [apply Rmult_le_pos; lra | nra].
    + intros Hzero. destruct j as [|j].
      * simpl. unfold Rdiv. rewrite !Rmult_0_l. reflexivity.
      * exfalso. specialize (Hbefore 0%nat ltac:(lia)).
        assert (0 <= sum (firstn 1 spectrum))
          by (apply sum_nonneg, Forall_forall; intros x Hx;
              rewrite Forall_forall in Hnonneg; apply Hnonneg;
              exact (In_firstn _ _ _ Hx)).
        lra.
  - exfalso.
    pose proof (rolloffLoop_None _ _ _ _ Hloop (length spectrum - 1)%nat ltac:(lia)) as H.
    replace (S (length spectrum - 1)) with (length spectrum) in H by lia.
    rewrite firstn_all in H. lra.
Qed.

(** X14.  [calculateSpectralRolloff] of a non-empty spectrum of
    non-negative magnitudes at a positive sample rate is the frequency of
    the first bin at which the cumulative magnitude reaches 85% of the
    total; it lies in [0, nyquist), so the nyquist fallback is not taken,
    and it is 0 for an all-zero spectrum. *)
Theorem calculateSpectralRolloff_first_bin (spectrum : list R) (sampleRate : R) :
  spectrum <> [] ->
  Forall (fun x => 0 <= x) spectrum ->
  0 < sampleRate ->
  (exists k,
      (k < length spectrum)%nat
      /\ calculateSpectralRolloff spectrum sampleRate
         = (INR k / INR (length spectrum)) * (sampleRate / 2)
      /\ 0.85 * sum spectrum <= sum (firstn (S k) spectrum)
      /\ forall j, (j < k)%nat -> sum (firstn (S j) spectrum) < 0.85 * sum spectrum)
  /\ 0 <= calculateSpectralRolloff spectrum sampleRate < sampleRate / 2
  /\ (sum spectrum = 0 -> calculateSpectralRolloff spectrum sampleRate = 0).
Proof. exact (calculateSpectralRolloff_first_bin_facts spectrum sampleRate). Qed.

Lemma calculateSpectralRolloff_first_bin_witness :
  [1; 2] <> [] /\ Forall (fun x => 0 <= x) [1; 2] /\ 0 < 44100
  /\ 0 <= calculateSpectralRolloff [1; 2] 44100 < 44100 / 2.
Proof.
  assert (Hne : [1; 2] <> []) by discriminate.
  assert (Hnonneg : Forall (fun x => 0 <= x) [1; 2]) by (repeat constructor; lra).
  assert (Hrate : 0 < 44100) by lra.
  split; [exact Hne|]. split; [exact Hnonneg|]. split; [exact Hrate|].
  apply (calculateSpectralRolloff_first_bin [1; 2] 44100 Hne Hnonneg Hrate).
Defined.

(** ** Spectral flatness *)

(** The accumulators of [calculateSpectralFlatness] only see the strictly
    positive bins. *)
Lemma flatness_fold (spectrum : list R) (st : FlatnessState) :
  let positive := filter (fun x => if Rgt_dec x 0 then true else false) spectrum in
  fold_left flatnessStep spectrum st
  = mkFlatnessState (fs_logSum st + sum (map ln positive))
      (fs_sum st + sum positive)
      (fs_count st + length positive).
Proof.
  revert st. induction spectrum as [|x spectrum IH]; intros st; cbv zeta; simpl.
  - rewrite !sum_nil, !Rplus_0_r, Nat.add_0_r. now destruct st.
  - rewrite IH. unfold flatnessStep. cbv zeta.
    destruct (Rgt_dec x 0); simpl; [|reflexivity].
    rewrite !sum_cons. f_equal; [lra | lra | lia].
Qed.

Lemma ln_le_minus_1 (y : R) : 0 < y -> ln y <= y - 1.
Proof.
  intros Hy. pose proof (exp_ineq1_le (ln y)) as H.
  rewrite exp_ln in H by exact Hy. lra.
Qed.

(** Sum of logarithms against the logarithm of the mean. *)
Lemma sum_ln_le (mean : R) (xs : list R) :
  0 < mean -> Forall (fun x => 0 < x) xs ->
  sum (map ln xs) <= INR (length xs) * ln mean + sum xs / mean - INR (length xs).
Proof.
  intros Hm. induction 1 as [|x xs Hx _ IH].
  - simpl. rewrite !sum_nil. unfold Rdiv. lra.
  - simpl map. rewrite !sum_cons. change (length (x :: xs)) with (S (length xs)).
    rewrite S_INR.
    assert (Hdiv : 0 < x / mean) by (apply Rdiv_lt_0_compat; assumption).
    pose proof (ln_le_minus_1 (x / mean) Hdiv) as Hln.
    unfold Rdiv in Hln. rewrite ln_mult in Hln by (try apply Rinv_0_lt_compat; assumption).
    rewrite ln_Rinv in Hln by exact Hm.
    unfold Rdiv in *. lra.
Qed.

(** The geometric mean of positive numbers is at most their arithmetic
    mean. *)
Lemma geometric_le_arithmetic (xs : list R) :
  xs <> [] -> Forall (fun x => 0 < x) xs ->
  exp (sum (map ln xs) / INR (length xs)) <= sum xs / INR (length xs).
Proof.
  intros Hne Hpos.
  assert (Hn : 0 < INR (length xs))
    by (apply lt_0_INR; destruct xs; [congruence | simpl; lia]).
  assert (Hsum : 0 < sum xs) by now apply sum_pos.
  set (mean := sum xs / INR (length xs)).
  assert (Hmean : 0 < mean) by (unfold mean; now apply Rdiv_lt_0_compat).
  pose proof (sum_ln_le mean xs Hmean Hpos) as H.
  assert (Hcancel : sum xs / mean = INR (length xs)).
  { unfold mean. field. split; lra. }
  rewrite Hcancel in H.
  rewrite <- (exp_ln mean Hmean).
  assert (Hle : sum (map ln xs) / INR (length xs) <= ln mean).
  { apply (Rmult_le_reg_r (INR (length xs))); [exact Hn|].
    unfold Rdiv. rewrite Rmult_assoc, Rinv_l; lra. }
  destruct Hle as [Hlt| ->]; [left; now apply exp_increasing | right; reflexivity].
Qed.

(** On exact reals the ratio of the two means is at most 1.  The doubles
    of the code round [Math.log], [Math.exp] and the two divisions, and on
    a flat spectrum the ratio can exceed 1 in the last places, so the upper
    bound is a fact of the arithmetic, not of the program. *)
Lemma calculateSpectralFlatness_range_facts (spectrum : list R) :
  0 <= calculateSpectralFlatness spectrum <= 1
  /\ ((exists x, In x spectrum /\ 0 < x) -> 0 < calculateSpectralFlatness spectrum)
  /\ (Forall (fun x => x <= 0) spectrum -> calculateSpectralFlatness spectrum = 0).
Proof.
  unfold calculateSpectralFlatness.
  pose proof (flatness_fold spectrum (mkFlatnessState 0 0 0)) as Hfold.
  cbv zeta in Hfold. rewrite Hfold. cbn [fs_logSum fs_sum fs_count]. clear Hfold.
  remember (filter (fun x => if Rgt_dec x 0 then true else false) spectrum)
    as positive eqn:Hdef.
  rewrite !Rplus_0_l, Nat.add_0_l.
  assert (Hfilter : forall x, In x positive <-> In x spectrum /\ 0 < x).
  { intros x. rewrite Hdef, filter_In.
    destruct (Rgt_dec x 0); split; intros [Hin Hx]; split;
      solve [assumption | reflexivity | lra | discriminate]. }
  assert (Hpos : Forall (fun x => 0 < x) positive).
  { apply Forall_forall. intros x Hin. now apply Hfilter. }
  destruct (length positive =? 0)%nat eqn:Hcount.
  - apply Nat.eqb_eq in Hcount. split; [lra|]. split; [|reflexivity].
    intros (x & Hin & Hx). exfalso.
    assert (Hinp : In x positive) by (apply Hfilter; now split).
    destruct positive; [destruct Hinp | discriminate].
  - apply Nat.eqb_neq in Hcount.
    assert (Hne : positive <> []) by (intros H; rewrite H in Hcount; now apply Hcount).
    assert (Hn : 0 < INR (length positive)) by (apply lt_0_INR; lia).
    assert (Harith : 0 < sum positive / INR (length positive))
      by (apply Rdiv_lt_0_compat; [now apply sum_pos | exact Hn]).
    pose proof (geometric_le_arithmetic positive Hne Hpos) as Hgm.
    pose proof (exp_pos (sum (map ln positive) / INR (length positive))) as Hgpos.
    destruct (Rgt_dec (sum positive / INR (length positive)) 0) as [_|Hn0]; [|lra].
    assert (Hratio : 0 < exp (sum (map ln positive) / INR (length positive))
                         / (sum positive / INR (length positive)) <= 1).
    { split; [now apply Rdiv_lt_0_compat|].
      apply (Rmult_le_reg_r (sum positive / INR (length positive))); [exact Harith|].
      unfold Rdiv at 1. rewrite Rmult_assoc, Rinv_l; lra. }
    split; [lra|]. split; [intros _; lra|].
    intros Hall. exfalso. destruct positive as [|x rest]; [congruence|].
    destruct (proj1 (Hfilter x) (or_introl eq_refl)) as [Hin Hx].
    rewrite Forall_forall in Hall. specialize (Hall x Hin). lra.
Qed.

(** X15.  [calculateSpectralFlatness] is never negative; it is strictly
    positive as soon as one bin is, and 0 when no bin is strictly positive
    (the bins that are not strictly positive are left out of both means). *)
Theorem calculateSpectralFlatness_range (spectrum : list R) :
  0 <= calculateSpectralFlatness spectrum
  /\ ((exists x, In x spectrum /\ 0 < x) -> 0 < calculateSpectralFlatness spectrum)
  /\ (Forall (fun x => x <= 0) spectrum -> calculateSpectralFlatness spectrum = 0).
Proof.
  destruct (calculateSpectralFlatness_range_facts spectrum) as ([Hlo _] & Hpos & Hzero).
  split; [exact Hlo|]. split; [exact Hpos | exact Hzero].
Qed.

(** ** Peak frequency *)

(** After the first [n] bins of the range, the state of the loop of
    [findPeakFrequency] is either untouched (no positive magnitude seen) or
    holds the first bin of largest magnitude. *)
Lemma peak_fold_invariant (spectrum : list R) (lo : Z) (n : nat) :
  let st :=
    fold_left (peakStep spectrum)
      (map (fun k => (lo + Z.of_nat k)%Z) (seq 0 n)) (0, lo) in
  (fst st = 0 /\ snd st = lo
   /\ forall i x, (lo <= i < lo + Z.of_nat n)%Z -> nthZ spectrum i = Some x -> x <= 0)
  \/ (0 < fst st /\ (lo <= snd st < lo + Z.of_nat n)%Z
      /\ nthZ spectrum (snd st) = Some (fst st)
      /\ forall i x, (lo <= i < lo + Z.of_nat n)%Z -> nthZ spectrum i = Some x ->
           x <= fst st /\ ((i < snd st)%Z -> x < fst st)).
Proof.
  induction n as [|n IH]; cbv zeta.
  - left. simpl. repeat split. intros i x Hi. lia.
  - rewrite seq_S, map_app, fold_left_app. cbn [map fold_left Nat.add].
    cbv zeta in IH.
    set (st := fold_left (peakStep spectrum)
                 (map (fun k => (lo + Z.of_nat k)%Z) (seq 0 n)) (0, lo)) in *.
    unfold peakStep.
    destruct (nthZ spectrum (lo + Z.of_nat n)) as [x|] eqn:Hx.
    + destruct (Rgt_dec x (fst st)) as [Hgt|Hle].
      * right. cbn [fst snd].
        assert (Hnonneg : 0 <= fst st) by (destruct IH as [(-> & _)|(H & _)]; lra).
        split; [lra|]. split; [lia|]. split; [exact Hx|].
        intros i y Hi Hy.
        destruct (Z.eq_dec i (lo + Z.of_nat n)) as [->|Hne].
        -- rewrite Hx in Hy. injection Hy as <-. split; [lra | lia].
        -- assert (Hi' : (lo <= i < lo + Z.of_nat n)%Z) by lia.
           destruct IH as [(Hz & _ & Hall)|(_ & _ & _ & Hall)].
           ++ specialize (Hall i y Hi' Hy). split; [lra | intros _; lra].
           ++ destruct (Hall i y Hi' Hy) as [Hy' _]. split; [lra | intros _; lra].
      * destruct IH as [(Hz & Hb & Hall)|(Hpos & Hb & Hm & Hall)].
        -- left. split; [exact Hz|]. split; [exact Hb|].
           intros i y Hi Hy.
           destruct (Z.eq_dec i (lo + Z.of_nat n)) as [->|Hne].
           ++ rewrite Hx in Hy. injection Hy as <-. lra.
           ++ apply (Hall i y); [lia | exact Hy].
        -- right. split; [exact Hpos|]. split; [lia|]. split; [exact Hm|].
           intros i y Hi Hy.
           destruct (Z.eq_dec i (lo + Z.of_nat n)) as [->|Hne].
           ++ rewrite Hx in Hy. injection Hy as <-. split; [lra | lia].
           ++ apply (Hall i y); [lia | exact Hy].
    + destruct IH as [(Hz & Hb & Hall)|(Hpos & Hb & Hm & Hall)].
      * left. split; [exact Hz|]. split; [exact Hb|].
        intros i y Hi Hy.
        destruct (Z.eq_dec i (lo + Z.of_nat n)) as [->|Hne]; [congruence|].
        apply (Hall i y); [lia | exact Hy].
      * right. split; [exact Hpos|]. split; [lia|]. split; [exact Hm|].
        intros i y Hi Hy.
        destruct (Z.eq_dec i (lo + Z.of_nat n)) as [->|Hne]; [congruence|].
        apply (Hall i y); [lia | exact Hy].
Qed.

(** X16.  The bin [findPeakFrequency] reports at a positive sample rate:
    when some bin of the range [lowBin .. min(highBin, length) - 1] has a
    positive magnitude, it is the first bin of largest magnitude in the
    range; otherwise (no positive magnitude, or an empty range) it is
    [lowBin] itself. *)
Theorem findPeakFrequency_bin (spectrum : list R) (sampleRate lowFreq highFreq : R) :
  0 < sampleRate ->
  let lowBin := fst (peakSpan spectrum sampleRate lowFreq highFreq) in
  let bound := snd (peakSpan spectrum sampleRate lowFreq highFreq) in
  let peakBin := peakBinOf spectrum sampleRate lowFreq highFreq in
  findPeakFrequency spectrum sampleRate lowFreq highFreq
  = (IZR peakBin / INR (length spectrum)) * (sampleRate / 2)
  /\ (forall i x, (lowBin <= i < bound)%Z -> nthZ spectrum i = Some x -> 0 < x ->
        (lowBin <= peakBin < bound)%Z
        /\ exists m, nthZ spectrum peakBin = Some m /\ x <= m
                     /\ ((i < peakBin)%Z -> x < m))
  /\ ((forall i x, (lowBin <= i < bound)%Z -> nthZ spectrum i = Some x -> x <= 0) ->
      peakBin = lowBin).
Proof.
  intros _.
  cbv zeta. unfold findPeakFrequency, peakBinOf.
  destruct (peakSpan spectrum sampleRate lowFreq highFreq) as [lowBin bound].
  cbn [fst snd]. unfold zrange.
  pose proof (peak_fold_invariant spectrum lowBin (Z.to_nat (bound - lowBin))) as H.
  cbv zeta in H.
  set (st := fold_left (peakStep spectrum) _ (0, lowBin)) in *.
  split; [reflexivity|]. split.
  - intros i x Hi Hx Hpos.
    assert (Hi' : (lowBin <= i < lowBin + Z.of_nat (Z.to_nat (bound - lowBin)))%Z) by lia.
    destruct H as [(_ & _ & Hall)|(Hm & Hb & Hnth & Hall)].
    + specialize (Hall i x Hi' Hx). lra.
    + split; [lia|]. exists (fst st). split; [exact Hnth|]. apply (Hall i x Hi' Hx).
  - intros Hnone.
    destruct H as [(_ & Hb & _)|(Hm & Hb & Hnth & _)]; [exact Hb|].
    exfalso. assert (Hr : (lowBin <= snd st < bound)%Z) by lia.
    specialize (Hnone (snd st) (fst st) Hr Hnth). lra.
Qed.

Lemma findPeakFrequency_bin_witness :
  0 < 8
  /\ findPeakFrequency [1; 3; 3; 2] 8 0 4
     = (IZR (peakBinOf [1; 3; 3; 2] 8 0 4) / INR (length [1; 3; 3; 2])) * (8 / 2).
Proof.
  assert (Hrate : 0 < 8) by lra.
  split; [exact Hrate|].
  apply (findPeakFrequency_bin [1; 3; 3; 2] 8 0 4 Hrate).
Defined.

(** ** Hann window *)

Lemma indexed_nth (xs : list R) (i : nat) (d : R) :
  (i < length xs)%nat -> nth i (indexed xs) (0%nat, d) = (i, nth i xs d).
Proof.
  intros Hi. unfold indexed.
  rewrite combine_nth by apply length_seq. now rewrite seq_nth.
Qed.

Lemma hann_multiplier_range (angle : R) : 0 <= 0.5 * (1 - cos angle) <= 1.
Proof. pose proof (COS_bound angle) as [Hlo Hhi]. lra. Qed.

Lemma applyHannWindow_nth (samples : list R) (i : nat) (d : R) :
  (i < length samples)%nat ->
  nth i (applyHannWindow samples) d
  = nth i samples d
    * (0.5 * (1 - cos ((2 * PI * INR i) / (INR (length samples) - 1)))).
Proof.
  intros Hi. unfold applyHannWindow.
  rewrite (nth_indep _ d (snd (0%nat, d) * (0.5 * (1 - cos (2 * PI * INR (fst (0%nat, d))
                                                       / (INR (length samples) - 1))))))
    by (rewrite length_map, indexed_length; exact Hi).
  rewrite (map_nth (fun p : nat * R =>
                      snd p * (0.5 * (1 - cos (2 * PI * INR (fst p)
                                               / (INR (length samples) - 1)))))).
  now rewrite indexed_nth.
Qed.

(** X17.  [applyHannWindow] on a buffer of at least two samples keeps the
    length, never increases the absolute value of a sample (so the largest
    absolute value does not grow), and sets the first and the last sample to
    0. *)
Theorem applyHannWindow_taper (samples : list R) :
  (2 <= length samples)%nat ->
  length (applyHannWindow samples) = length samples
  /\ (forall i, (i < length samples)%nat ->
        Rabs (nth i (applyHannWindow samples) 0) <= Rabs (nth i samples 0))
  /\ peak (applyHannWindow samples) <= peak samples
  /\ nth 0 (applyHannWindow samples) 1 = 0
  /\ nth (length samples - 1) (applyHannWindow samples) 1 = 0.
Proof.
  intros Hlen.
  assert (Hlength : length (applyHannWindow samples) = length samples)
    by (unfold applyHannWindow; now rewrite length_map, indexed_length).
  split; [exact Hlength|]. split; [|split; [|split]].
  - intros i Hi. rewrite applyHannWindow_nth by exact Hi.
    rewrite Rabs_mult.
    pose proof (hann_multiplier_range (2 * PI * INR i / (INR (length samples) - 1))) as Hm.
    rewrite (Rabs_pos_eq (0.5 * _)) by lra.
    pose proof (Rabs_pos (nth i samples 0)). nra.
  - apply peak_le; [apply peak_nonneg|].
    unfold applyHannWindow. apply Forall_map, Forall_forall. intros [i x] Hin.
    apply indexed_In in Hin. destruct Hin as [_ Hx]. cbn [fst snd].
    rewrite Rabs_mult.
    pose proof (hann_multiplier_range (2 * PI * INR i / (INR (length samples) - 1))) as Hm.
    rewrite (Rabs_pos_eq (0.5 * _)) by lra.
    pose proof (peak_ge x samples Hx). pose proof (Rabs_pos x). nra.
  - rewrite applyHannWindow_nth by lia. simpl INR.
    replace (2 * PI * 0 / (INR (length samples) - 1)) with 0 by (unfold Rdiv; ring).
    rewrite cos_0. ring.
  - rewrite applyHannWindow_nth by lia.
    assert (Hn : INR (length samples - 1) = INR (length samples) - 1)
      by (rewrite minus_INR by lia; simpl; lra).
    assert (Hpos : 0 < INR (length samples) - 1)
      by (rewrite <- Hn; apply lt_0_INR; lia).
    rewrite Hn.
    replace (2 * PI * (INR (length samples) - 1) / (INR (length samples) - 1))
      with (2 * PI) by (field; lra).
    rewrite cos_2PI. ring.
Qed.

Lemma applyHannWindow_taper_witness :
  (2 <= length [1; -1; 1]%R)%nat
  /\ nth 0 (applyHannWindow [1; -1; 1]) 1 = 0
  /\ nth 2 (applyHannWindow [1; -1; 1]) 1 = 0.
Proof.
  assert (Hlen : (2 <= length [1; -1; 1]%R)%nat) by (simpl; lia).
  split; [exact Hlen|].
  split; apply (applyHannWindow_taper [1; -1; 1] Hlen).
Defined.

(** ** Spectral transform *)

Lemma everySecond_In (xs : list R) :
  forall n i x, In (i, x) (everySecond n xs) -> In x xs.
Proof.
  assert (H : forall xs n i x,
             (In (i, x) (everySecond n xs) -> In x xs)
             /\ (forall y, In (i, x) (everySecond n (y :: xs)) -> In x (y :: xs))).
  { clear xs. induction xs as [|a xs IH]; intros n i x.
    - split; [simpl; tauto|]. intros y. simpl. intros [[= _ <-]|[]]. now left.
    - split; [apply IH|].
      intros y. cbn [everySecond]. intros [[= _ <-]|Hin]; [now left|].
      right. right. destruct (IH (S (S n)) i x) as [Hxs _]. now apply Hxs. }
  intros n i x. apply (H xs n i x).
Qed.

Lemma dftSums_fold_acc (freq : R) (bins : list (nat * R)) (re im : R) :
  fold_left
    (fun (st : R * R) (p : nat * R) =>
       let angle := freq * INR (fst p) in
       (fst st + snd p * cos angle, snd st - snd p * sin angle))
    bins (re, im)
  = (re + sum (map (fun p : nat * R => snd p * cos (freq * INR (fst p))) bins),
     im - sum (map (fun p : nat * R => snd p * sin (freq * INR (fst p))) bins)).
Proof.
  revert re im. induction bins as [|p bins IH]; intros re im; simpl.
  - rewrite !sum_nil. f_equal; lra.
  - rewrite IH, !sum_cons. f_equal; lra.
Qed.

Lemma dftSums_silent (freq : R) (samples : list R) :
  Forall (fun x => x = 0) samples -> dftSums freq samples = (0, 0).
Proof.
  intros Hz. unfold dftSums. rewrite dftSums_fold_acc.
  rewrite !sum_all_zero; [f_equal; lra | |];
    apply Forall_map, Forall_forall; intros [i x] Hin;
    apply everySecond_In in Hin; rewrite Forall_forall in Hz;
    simpl; rewrite (Hz x Hin); ring.
Qed.

Lemma dftSums_dc (samples : list R) :
  dftSums 0 samples = (sum (map snd (everySecond 0 samples)), 0).
Proof.
  unfold dftSums. rewrite dftSums_fold_acc. f_equal.
  - rewrite Rplus_0_l. f_equal. apply map_ext. intros p.
    rewrite Rmult_0_l, cos_0. ring.
  - rewrite sum_all_zero; [lra|].
    apply Forall_map, Forall_forall. intros p _. simpl.
    rewrite Rmult_0_l, sin_0. ring.
Qed.

(** X18.  [computeFullFFT] returns [min(512, floor(N/2))] magnitudes, all
    non-negative; the spectrum of a silent window is all zeros; and for a
    window of at least two samples bin 0 is the absolute value of the sum of
    the even-indexed samples, divided by [N/2]. *)
Theorem computeFullFFT_shape (samples : list R) :
  length (computeFullFFT samples) = Nat.min 512 (length samples / 2)
  /\ Forall (fun m => 0 <= m) (computeFullFFT samples)
  /\ (Forall (fun x => x = 0) samples ->
      Forall (fun m => m = 0) (computeFullFFT samples))
  /\ ((2 <= length samples)%nat ->
      nth 0 (computeFullFFT samples) 1
      = Rabs (sum (map snd (everySecond 0 samples))) / (INR (length samples) / 2)).
Proof.
  unfold computeFullFFT. split; [|split; [|split]].
  - now rewrite length_map, length_seq.
  - apply Forall_map, Forall_forall. intros k _.
    destruct (dftSums _ samples) as [re im].
    apply Rmult_le_pos; [apply sqrt_pos|].
    destruct (Req_dec (INR (length samples) / 2) 0) as [->|Hne].
    + rewrite Rinv_0. lra.
    + left. apply Rinv_0_lt_compat. pose proof (pos_INR (length samples)). lra.
  - intros Hz. apply Forall_map, Forall_forall. intros k _.
    rewrite (dftSums_silent _ samples Hz).
    replace (0 * 0 + 0 * 0) with 0 by ring. rewrite sqrt_0. unfold Rdiv. ring.
  - intros Hlen.
    assert (Hbins : (0 < Nat.min 512 (length samples / 2))%nat).
    { apply Nat.min_glb_lt; [lia|]. apply Nat.div_str_pos. lia. }
    destruct (Nat.min 512 (length samples / 2)) as [|m]; [lia|].
    cbn [seq map nth]. simpl INR at 1.
    replace (2 * PI * 0 / INR (length samples)) with 0 by (unfold Rdiv; ring).
    rewrite dftSums_dc.
    replace (0 * 0) with 0 by ring. rewrite Rplus_0_r.
    fold (Rsqr (sum (map snd (everySecond 0 samples)))). now rewrite sqrt_Rsqr_abs.
Qed.

(** ** Conditioning again: loudness and constant offsets *)

Lemma normalizeAudio_length (samples : list R) :
  length (normalizeAudio samples) = length samples.
Proof.
  unfold normalizeAudio. destruct (Req_dec_T _ 0); [reflexivity | apply length_map].
Qed.

Lemma highPassLoop_length (alpha : R) (rest : list R) (prevFiltered prevSample : R) :
  length (highPassLoop alpha prevFiltered prevSample rest) = length rest.
Proof.
  revert prevFiltered prevSample.
  induction rest as [|x rest IH]; intros y0 x0; simpl; [reflexivity | now rewrite IH].
Qed.

Lemma highPassFilter_length (samples : list R) (cutoffFreq sampleRate : R) :
  length (highPassFilter samples cutoffFreq sampleRate) = length samples.
Proof.
  destruct samples as [|x0 rest]; simpl; [reflexivity | now rewrite highPassLoop_length].
Qed.

Lemma maxAmplitude_scale_from (c : R) (samples : list R) (m0 : R) :
  0 < c ->
  fold_left (fun m x => if Rgt_dec (Rabs x) m then Rabs x else m)
    (map (Rmult c) samples) (c * m0)
  = c * fold_left (fun m x => if Rgt_dec (Rabs x) m then Rabs x else m) samples m0.
Proof.
  intros Hc. revert m0. induction samples as [|x samples IH]; intros m0; simpl.
  - reflexivity.
  - rewrite Rabs_mult, (Rabs_pos_eq c) by lra.
    destruct (Rgt_dec (c * Rabs x) (c * m0)) as [Hgt|Hle];
      destruct (Rgt_dec (Rabs x) m0) as [Hgt'|Hle']; try apply IH.
    + exfalso. apply Hle'. apply Rmult_lt_reg_l with c; [exact Hc | exact Hgt].
    + exfalso. apply Hle. apply Rmult_lt_compat_l; [exact Hc | exact Hgt'].
Qed.

Lemma maxAmplitude_scale (c : R) (samples : list R) :
  0 < c -> maxAmplitude (map (Rmult c) samples) = c * maxAmplitude samples.
Proof.
  intros Hc. unfold maxAmplitude.
  rewrite <- (maxAmplitude_scale_from c samples 0 Hc). now rewrite Rmult_0_r.
Qed.

Lemma maxAmplitude_zero_inv (samples : list R) :
  maxAmplitude samples = 0 -> Forall (fun x => x = 0) samples.
Proof.
  intros Hz. destruct (maxAmplitude_spec samples) as (_ & Hall & _).
  rewrite Hz in Hall. eapply Forall_impl; [|exact Hall]. simpl.
  intros x Hx. apply Rabs_le_between in Hx. lra.
Qed.

Lemma normalizeAudio_scale (c : R) (samples : list R) :
  0 < c -> normalizeAudio (map (Rmult c) samples) = normalizeAudio samples.
Proof.
  intros Hc. unfold normalizeAudio. rewrite (maxAmplitude_scale c samples Hc).
  destruct (Req_dec_T (maxAmplitude samples) 0) as [Hz|Hnz].
  - rewrite Hz, Rmult_0_r. destruct (Req_dec_T 0 0) as [_|Hn]; [|now destruct Hn].
    pose proof (maxAmplitude_zero_inv samples Hz) as Hall. clear Hz.
    induction Hall as [|x xs Hx _ IH]; simpl; [reflexivity|].
    rewrite IH, Hx. f_equal. ring.
  - destruct (Req_dec_T (c * maxAmplitude samples) 0) as [Hz|_].
    + exfalso. apply Rmult_integral in Hz. destruct Hz; [lra | contradiction].
    + rewrite map_map. apply map_ext. intros x. field. split; [exact Hnz | lra].
Qed.

Lemma normalizeAudio_idempotent (samples : list R) :
  normalizeAudio (normalizeAudio samples) = normalizeAudio samples.
Proof.
  destruct (Req_dec_T (maxAmplitude samples) 0) as [Hz|Hnz].
  - assert (H : normalizeAudio samples = samples)
      by (unfold normalizeAudio; destruct (Req_dec_T _ 0); [reflexivity | contradiction]).
    now rewrite !H.
  - destruct (maxAmplitude_spec samples) as (Hpos & _ & _).
    assert (Hinv : 0 < / maxAmplitude samples) by (apply Rinv_0_lt_compat; lra).
    assert (H : normalizeAudio samples = map (Rmult (/ maxAmplitude samples)) samples).
    { unfold normalizeAudio. destruct (Req_dec_T _ 0); [contradiction|].
      apply map_ext. intros x. unfold Rdiv. ring. }
    rewrite H at 1. rewrite normalizeAudio_scale by exact Hinv. reflexivity.
Qed.

(** X19.  Loudness does not reach the fingerprint: scaling every sample by
    a positive factor leaves [normalizeAudio], and with it [extractFeatures],
    unchanged; and normalizing twice is normalizing once. *)
Theorem loudness_invariance (c : R) (samples : list R) :
  0 < c ->
  normalizeAudio (map (Rmult c) samples) = normalizeAudio samples
  /\ normalizeAudio (normalizeAudio samples) = normalizeAudio samples
  /\ (forall sampleRate,
        extractFeatures (map (Rmult c) samples) sampleRate
        = extractFeatures samples sampleRate).
Proof.
  intros Hc. split; [now apply normalizeAudio_scale|].
  split; [apply normalizeAudio_idempotent|].
  intros sampleRate. unfold extractFeatures.
  now rewrite (normalizeAudio_scale c samples Hc).
Qed.

Lemma loudness_invariance_witness :
  0 < 2 /\ normalizeAudio (map (Rmult 2) [1; -3]) = normalizeAudio [1; -3].
Proof.
  assert (Hc : 0 < 2) by lra.
  split; [exact Hc|]. apply (loudness_invariance 2 [1; -3] Hc).
Defined.

Lemma highPassLoop_constant (alpha c : R) (n : nat) (prevFiltered : R) :
  highPassLoop alpha prevFiltered c (repeat c n)
  = map (fun i => prevFiltered * alpha ^ (S i)) (seq 0 n).
Proof.
  revert prevFiltered. induction n as [|n IH]; intros y; [reflexivity|].
  cbn [repeat highPassLoop seq map]. rewrite IH. f_equal; [simpl; ring|].
  rewrite <- seq_shift, map_map. apply map_ext. intros i. simpl. ring.
Qed.

(** X20.  The high-pass filter removes a constant offset geometrically: on
    a buffer of [n] samples all equal to [c] the output is
    [c, c*alpha, c*alpha^2, ...], where [alpha] lies strictly between 0 and
    1 for a positive cutoff and sample rate. *)
Theorem highPassFilter_constant (c : R) (n : nat) (cutoffFreq sampleRate : R) :
  0 < cutoffFreq -> 0 < sampleRate ->
  0 < highPassAlpha cutoffFreq sampleRate < 1
  /\ highPassFilter (repeat c n) cutoffFreq sampleRate
     = map (fun i => c * highPassAlpha cutoffFreq sampleRate ^ i) (seq 0 n).
Proof.
  intros Hc Hs. split; [now apply highPassAlpha_range|].
  destruct n as [|n]; [reflexivity|].
  cbn [repeat highPassFilter seq map]. rewrite highPassLoop_constant.
  f_equal; [simpl; ring|].
  rewrite <- seq_shift, map_map. reflexivity.
Qed.

Lemma highPassFilter_constant_witness :
  0 < 80 /\ 0 < 44100
  /\ highPassFilter (repeat 1 3) 80 44100
     = map (fun i => 1 * highPassAlpha 80 44100 ^ i) (seq 0 3).
Proof.
  assert (Hc : 0 < 80) by lra. assert (Hs : 0 < 44100) by lra.
  split; [exact Hc|]. split; [exact Hs|].
  apply (highPassFilter_constant 1 3 80 44100 Hc Hs).
Defined.

(** ** Framing *)

Lemma frame_count_step (d h : nat) :
  (0 < h)%nat -> (1 <= d)%nat ->
  (S ((d - h + (h - 1)) / h) = (d + (h - 1)) / h)%nat.
Proof.
  intros Hh Hd. destruct (Nat.le_gt_cases h d) as [Hge|Hlt].
  - replace (d + (h - 1))%nat with ((d - h + (h - 1)) + 1 * h)%nat by lia.
    rewrite Nat.div_add by lia. lia.
  - replace (d - h)%nat with 0%nat by lia.
    rewrite (Nat.div_small (0 + (h - 1)) h) by lia.
    replace (d + (h - 1))%nat with ((d - 1) + 1 * h)%nat by lia.
    rewrite Nat.div_add by lia. rewrite (Nat.div_small (d - 1) h) by lia. reflexivity.
Qed.

(** The loop of [extractFeatures] pushes one frame per hop while the index
    is below [samples.length - windowSize]; the fuel never runs out. *)
Lemma extractLoop_length (samples : list R) (sampleRate : R) (fuel i : nat)
    (prevSpectrum : option (list R)) :
  (length samples <= fuel + i)%nat ->
  length (extractLoop fuel samples sampleRate i prevSpectrum)
  = ((length samples - windowSize - i + (hopSize - 1)) / hopSize)%nat.
Proof.
  assert (Hhop : (0 < hopSize)%nat) by (unfold hopSize; lia).
  revert i prevSpectrum. induction fuel as [|fuel IH]; intros i prev Hfuel.
  - cbn [extractLoop length].
    replace (length samples - windowSize - i)%nat with 0%nat by lia.
    symmetry. apply Nat.div_small. lia.
  - cbn [extractLoop].
    destruct (Z.of_nat i <? Z.of_nat (length samples) - Z.of_nat windowSize)%Z eqn:E.
    + apply Z.ltb_lt in E. cbn [length]. rewrite IH by lia.
      replace (length samples - windowSize - (i + hopSize))%nat
        with (length samples - windowSize - i - hopSize)%nat by lia.
      apply frame_count_step; lia.
    + apply Z.ltb_ge in E.
      replace (length samples - windowSize - i)%nat with 0%nat by lia.
      cbn [length]. symmetry. apply Nat.div_small. lia.
Qed.

Lemma extractFeatures_length (channel : list R) (sampleRate : R) :
  length (extractFeatures channel sampleRate)
  = ((length channel - windowSize + (hopSize - 1)) / hopSize)%nat.
Proof.
  unfold extractFeatures. rewrite extractLoop_length by lia.
  rewrite highPassFilter_length, normalizeAudio_length. f_equal. lia.
Qed.

Lemma extractFeatures_short (channel : list R) (sampleRate : R) :
  (length channel <= 2048 + 9 * 512)%nat -> (length (extractFeatures channel sampleRate) < 10)%nat.
Proof.
  intros Hlen. rewrite extractFeatures_length.
  apply Nat.Div0.div_lt_upper_bound. unfold windowSize, hopSize. lia.
Qed.

(** X21.  Framing.  [extractFeatures] yields
    [ceil((length - 2048) / 512)] frames and none for a clip of 2048 samples
    or fewer; the fingerprint reaches the 10 frames the matcher asks for
    exactly when the clip has more than 2048 + 9 * 512 = 6656
    samples. *)
Theorem extractFeatures_frame_count (channel : list R) (sampleRate : R) :
  length (extractFeatures channel sampleRate)
  = ((length channel - 2048 + 511) / 512)%nat
  /\ ((length channel <= 2048)%nat -> extractFeatures channel sampleRate = [])
  /\ ((10 <= length (extractFeatures channel sampleRate))%nat
      <-> (2048 + 9 * 512 < length channel)%nat).
Proof.
  pose proof (extractFeatures_length channel sampleRate) as Hlen.
  unfold windowSize, hopSize in Hlen.
  replace (512 - 1)%nat with 511%nat in Hlen by lia.
  split; [exact Hlen|]. split.
  - intros Hshort. apply length_zero_iff_nil. rewrite Hlen.
    replace (length channel - 2048)%nat with 0%nat by lia.
    apply Nat.div_small. lia.
  - split.
    + intros H10. destruct (Nat.le_gt_cases (length channel) (2048 + 9 * 512)) as [Hlt|Hge];
        [|exact Hge].
      pose proof (extractFeatures_short channel sampleRate Hlt). lia.
    + intros H. rewrite Hlen. apply Nat.div_le_lower_bound; lia.
Qed.

Lemma matchLoop_all_zero (unknownFingerprint : Fingerprint) (userId : option string)
    (database : Database) :
  (forall fp, compareFingerprints unknownFingerprint fp = 0) ->
  bestScore (matchLoop unknownFingerprint userId database) = 0
  /\ bestMatch (matchLoop unknownFingerprint userId database) = None.
Proof.
  intros Hzero.
  destruct (matchLoop_first unknownFingerprint userId database)
    as [(Hs & Hm & _)|(l1 & e & l2 & Hc & _ & _ & Hpos & _)]; [now split|].
  exfalso.
  assert (Hin : In e (candidates unknownFingerprint userId database))
    by (rewrite Hc; apply in_or_app; right; now left).
  destruct (candidates_In_inv _ _ _ _ Hin) as (d & _ & _ & Hscore).
  rewrite Hzero in Hscore. lra.
Qed.

(** X22.  A clip too short to give 10 frames never matches: with at most
    2048 + 9 * 512 = 6656 samples its fingerprint scores 0 against every fingerprint, in
    both argument orders, and [matchAudio] on it returns no match with
    confidence 0 and every ranked score 0, whatever the store, the threshold
    and the owner filter. *)
Theorem short_clip_never_matches (channel : list R) (sampleRate : R) :
  (length channel <= 2048 + 9 * 512)%nat ->
  let fingerprint := extractFeatures channel sampleRate in
  (forall fp, compareFingerprints fingerprint fp = 0
              /\ compareFingerprints fp fingerprint = 0)
  /\ (forall threshold userId database,
        let result := matchAudio fingerprint threshold userId database in
        r_match result = None /\ r_confidence result = 0
        /\ Forall (fun e => se_score e = 0) (r_allScores result)).
Proof.
  intros Hlen. cbv zeta.
  pose proof (extractFeatures_short channel sampleRate Hlen) as Hshort.
  assert (Hzero : forall fp,
            compareFingerprints (extractFeatures channel sampleRate) fp = 0).
  { intros fp. apply compareFingerprints_short.
    pose proof (Nat.le_min_l (length (extractFeatures channel sampleRate)) (length fp)).
    lia. }
  split.
  - intros fp. split; [apply Hzero | rewrite compareFingerprints_sym; apply Hzero].
  - intros threshold userId database.
    destruct (matchLoop_all_zero _ userId database Hzero) as [Hs Hm].
    rewrite matchAudio_confidence, matchAudio_allScores. split; [|split; [exact Hs|]].
    + unfold matchAudio. destruct (Rge_dec _ _); [exact Hm | reflexivity].
    + apply Forall_forall. intros e Hin.
      apply (Permutation_in _ (sortDesc_perm se_score _)) in Hin.
      destruct (candidates_In_inv _ _ _ _ Hin) as (d & _ & _ & Hscore).
      rewrite Hscore. apply Hzero.
Qed.

Lemma short_clip_never_matches_witness :
  (length (repeat 0 2048) <= 2048 + 9 * 512)%nat
  /\ r_confidence
       (matchAudio (extractFeatures (repeat 0 2048) 44100) 0.85 None
          [("clap"%string, Bare silentClip)]) = 0.
Proof.
  assert (Hlen : (length (repeat 0 2048) <= 2048 + 9 * 512)%nat) by (rewrite repeat_length; lia).
  split; [exact Hlen|].
  apply (short_clip_never_matches (repeat 0 2048) 44100 Hlen).
Defined.

(** ** Features of a silent window *)

Lemma Forall_zero_firstn (n : nat) (xs : list R) :
  Forall (fun x => x = 0) xs -> Forall (fun x => x = 0) (firstn n xs).
Proof.
  intros H. apply Forall_forall. intros x Hin. rewrite Forall_forall in H.
  apply H. eapply In_firstn, Hin.
Qed.

Lemma Forall_zero_skipn (n : nat) (xs : list R) :
  Forall (fun x => x = 0) xs -> Forall (fun x => x = 0) (skipn n xs).
Proof.
  intros H. apply Forall_forall. intros x Hin. rewrite Forall_forall in H.
  apply H. eapply In_skipn, Hin.
Qed.

Lemma applyHannWindow_silent (samples : list R) :
  Forall (fun x => x = 0) samples -> Forall (fun x => x = 0) (applyHannWindow samples).
Proof.
  intros Hz. unfold applyHannWindow. apply Forall_map, Forall_forall.
  intros [i x] Hin. apply indexed_In in Hin. destruct Hin as [_ Hx].
  rewrite Forall_forall in Hz. cbn [fst snd]. rewrite (Hz x Hx). ring.
Qed.

Lemma calculateEnergy_silent (samples : list R) :
  Forall (fun x => x = 0) samples -> calculateEnergy samples = 0.
Proof.
  intros Hz. unfold calculateEnergy. rewrite fold_left_squares_acc, sum_all_zero.
  - unfold Rdiv. rewrite Rplus_0_l, Rmult_0_l. apply sqrt_0.
  - apply Forall_map. eapply Forall_impl; [|exact Hz]. simpl. intros x ->. ring.
Qed.

Lemma calculateZeroCrossingRate_silent (samples : list R) :
  Forall (fun x => x = 0) samples -> calculateZeroCrossingRate samples = 0.
Proof.
  intros Hz. unfold calculateZeroCrossingRate.
  destruct samples as [|x0 rest]; [simpl; unfold Rdiv; ring|].
  inversion Hz; subst. rewrite crossingsFrom_same_sign.
  - simpl INR at 1. unfold Rdiv. ring.
  - left. split; [lra|]. eapply Forall_impl; [|eassumption]. simpl. intros x ->. lra.
Qed.

Lemma calculateSpectralCentroid_zero_sum (spectrum : list R) (sampleRate : R) :
  sum spectrum = 0 -> calculateSpectralCentroid spectrum sampleRate = 0.
Proof.
  intros Hz. unfold calculateSpectralCentroid.
  pose proof (centroid_fold_total
                (fun i => INR i / INR (length spectrum) * (sampleRate / 2))
                spectrum 0 0 0) as Htotal.
  fold (sum spectrum) in Htotal. unfold indexed.
  rewrite Htotal, Hz. destruct (Rgt_dec 0 0); [lra | reflexivity].
Qed.

Lemma calculateSpectralFluxBetween_silent (spectrum1 spectrum2 : list R) :
  Forall (fun x => x = 0) spectrum1 -> Forall (fun x => x = 0) spectrum2 ->
  calculateSpectralFluxBetween spectrum1 spectrum2 = 0.
Proof.
  intros H1 H2. unfold calculateSpectralFluxBetween.
  rewrite flux_fold_acc, sum_all_zero.
  - unfold Rdiv. rewrite Rplus_0_l, Rmult_0_l. apply sqrt_0.
  - apply Forall_map, Forall_forall. intros [a b] Hin.
    rewrite Forall_forall in H1, H2.
    rewrite (H1 a (in_combine_l _ _ _ _ Hin)), (H2 b (in_combine_r _ _ _ _ Hin)).
    simpl. ring.
Qed.

Lemma calculateSpectralRolloff_silent (spectrum : list R) (sampleRate : R) :
  spectrum <> [] -> Forall (fun x => x = 0) spectrum ->
  calculateSpectralRolloff spectrum sampleRate = 0.
Proof.
  intros Hne Hz. unfold calculateSpectralRolloff. rewrite (sum_all_zero _ Hz).
  destruct spectrum as [|x rest]; [congruence|]. inversion Hz; subst.
  cbn [rolloffLoop]. destruct (Rge_dec (0 + 0) (0.85 * 0)) as [_|Hn]; [|exfalso; lra].
  simpl INR at 1. unfold Rdiv. ring.
Qed.

Lemma calculateSpectralFlatness_silent (spectrum : list R) :
  Forall (fun x => x = 0) spectrum -> calculateSpectralFlatness spectrum = 0.
Proof.
  intros Hz. unfold calculateSpectralFlatness.
  assert (Hfold : fold_left flatnessStep spectrum (mkFlatnessState 0 0 0)
                  = mkFlatnessState 0 0 0).
  { induction Hz as [|x xs Hx _ IH]; [reflexivity|].
    cbn [fold_left]. unfold flatnessStep at 2. subst x.
    destruct (Rgt_dec 0 0); [lra | exact IH]. }
  rewrite Hfold. reflexivity.
Qed.

Lemma getBandEnergy_silent (spectrum : list R) (lowFreq highFreq sampleRate : R) :
  Forall (fun x => x = 0) spectrum ->
  getBandEnergy spectrum lowFreq highFreq sampleRate = 0.
Proof.
  intros Hz.
  destruct (getBandEnergy_spec spectrum lowFreq highFreq sampleRate) as [Hempty Hspan].
  destruct (Z_ge_lt_dec (fst (binSpan spectrum lowFreq highFreq sampleRate))
                        (snd (binSpan spectrum lowFreq highFreq sampleRate))) as [Hge|Hlt].
  - now apply Hempty.
  - rewrite (Hspan Hlt), sum_all_zero.
    + unfold Rdiv. rewrite Rmult_0_l. apply sqrt_0.
    + apply Forall_map, Forall_forall. intros x Hin. unfold slice in Hin.
      apply In_firstn, In_skipn in Hin. rewrite Forall_forall in Hz.
      rewrite (Hz x Hin). ring.
Qed.

Lemma nthZ_In (xs : list R) (i : Z) (x : R) : nthZ xs i = Some x -> In x xs.
Proof.
  unfold nthZ. destruct (i <? 0)%Z; [discriminate|]. apply nth_error_In.
Qed.

(** Without a positive magnitude in range the loop of [findPeakFrequency]
    leaves [peakBin] at [lowBin]. *)
Lemma peakBinOf_no_positive (spectrum : list R) (sampleRate lowFreq highFreq : R) :
  Forall (fun x => x <= 0) spectrum ->
  peakBinOf spectrum sampleRate lowFreq highFreq
  = fst (peakSpan spectrum sampleRate lowFreq highFreq).
Proof.
  intros Hall. unfold peakBinOf.
  destruct (peakSpan spectrum sampleRate lowFreq highFreq) as [lowBin bound].
  cbn [fst]. unfold zrange.
  destruct (peak_fold_invariant spectrum lowBin (Z.to_nat (bound - lowBin)))
    as [(_ & Hb & _)|(Hpos & _ & Hnth & _)]; [exact Hb|].
  exfalso. apply nthZ_In in Hnth. rewrite Forall_forall in Hall.
  specialize (Hall _ Hnth). lra.
Qed.

Lemma INR_512 : INR 512 = 512.
Proof. rewrite INR_IZR_INZ. reflexivity. Qed.

Lemma findPeakFrequency_silent_low (spectrum : list R) (sampleRate : R) :
  0 < sampleRate -> length spectrum = 512%nat -> Forall (fun x => x = 0) spectrum ->
  findPeakFrequency spectrum sampleRate 0 (sampleRate / 4) = 0.
Proof.
  intros Hrate Hlen Hz. unfold findPeakFrequency.
  rewrite peakBinOf_no_positive
    by (eapply Forall_impl; [|exact Hz]; simpl; intros x ->; lra).
  unfold peakSpan. cbn [fst]. rewrite Hlen, INR_512.
  rewrite (Zfloor_eq 0) by (unfold Rdiv; rewrite !Rmult_0_l; simpl; lra).
  unfold Rdiv. ring.
Qed.

Lemma findPeakFrequency_silent_high (spectrum : list R) (sampleRate : R) :
  0 < sampleRate -> length spectrum = 512%nat -> Forall (fun x => x = 0) spectrum ->
  findPeakFrequency spectrum sampleRate (sampleRate / 4) (sampleRate / 2)
  = sampleRate / 4.
Proof.
  intros Hrate Hlen Hz. unfold findPeakFrequency.
  rewrite peakBinOf_no_positive
    by (eapply Forall_impl; [|exact Hz]; simpl; intros x ->; lra).
  unfold peakSpan. cbn [fst]. rewrite Hlen, INR_512.
  replace (sampleRate / 4 / (sampleRate / 2) * 512) with (IZR 256) by (field; lra).
  rewrite ZfloorZ. field.
Qed.

Lemma Forall_zero_perm (xs ys : list R) :
  Permutation xs ys -> Forall (fun x => x = 0) xs -> Forall (fun x => x = 0) ys.
Proof.
  intros Hp Hz. apply Forall_forall. intros y Hin. rewrite Forall_forall in Hz.
  apply Hz. eapply Permutation_in; [apply Permutation_sym, Hp | exact Hin].
Qed.

Lemma calculateSpectralContrast_silent (spectrum : list R) :
  (10 <= length spectrum)%nat -> Forall (fun x => x = 0) spectrum ->
  calculateSpectralContrast spectrum = Fin 0.
Proof.
  intros Hlen Hz. unfold calculateSpectralContrast.
  assert (Hn : (0 < length spectrum / 10)%nat) by (apply Nat.div_str_pos; lia).
  assert (HR : INR (length spectrum / 10) <> 0) by (apply not_0_INR; lia).
  assert (Hsorted : Forall (fun x => x = 0) (sortDesc (fun x => x) spectrum))
    by (eapply Forall_zero_perm; [apply Permutation_sym, sortDesc_perm | exact Hz]).
  cbv zeta. rewrite !jsdiv_Fin by exact HR.
  assert (Hvalley : sum (sliceLast (length spectrum / 10)
                           (sortDesc (fun x => x) spectrum)) = 0).
  { apply sum_all_zero. unfold sliceLast.
    destruct (length spectrum / 10 =? 0)%nat; [exact Hsorted|].
    now apply Forall_zero_skipn. }
  rewrite Hvalley. unfold jspositive.
  destruct (Rgt_dec (0 / INR (length spectrum / 10)) 0) as [Hpos|_]; [|reflexivity].
  exfalso. unfold Rdiv in Hpos. rewrite Rmult_0_l in Hpos. lra.
Qed.

Lemma frameFeatures_silent (window spectrum : list R) (prevSpectrum : option (list R))
    (sampleRate : R) :
  0 < sampleRate ->
  Forall (fun x => x = 0) window ->
  length spectrum = 512%nat -> Forall (fun x => x = 0) spectrum ->
  match prevSpectrum with
  | Some prev => Forall (fun x => x = 0) prev
  | None => True
  end ->
  frameFeatures window spectrum prevSpectrum sampleRate
  = {| f_energy := 0; f_zcr := 0; f_spectralCentroid := 0; f_spectralFlux := 0;
       f_spectralRolloff := 0; f_spectralFlatness := 0;
       f_subBass := 0; f_bass := 0; f_lowMid := 0; f_mid := 0; f_highMid := 0;
       f_upperMid := 0; f_presence := 0; f_brilliance := 0;
       f_peakFreq1 := 0; f_peakFreq2 := sampleRate / 4;
       f_spectralContrast := 0 |}.
Proof.
  intros Hrate Hw Hlen Hs Hprev. unfold frameFeatures.
  rewrite (calculateEnergy_silent _ Hw), (calculateZeroCrossingRate_silent _ Hw).
  rewrite (calculateSpectralCentroid_zero_sum _ _ (sum_all_zero _ Hs)).
  rewrite calculateSpectralRolloff_silent
    by (try exact Hs; intros ->; discriminate).
  rewrite (calculateSpectralFlatness_silent _ Hs).
  rewrite !(getBandEnergy_silent _ _ _ _ Hs).
  rewrite (findPeakFrequency_silent_low _ _ Hrate Hlen Hs).
  rewrite (findPeakFrequency_silent_high _ _ Hrate Hlen Hs).
  rewrite calculateSpectralContrast_silent by (try exact Hs; rewrite Hlen; lia).
  cbn [finiteOrZero].
  destruct prevSpectrum as [prev|]; [|reflexivity].
  now rewrite (calculateSpectralFluxBetween_silent _ _ Hs Hprev).
Qed.

Lemma computeFullFFT_silent (samples : list R) :
  Forall (fun x => x = 0) samples -> Forall (fun m => m = 0) (computeFullFFT samples).
Proof.
  intros Hz. unfold computeFullFFT. apply Forall_map, Forall_forall. intros k _.
  rewrite (dftSums_silent _ samples Hz).
  replace (0 * 0 + 0 * 0) with 0 by ring. rewrite sqrt_0. unfold Rdiv. ring.
Qed.

Lemma extractLoop_silent (samples : list R) (sampleRate : R) (fuel i : nat)
    (prevSpectrum : option (list R)) :
  0 < sampleRate ->
  Forall (fun x => x = 0) samples ->
  match prevSpectrum with
  | Some prev => Forall (fun x => x = 0) prev
  | None => True
  end ->
  Forall (fun f =>
            f = {| f_energy := 0; f_zcr := 0; f_spectralCentroid := 0;
                   f_spectralFlux := 0; f_spectralRolloff := 0;
                   f_spectralFlatness := 0;
                   f_subBass := 0; f_bass := 0; f_lowMid := 0; f_mid := 0;
                   f_highMid := 0; f_upperMid := 0; f_presence := 0;
                   f_brilliance := 0;
                   f_peakFreq1 := 0; f_peakFreq2 := sampleRate / 4;
                   f_spectralContrast := 0 |})
         (extractLoop fuel samples sampleRate i prevSpectrum).
Proof.
  intros Hrate Hz. revert i prevSpectrum.
  induction fuel as [|fuel IH]; intros i prev Hprev; cbn [extractLoop]; [constructor|].
  destruct (Z.of_nat i <? Z.of_nat (length samples) - Z.of_nat windowSize)%Z eqn:E;
    [|constructor].
  apply Z.ltb_lt in E.
  assert (Hw : Forall (fun x => x = 0)
                 (applyHannWindow (firstn windowSize (skipn i samples))))
    by (apply applyHannWindow_silent, Forall_zero_firstn, Forall_zero_skipn, Hz).
  assert (Hwl : length (applyHannWindow (firstn windowSize (skipn i samples)))
                = windowSize).
  { unfold applyHannWindow. rewrite length_map, indexed_length.
    now apply window_length. }
  pose proof (computeFullFFT_silent _ Hw) as Hs.
  pose proof (computeFullFFT_window_length _ Hwl) as Hsl.
  constructor.
  - now apply frameFeatures_silent.
  - apply IH. exact Hs.
Qed.

(** X23.  The fingerprint of a silent clip.  At a positive sample rate,
    every frame extracted from an all-zero clip has all features 0 except
    [peakFreq2], which is [sampleRate / 4]: with no positive magnitude the
    peak search stays on the first bin of its range, bin 256 of 512. *)
Theorem silent_clip_fingerprint (channel : list R) (sampleRate : R) :
  0 < sampleRate ->
  Forall (fun x => x = 0) channel ->
  Forall (fun f =>
            f = {| f_energy := 0; f_zcr := 0; f_spectralCentroid := 0;
                   f_spectralFlux := 0; f_spectralRolloff := 0;
                   f_spectralFlatness := 0;
                   f_subBass := 0; f_bass := 0; f_lowMid := 0; f_mid := 0;
                   f_highMid := 0; f_upperMid := 0; f_presence := 0;
                   f_brilliance := 0;
                   f_peakFreq1 := 0; f_peakFreq2 := sampleRate / 4;
                   f_spectralContrast := 0 |})
         (extractFeatures channel sampleRate).
Proof.
  intros Hrate Hz. unfold extractFeatures.
  rewrite (normalizeAudio_zero channel Hz), (highPassFilter_zero channel _ _ Hz).
  now apply extractLoop_silent.
Qed.

Lemma Forall_zero_repeat (n : nat) : Forall (fun x => x = 0) (repeat 0 n).
Proof. apply Forall_forall. intros x Hin. now apply repeat_spec in Hin. Qed.

Lemma silent_clip_fingerprint_witness :
  0 < 44100 /\ Forall (fun x => x = 0) (repeat 0 3000)
  /\ Forall (fun f =>
               f = {| f_energy := 0; f_zcr := 0; f_spectralCentroid := 0;
                      f_spectralFlux := 0; f_spectralRolloff := 0;
                      f_spectralFlatness := 0;
                      f_subBass := 0; f_bass := 0; f_lowMid := 0; f_mid := 0;
                      f_highMid := 0; f_upperMid := 0; f_presence := 0;
                      f_brilliance := 0;
                      f_peakFreq1 := 0; f_peakFreq2 := 44100 / 4;
                      f_spectralContrast := 0 |})
            (extractFeatures (repeat 0 3000) 44100).
Proof.
  assert (Hrate : 0 < 44100) by lra.
  pose proof (Forall_zero_repeat 3000) as Hz.
  split; [exact Hrate|]. split; [exact Hz|].
  apply (silent_clip_fingerprint (repeat 0 3000) 44100 Hrate Hz).
Defined.

(** ** Spectral contrast and band energy *)

Lemma sum_le_upper (hi : R) (xs : list R) :
  Forall (fun x => x <= hi) xs -> sum xs <= hi * INR (length xs).
Proof.
  induction 1 as [|x xs Hx _ IH].
  - rewrite sum_nil. simpl. lra.
  - rewrite sum_cons. change (length (x :: xs)) with (S (length xs)).
    rewrite S_INR. lra.
Qed.

(** When every element of [tops] is at least every element of [bottoms],
    the sums compare as the means do. *)
Lemma pairwise_sum_le (tops bottoms : list R) :
  (forall a b, In a tops -> In b bottoms -> b <= a) ->
  INR (length tops) * sum bottoms <= INR (length bottoms) * sum tops.
Proof.
  induction tops as [|a tops IH]; intros Hall.
  - simpl. rewrite sum_nil. lra.
  - change (length (a :: tops)) with (S (length tops)). rewrite S_INR, sum_cons.
    assert (Hb : sum bottoms <= a * INR (length bottoms)).
    { apply sum_le_upper, Forall_forall. intros b Hb. apply Hall; [now left | exact Hb]. }
    assert (Hrest : INR (length tops) * sum bottoms <= INR (length bottoms) * sum tops)
      by (apply IH; intros x b Hx Hb'; apply Hall; [now right | exact Hb']).
    lra.
Qed.

Lemma StronglySorted_app_order (l1 l2 : list R) :
  StronglySorted (fun a b => b <= a) (l1 ++ l2) ->
  forall a b, In a l1 -> In b l2 -> b <= a.
Proof.
  induction l1 as [|x l1 IH]; intros Hs a b Ha Hb; [destruct Ha|].
  simpl in Hs. apply StronglySorted_inv in Hs. destruct Hs as [Hs Hx].
  destruct Ha as [<-|Ha].
  - rewrite Forall_forall in Hx. apply Hx, in_or_app. now right.
  - now apply (IH Hs a b).
Qed.

Lemma sortDesc_top_bottom (spectrum : list R) (k : nat) :
  (2 * k <= length spectrum)%nat ->
  forall a b,
    In a (firstn k (sortDesc (fun x => x) spectrum)) ->
    In b (skipn (length spectrum - k) (sortDesc (fun x => x) spectrum)) ->
    b <= a.
Proof.
  intros Hk a b Ha Hb.
  set (sorted := sortDesc (fun x => x) spectrum) in *.
  assert (Hss : StronglySorted (fun a b => b <= a) sorted).
  { apply Sorted_StronglySorted.
    - intros x y z Hxy Hyz. lra.
    - apply (sortDesc_sorted (fun x : R => x)). }
  rewrite <- (firstn_skipn k sorted) in Hss.
  apply (StronglySorted_app_order _ _ Hss a b Ha).
  replace (length spectrum - k)%nat with ((length spectrum - 2 * k) + k)%nat in Hb by lia.
  rewrite <- skipn_skipn in Hb. eapply In_skipn, Hb.
Qed.

Lemma calculateSpectralContrast_no_infinity (spectrum : list R) :
  calculateSpectralContrast spectrum <> PosInf
  /\ calculateSpectralContrast spectrum <> NegInf.
Proof.
  unfold calculateSpectralContrast. cbv zeta.
  destruct (Nat.eq_dec (length spectrum / 10) 0) as [Hz|Hnz].
  - rewrite Hz. cbn [firstn INR]. rewrite sum_nil.
    assert (Hnan : jsdiv (Fin 0) (Fin 0) = NaN).
    { unfold jsdiv. destruct (Req_dec_T 0 0) as [_|Hn]; [reflexivity | now destruct Hn]. }
    rewrite Hnan.
    destruct (jspositive _); [|split; discriminate].
    split; simpl; discriminate.
  - assert (HR : INR (length spectrum / 10) <> 0) by (apply not_0_INR; lia).
    rewrite !jsdiv_Fin by exact HR. unfold jspositive.
    destruct (Rgt_dec _ 0) as [Hpos|_]; [|split; discriminate].
    rewrite jsdiv_Fin by lra. split; discriminate.
Qed.

Lemma calculateSpectralContrast_range_facts :
  (forall spectrum,
      calculateSpectralContrast spectrum <> PosInf
      /\ calculateSpectralContrast spectrum <> NegInf)
  /\ (forall spectrum, (10 <= length spectrum)%nat ->
        exists r, calculateSpectralContrast spectrum = Fin r /\ (r = 0 \/ 1 <= r)).
Proof.
  split; [apply calculateSpectralContrast_no_infinity|].
  intros spectrum Hlen. unfold calculateSpectralContrast. cbv zeta.
  set (k := (length spectrum / 10)%nat).
  set (sorted := sortDesc (fun x => x) spectrum).
  assert (Hk : (0 < k)%nat) by (apply Nat.div_str_pos; lia).
  assert (Hk2 : (2 * k <= length spectrum)%nat).
  { pose proof (Nat.Div0.mul_div_le (length spectrum) 10). unfold k. lia. }
  assert (HR : INR k <> 0) by (apply not_0_INR; lia).
  assert (Hkpos : 0 < INR k) by (apply lt_0_INR; lia).
  assert (Hsl : length sorted = length spectrum)
    by (apply Permutation_length, sortDesc_perm).
  rewrite !jsdiv_Fin by exact HR. unfold jspositive.
  destruct (Rgt_dec (sum (sliceLast k sorted) / INR k) 0) as [Hpos|_];
    [|exists 0; split; [reflexivity | now left]].
  rewrite jsdiv_Fin by lra.
  eexists. split; [reflexivity|]. right.
  assert (Hbottom : sliceLast k sorted = skipn (length spectrum - k) sorted).
  { unfold sliceLast. destruct (k =? 0)%nat eqn:E; [apply Nat.eqb_eq in E; lia|].
    now rewrite Hsl. }
  rewrite Hbottom in *.
  pose proof (pairwise_sum_le (firstn k sorted) (skipn (length spectrum - k) sorted)
                (sortDesc_top_bottom spectrum k Hk2)) as Hsum.
  rewrite length_firstn, length_skipn, Hsl in Hsum.
  replace (Nat.min k (length spectrum)) with k in Hsum by lia.
  replace (length spectrum - (length spectrum - k))%nat with k in Hsum by lia.
  assert (Hle : sum (skipn (length spectrum - k) sorted) / INR k
                <= sum (firstn k sorted) / INR k).
  { unfold Rdiv. apply Rmult_le_compat_r; [left; now apply Rinv_0_lt_compat|].
    apply (Rmult_le_reg_l (INR k)); assumption. }
  apply (Rmult_le_reg_r (sum (skipn (length spectrum - k) sorted) / INR k)); [lra|].
  unfold Rdiv at 2. rewrite Rmult_assoc, Rinv_l; lra.
Qed.

(** X24.  [calculateSpectralContrast] never returns an infinity, and on a
    spectrum of at least 10 bins it returns a real number that is either 0
    or at least 1: the mean of the largest tenth of the magnitudes is at
    least the mean of the smallest tenth. *)
Theorem calculateSpectralContrast_range :
  (forall spectrum,
      calculateSpectralContrast spectrum <> PosInf
      /\ calculateSpectralContrast spectrum <> NegInf)
  /\ (forall spectrum, (10 <= length spectrum)%nat ->
        exists r, calculateSpectralContrast spectrum = Fin r /\ (r = 0 \/ 1 <= r)).
Proof. exact (calculateSpectralContrast_range_facts). Qed.

Lemma getBandEnergy_range_facts (spectrum : list R) (lowFreq highFreq sampleRate : R) :
  0 <= getBandEnergy spectrum lowFreq highFreq sampleRate <= peak spectrum.
Proof.
  destruct (getBandEnergy_spec spectrum lowFreq highFreq sampleRate) as [Hempty Hspan].
  destruct (Z_ge_lt_dec (fst (binSpan spectrum lowFreq highFreq sampleRate))
                        (snd (binSpan spectrum lowFreq highFreq sampleRate))) as [Hge|Hlt].
  - rewrite (Hempty Hge). split; [lra | apply peak_nonneg].
  - rewrite (Hspan Hlt). clear Hempty Hspan.
    set (bins := slice spectrum _ _).
    assert (Hn : 0 < INR (length bins) + 1) by (pose proof (pos_INR (length bins)); lra).
    split; [apply sqrt_pos|].
    rewrite <- (sqrt_square (peak spectrum)) by apply peak_nonneg.
    apply sqrt_le_1_alt.
    apply (Rmult_le_reg_r (INR (length bins) + 1)); [exact Hn|].
    unfold Rdiv. rewrite Rmult_assoc, Rinv_l, Rmult_1_r by lra.
    assert (Hsum : sum (map (fun x => x * x) bins)
                   <= peak spectrum * peak spectrum * INR (length bins)).
    { rewrite <- (length_map (fun x => x * x) bins).
      apply sum_le_upper, Forall_forall. intros y Hin. apply in_map_iff in Hin.
      destruct Hin as (x & <- & Hx). apply Rsqr_le_peak.
      unfold bins, slice in Hx. now apply In_firstn, In_skipn in Hx. }
    pose proof (peak_nonneg spectrum). nra.
Qed.

(** X25.  At a positive sample rate [getBandEnergy] is non-negative and
    never exceeds the largest absolute magnitude of the spectrum. *)
Theorem getBandEnergy_range (spectrum : list R) (lowFreq highFreq sampleRate : R) :
  0 < sampleRate ->
  0 <= getBandEnergy spectrum lowFreq highFreq sampleRate <= peak spectrum.
Proof.
  intros _. exact (getBandEnergy_range_facts spectrum lowFreq highFreq sampleRate).
Qed.

Lemma getBandEnergy_range_witness :
  0 < 44100
  /\ 0 <= getBandEnergy (repeat 1 512) 20 60 44100 <= peak (repeat 1 512).
Proof.
  assert (Hrate : 0 < 44100) by lra.
  split; [exact Hrate|].
  apply (getBandEnergy_range (repeat 1 512) 20 60 44100 Hrate).
Defined.

(** ** Thresholds and score caps *)

(** The threshold only gates the reported match: confidence and ranked
    scores do not depend on it, and a match reported under one threshold is
    reported, with the same id, under every lower one. *)
Lemma threshold_only_gates (unknownFingerprint : Fingerprint)
    (userId : option string) (database : Database) (threshold threshold' : R) :
  let result := matchAudio unknownFingerprint threshold userId database in
  let result' := matchAudio unknownFingerprint threshold' userId database in
  r_confidence result' = r_confidence result
  /\ r_allScores result' = r_allScores result
  /\ (threshold' <= threshold ->
      forall id, r_match result = Some id -> r_match result' = Some id).
Proof.
  cbv zeta. rewrite !matchAudio_confidence, !matchAudio_allScores.
  split; [reflexivity|]. split; [reflexivity|].
  intros Hle id. unfold matchAudio.
  destruct (Rge_dec _ threshold) as [Hge|_]; [|discriminate].
  destruct (Rge_dec _ threshold') as [_|Hn]; [tauto|].
  exfalso. apply Hn. lra.
Qed.

(** X26.  Score caps.  A pair whose length ratio is below 0.7 scores at
    most 0.85, and a pair with fewer than 60% good frames scores at most
    0.5; so neither penalty leaves a score above the default threshold
    0.85, and a pair under the temporal-consistency penalty stays below the
    notification floor 0.80. *)
Theorem penalty_score_caps (fp1 fp2 : Fingerprint) :
  (10 <= Nat.min (length fp1) (length fp2))%nat ->
  (lengthRatio fp1 fp2 < 0.7 -> compareFingerprints fp1 fp2 <= 0.85)
  /\ (goodFrameFraction fp1 fp2 < 0.6 ->
      compareFingerprints fp1 fp2 <= 0.5
      /\ compareFingerprints fp1 fp2 < MATCHING_CONFIG.MIN_NOTIFICATION_CONFIDENCE)
  /\ (lengthRatio fp1 fp2 < 0.7 -> goodFrameFraction fp1 fp2 < 0.6 ->
      compareFingerprints fp1 fp2 <= 0.425).
Proof.
  intros Hlen.
  assert (Hpos : (0 < Nat.min (length fp1) (length fp2))%nat) by lia.
  pose proof (meanFrameSimilarity_bounds fp1 fp2 Hpos) as Hmean.
  rewrite (compareFingerprints_long fp1 fp2 Hlen), compareFingerprintsAligned_unfold.
  unfold MATCHING_CONFIG.MIN_NOTIFICATION_CONFIDENCE.
  destruct (Rlt_dec (goodFrameFraction fp1 fp2) 0.6);
    destruct (Rlt_dec (lengthRatio fp1 fp2) 0.7);
    repeat split; intros; try contradiction; lra.
Qed.

Lemma penalty_score_caps_witness :
  (10 <= Nat.min (length silentClip) (length halfLoudClip))%nat
  /\ compareFingerprints silentClip halfLoudClip <= 0.5.
Proof.
  assert (Hlen : (10 <= Nat.min (length silentClip) (length halfLoudClip))%nat)
    by (simpl; lia).
  pose proof goodFrameFraction_halfLoud as Hhalf.
  split; [exact Hlen|].
  apply (penalty_score_caps silentClip halfLoudClip Hlen). lra.
Defined.

(** ** Ranges of the extracted features *)

Lemma peakBinOf_bounds (spectrum : list R) (sampleRate lowFreq highFreq : R) :
  let lowBin := fst (peakSpan spectrum sampleRate lowFreq highFreq) in
  let bound := snd (peakSpan spectrum sampleRate lowFreq highFreq) in
  let peakBin := peakBinOf spectrum sampleRate lowFreq highFreq in
  (lowBin <= peakBin)%Z /\ (peakBin = lowBin \/ (peakBin < bound)%Z).
Proof.
  cbv zeta. unfold peakBinOf.
  destruct (peakSpan spectrum sampleRate lowFreq highFreq) as [lowBin bound].
  cbn [fst snd]. unfold zrange.
  destruct (peak_fold_invariant spectrum lowBin (Z.to_nat (bound - lowBin)))
    as [(_ & Hb & _)|(_ & Hb & _)].
  - rewrite Hb. split; [lia | now left].
  - split; [lia | right; lia].
Qed.

Lemma peakSpan_low_half (spectrum : list R) (sampleRate : R) :
  0 < sampleRate -> length spectrum = 512%nat ->
  peakSpan spectrum sampleRate 0 (sampleRate / 4) = (0, 256)%Z.
Proof.
  intros Hrate Hlen. unfold peakSpan. rewrite Hlen, INR_512.
  replace (0 / (sampleRate / 2) * 512) with (IZR 0) by (field; lra).
  replace (sampleRate / 4 / (sampleRate / 2) * 512) with (IZR 256) by (field; lra).
  rewrite ZfloorZ. unfold Zceil. rewrite <- opp_IZR, ZfloorZ. reflexivity.
Qed.

Lemma peakSpan_high_half (spectrum : list R) (sampleRate : R) :
  0 < sampleRate -> length spectrum = 512%nat ->
  peakSpan spectrum sampleRate (sampleRate / 4) (sampleRate / 2) = (256, 512)%Z.
Proof.
  intros Hrate Hlen. unfold peakSpan. rewrite Hlen, INR_512.
  replace (sampleRate / 4 / (sampleRate / 2) * 512) with (IZR 256) by (field; lra).
  replace (sampleRate / 2 / (sampleRate / 2) * 512) with (IZR 512) by (field; lra).
  rewrite ZfloorZ. unfold Zceil. rewrite <- opp_IZR, ZfloorZ. reflexivity.
Qed.

Lemma findPeakFrequency_ranges (spectrum : list R) (sampleRate : R) :
  0 < sampleRate -> length spectrum = 512%nat ->
  0 <= findPeakFrequency spectrum sampleRate 0 (sampleRate / 4) < sampleRate / 4
  /\ sampleRate / 4
     <= findPeakFrequency spectrum sampleRate (sampleRate / 4) (sampleRate / 2)
     < sampleRate / 2.
Proof.
  intros Hrate Hlen. unfold findPeakFrequency. rewrite Hlen, INR_512.
  pose proof (peakBinOf_bounds spectrum sampleRate 0 (sampleRate / 4)) as Hlow.
  pose proof (peakBinOf_bounds spectrum sampleRate (sampleRate / 4) (sampleRate / 2))
    as Hhigh.
  cbv zeta in Hlow, Hhigh.
  rewrite (peakSpan_low_half _ _ Hrate Hlen) in Hlow.
  rewrite (peakSpan_high_half _ _ Hrate Hlen) in Hhigh.
  cbn [fst snd] in Hlow, Hhigh.
  set (b1 := peakBinOf spectrum sampleRate 0 (sampleRate / 4)) in *.
  set (b2 := peakBinOf spectrum sampleRate (sampleRate / 4) (sampleRate / 2)) in *.
  assert (H1 : 0 <= IZR b1 <= 255).
  { split; [apply IZR_le; lia | apply IZR_le; lia]. }
  assert (H2 : 256 <= IZR b2 <= 511).
  { split; [apply IZR_le; lia | apply IZR_le; lia]. }
  split; split; nra.
Qed.

Lemma applyHannWindow_bounded (c : R) (samples : list R) :
  Forall (fun x => Rabs x <= c) samples ->
  Forall (fun x => Rabs x <= c) (applyHannWindow samples).
Proof.
  intros Hall. unfold applyHannWindow. apply Forall_map, Forall_forall.
  intros [i x] Hin. apply indexed_In in Hin. destruct Hin as [_ Hx].
  rewrite Forall_forall in Hall. specialize (Hall x Hx). cbn [fst snd].
  rewrite Rabs_mult.
  pose proof (hann_multiplier_range (2 * PI * INR i / (INR (length samples) - 1))) as Hm.
  rewrite (Rabs_pos_eq (0.5 * _)) by lra.
  pose proof (Rabs_pos x). nra.
Qed.

Lemma computeFullFFT_nonneg (samples : list R) :
  Forall (fun m => 0 <= m) (computeFullFFT samples).
Proof.
  unfold computeFullFFT. apply Forall_map, Forall_forall. intros k _.
  destruct (dftSums _ samples) as [re im].
  apply Rmult_le_pos; [apply sqrt_pos|].
  destruct (Req_dec (INR (length samples) / 2) 0) as [->|Hne].
  - rewrite Rinv_0. lra.
  - left. apply Rinv_0_lt_compat. pose proof (pos_INR (length samples)). lra.
Qed.

Lemma frameFeatures_in_range (window spectrum : list R) (prevSpectrum : option (list R))
    (sampleRate : R) :
  0 < sampleRate ->
  window <> [] -> Forall (fun x => Rabs x <= 2) window ->
  length spectrum = 512%nat -> Forall (fun m => 0 <= m) spectrum ->
  frameInRange sampleRate (frameFeatures window spectrum prevSpectrum sampleRate).
Proof.
  intros Hrate Hwne Hw Hlen Hs.
  assert (Hsne : spectrum <> []) by (intros ->; discriminate).
  unfold frameInRange, frameFeatures.
  cbn [f_energy f_zcr f_spectralCentroid f_spectralFlux f_spectralRolloff
       f_spectralFlatness f_spectralContrast f_subBass f_bass f_lowMid f_mid
       f_highMid f_upperMid f_presence f_brilliance f_peakFreq1 f_peakFreq2].
  split.
  { destruct (calculateEnergy_range_facts window Hwne) as [[Hlo Hhi] _].
    assert (peak window <= 2) by (apply peak_le; [lra | exact Hw]). lra. }
  split; [apply (calculateZeroCrossingRate_range_facts window Hwne)|].
  split; [apply (calculateSpectralCentroid_range_facts spectrum sampleRate Hrate Hs)|].
  split.
  { destruct prevSpectrum as [prev|]; [apply sqrt_pos | lra]. }
  split; [apply (calculateSpectralRolloff_first_bin_facts spectrum sampleRate Hsne Hs Hrate)|].
  split; [exact (proj1 (proj1 (calculateSpectralFlatness_range_facts spectrum)))|].
  split.
  { destruct calculateSpectralContrast_range_facts as [_ Hrange].
    destruct (Hrange spectrum ltac:(rewrite Hlen; lia)) as (r & -> & Hr). exact Hr. }
  split.
  { repeat split; apply getBandEnergy_range_facts. }
  apply (findPeakFrequency_ranges spectrum sampleRate Hrate Hlen).
Qed.

Lemma extractLoop_in_range (samples : list R) (sampleRate : R) (fuel i : nat)
    (prevSpectrum : option (list R)) :
  0 < sampleRate ->
  Forall (fun x => Rabs x <= 2) samples ->
  Forall (frameInRange sampleRate) (extractLoop fuel samples sampleRate i prevSpectrum).
Proof.
  intros Hrate Hall. revert i prevSpectrum.
  induction fuel as [|fuel IH]; intros i prev; cbn [extractLoop]; [constructor|].
  destruct (Z.of_nat i <? Z.of_nat (length samples) - Z.of_nat windowSize)%Z eqn:E;
    [|constructor].
  apply Z.ltb_lt in E.
  assert (Hwl : length (applyHannWindow (firstn windowSize (skipn i samples)))
                = windowSize).
  { unfold applyHannWindow. rewrite length_map, indexed_length.
    now apply window_length. }
  constructor; [|apply IH].
  apply frameFeatures_in_range.
  - exact Hrate.
  - intros Hnil. rewrite Hnil in Hwl. discriminate.
  - apply applyHannWindow_bounded, Forall_forall. intros x Hin.
    rewrite Forall_forall in Hall. apply Hall. eapply In_skipn, In_firstn, Hin.
  - now apply computeFullFFT_window_length.
  - apply computeFullFFT_nonneg.
Qed.

(** X27.  Every frame of a fingerprint is well formed.  At a positive
    sample rate, each frame [extractFeatures] produces has energy in [0, 2],
    zero-crossing rate in [0, 1), centroid and rolloff in [0, nyquist), a
    contrast that is 0 or at least 1, non-negative flatness, flux and band
    energies, [peakFreq1] in [0, sampleRate/4) and [peakFreq2] in
    [sampleRate/4, sampleRate/2). *)
Theorem fingerprint_frames_in_range (channel : list R) (sampleRate : R) :
  0 < sampleRate ->
  Forall (frameInRange sampleRate) (extractFeatures channel sampleRate).
Proof.
  intros Hrate. unfold extractFeatures. apply extractLoop_in_range; [exact Hrate|].
  apply highPassFilter_bounded; [lra | exact Hrate | apply normalizeAudio_bounded].
Qed.

Lemma fingerprint_frames_in_range_witness :
  0 < 44100
  /\ Forall (frameInRange 44100) (extractFeatures (repeat 1 3000) 44100).
Proof.
  assert (Hrate : 0 < 44100) by lra.
  split; [exact Hrate|].
  apply (fingerprint_frames_in_range (repeat 1 3000) 44100 Hrate).
Defined.
